(** * Focus peaking: the edge-detection overlay of [src/services/focusPeaking.ts]

    A shallow embedding of the frame processor and of the colour parser,
    and the properties the specification states about them.

    - JavaScript numbers are IEEE 754 binary64 values: [spec_float] of the
      Standard Library at precision 53, with the library's correctly
      rounded operations.
    - Typed arrays ([Uint8Array], [Uint8ClampedArray]) are lists of bytes,
      read and written by index; a write converts the number as the
      array type prescribes, a write out of range is dropped, a read out
      of range is [undefined] (NaN in arithmetic).
    - The canvas is explicit state: its size, its bitmap and whether a 2D
      context can be obtained.
    - The regular expression of [hexToRgb] is a term of a small regex type,
      run by a backtracking matcher in continuation-passing style.

    The program comes first, then the vocabulary of the statements, then
    the proofs. Statements about numbers are proved on their values:
    every binary64 number is an integer multiple of 2^-1074, the
    operations round the exact result, and rounding is monotone. *)

From stdpp Require Import base list strings.
From Stdlib Require Import ZArith Lia Ascii.
From Stdlib Require Import Floats.SpecFloat.

Local Open Scope Z_scope.

(** ** JavaScript numbers *)

Module JS.

Definition number : Type := spec_float.

Definition prec : Z := 53.
Definition emax : Z := 1024.

Definition NaN : number := S754_nan.

(** An integer as a number (exact below 2^53, rounded to nearest above). *)
Definition of_Z (z : Z) : number := binary_normalize prec emax z 0 false.

Definition add : number -> number -> number := SFadd prec emax.
Definition sub : number -> number -> number := SFsub prec emax.
Definition mul : number -> number -> number := SFmul prec emax.
Definition div : number -> number -> number := SFdiv prec emax.

(** [x > y]: false when either side is NaN. *)
Definition gt (x y : number) : bool :=
  match SFcompare x y with Some Gt => true | _ => false end.

(** [x <= y]: false when either side is NaN. *)
Definition le (x y : number) : bool := SFleb x y.

(** [x < y]: false when either side is NaN. *)
Definition lt (x y : number) : bool := SFltb x y.

Definition Math_abs : number -> number := SFabs.
Definition Math_sqrt : number -> number := SFsqrt prec emax.

(** [Math.min]: NaN if an argument is NaN; -0 counts as smaller than +0. *)
Definition Math_min (x y : number) : number :=
  match SFcompare x y with
  | None => NaN
  | Some Lt => x
  | Some Gt => y
  | Some Eq => match x with S754_zero true => x | _ => y end
  end.

(** [Math.max]: NaN if an argument is NaN; +0 counts as larger than -0. *)
Definition Math_max (x y : number) : number :=
  match SFcompare x y with
  | None => NaN
  | Some Gt => x
  | Some Lt => y
  | Some Eq => match x with S754_zero false => x | _ => y end
  end.

(** The signed mantissa of a finite number. *)
Definition signed (s : bool) (m : positive) : Z :=
  if s then Z.neg m else Z.pos m.

(** [Math.round]: the nearest integer, a tie going towards +infinity;
    [floor (x + 1/2)] computed exactly. A result of zero keeps the sign
    of the argument. *)
Definition Math_round (x : number) : number :=
  match x with
  | S754_finite s m e =>
      if 0 <=? e then x
      else
        let n := (2 * signed s m + 2 ^ (- e)) / 2 ^ (- e + 1) in
        if n =? 0 then S754_zero s else of_Z n
  | _ => x
  end.

(** Truncation towards zero of a finite number. *)
Definition truncate (s : bool) (m : positive) (e : Z) : Z :=
  let t := if 0 <=? e then Z.pos m * 2 ^ e else Z.pos m / 2 ^ (- e) in
  if s then - t else t.

(** The conversion of a store into a [Uint8Array]: NaN, zeros and
    infinities give 0, any other number is truncated and taken modulo 256. *)
Definition ToUint8 (x : number) : Z :=
  match x with
  | S754_finite s m e => truncate s m e mod 256
  | _ => 0
  end.

(** The conversion of a store into a [Uint8ClampedArray]: NaN gives 0,
    the number is clamped to [0, 255] and rounded to the nearest integer,
    a tie going to the even one. *)
Definition ToUint8Clamp (x : number) : Z :=
  match x with
  | S754_nan => 0
  | S754_zero _ => 0
  | S754_infinity s => if s then 0 else 255
  | S754_finite true _ _ => 0
  | S754_finite false m e =>
      if 0 <=? e then Z.min 255 (Z.pos m * 2 ^ e)
      else
        let d := 2 ^ (- e) in
        let f := Z.pos m / d in
        let r := Z.pos m mod d in
        if 255 <=? f then 255
        else if 2 * r <? d then f
        else if d <? 2 * r then f + 1
        else if Z.even f then f else f + 1
  end.

(** The numeric literals of the source. *)
Definition lit_0_299 : number := Eval vm_compute in div (of_Z 299) (of_Z 1000).
Definition lit_0_587 : number := Eval vm_compute in div (of_Z 587) (of_Z 1000).
Definition lit_0_114 : number := Eval vm_compute in div (of_Z 114) (of_Z 1000).
Definition lit_255 : number := Eval vm_compute in of_Z 255.
Definition lit_2 : number := Eval vm_compute in of_Z 2.
Definition lit_0 : number := S754_zero false.

(** A read of a typed array of bytes: [undefined] out of range. *)
Definition read (a : list Z) (i : nat) : number :=
  match a !! i with
  | Some v => of_Z v
  | None => NaN
  end.

End JS.

(** ** Regular expressions

    The fragment of ECMAScript patterns that [hexToRgb] uses, and its
    backtracking matcher: a matcher takes a state (the end index reached
    and the captures so far) and a continuation. *)

Module RegExp.

Inductive regex : Type :=
| AssertBegin                              (* ^ *)
| AssertEnd                                (* $ *)
| Chr (c : ascii)                          (* a literal character *)
| Class (ranges : list (ascii * ascii))    (* [...] of ranges lo-hi *)
| Opt (r : regex)                          (* r? , greedy *)
| Rep (n : nat) (r : regex)                (* r{n} *)
| Seq (r1 r2 : regex)
| Group (r : regex).                       (* ( r ), capturing *)

Record state : Type := State {
  endIndex : nat;
  captures : list (list ascii)
}.

Definition cont : Type := state -> option state.

(** Canonicalisation under the [i] flag: the upper case of a letter. *)
Definition canonicalize (ignoreCase : bool) (c : ascii) : ascii :=
  let n := nat_of_ascii c in
  if ignoreCase && (97 <=? n)%nat && (n <=? 122)%nat
  then ascii_of_nat (n - 32) else c.

(** The characters of a range, in order. *)
Definition members (lo hi : ascii) : list ascii :=
  ascii_of_nat <$> seq (nat_of_ascii lo) (S (nat_of_ascii hi) - nat_of_ascii lo).

Definition same_char (ignoreCase : bool) (a c : ascii) : bool :=
  Ascii.eqb (canonicalize ignoreCase a) (canonicalize ignoreCase c).

(** A character is in a class when some member has its canonical form. *)
Definition class_match (ignoreCase : bool) (ranges : list (ascii * ascii))
    (c : ascii) : bool :=
  existsb (fun '(lo, hi) => existsb (fun a => same_char ignoreCase a c) (members lo hi))
    ranges.

(** One character, tested by [p], is consumed. *)
Definition char_matcher (input : list ascii) (p : ascii -> bool)
    (x : state) (c : cont) : option state :=
  match input !! endIndex x with
  | Some ch => if p ch then c (State (S (endIndex x)) (captures x)) else None
  | None => None
  end.

Fixpoint compile (input : list ascii) (ignoreCase : bool) (r : regex)
    (x : state) (c : cont) {struct r} : option state :=
  match r with
  | AssertBegin => if (endIndex x =? 0)%nat then c x else None
  | AssertEnd => if (endIndex x =? length input)%nat then c x else None
  | Chr ch => char_matcher input (same_char ignoreCase ch) x c
  | Class ranges => char_matcher input (class_match ignoreCase ranges) x c
  | Opt r1 =>
      match compile input ignoreCase r1 x c with
      | Some y => Some y
      | None => c x
      end
  | Rep n r1 =>
      (fix rep (n : nat) (x : state) (c : cont) {struct n} : option state :=
         match n with
         | O => c x
         | S n' => compile input ignoreCase r1 x (fun y => rep n' y c)
         end) n x c
  | Seq r1 r2 =>
      compile input ignoreCase r1 x (fun y => compile input ignoreCase r2 y c)
  | Group r1 =>
      compile input ignoreCase r1 x (fun y =>
        c (State (endIndex y)
             (captures y ++
              [take (endIndex y - endIndex x) (drop (endIndex x) input)])))
  end.

(** The match attempted at one start index. *)
Definition match_at (r : regex) (ignoreCase : bool) (input : list ascii)
    (i : nat) : option state :=
  compile input ignoreCase r (State i []) Some.

(** [exec] of a pattern without the [g] and [y] flags: the first start
    index, from 0 to the length, at which the pattern matches; the result
    holds the captures. *)
Fixpoint scan (r : regex) (ignoreCase : bool) (input : list ascii)
    (i : nat) (fuel : nat) : option (list (list ascii)) :=
  match match_at r ignoreCase input i with
  | Some y => Some (captures y)
  | None =>
      match fuel with
      | O => None
      | S fuel' => scan r ignoreCase input (S i) fuel'
      end
  end.

Definition exec (r : regex) (ignoreCase : bool) (s : string)
    : option (list (list ascii)) :=
  let input := String.list_ascii_of_string s in
  scan r ignoreCase input 0 (length input).

End RegExp.

(** ** [parseInt]

    Leading white space, a sign and, for radix 16, a [0x] prefix are
    skipped; the longest prefix of digits of the radix is the value; no
    digit at all is NaN. *)

Module ParseInt.

Definition is_space (c : ascii) : bool :=
  let n := nat_of_ascii c in
  (n =? 32)%nat || ((9 <=? n)%nat && (n <=? 13)%nat) || (n =? 160)%nat.

(** The value of a character as a digit, for letters in either case. *)
Definition digit_value (c : ascii) : option Z :=
  let n := nat_of_ascii c in
  if (48 <=? n)%nat && (n <=? 57)%nat then Some (Z.of_nat (n - 48))
  else if (97 <=? n)%nat && (n <=? 122)%nat then Some (Z.of_nat (n - 87))
  else if (65 <=? n)%nat && (n <=? 90)%nat then Some (Z.of_nat (n - 55))
  else None.

Fixpoint skip_spaces (s : list ascii) : list ascii :=
  match s with
  | c :: s' => if is_space c then skip_spaces s' else s
  | [] => []
  end.

(** The digits of the longest valid prefix, folded from the left. *)
Fixpoint digits (radix : Z) (s : list ascii) (acc : option Z) : option Z :=
  match s with
  | c :: s' =>
      match digit_value c with
      | Some d =>
          if d <? radix
          then digits radix s' (Some (radix * default 0 acc + d))
          else acc
      | None => acc
      end
  | [] => acc
  end.

Definition strip_prefix (radix : Z) (s : list ascii) : list ascii :=
  match s with
  | "0"%char :: ("x"%char | "X"%char) :: s' => if radix =? 16 then s' else s
  | _ => s
  end.

Definition parseInt (s : list ascii) (radix : Z) : JS.number :=
  let s1 := skip_spaces s in
  let '(neg, s2) :=
    match s1 with
    | "-"%char :: s' => (true, s')
    | "+"%char :: s' => (false, s')
    | _ => (false, s1)
    end in
  match digits radix (strip_prefix radix s2) None with
  | None => JS.NaN
  | Some 0 => S754_zero neg
  | Some v => JS.of_Z (if neg then - v else v)
  end.

End ParseInt.

(** ** Colours *)

Module Rgb.
Record t : Type := Mk { r : JS.number; g : JS.number; b : JS.number }.
End Rgb.

(** [[a-f\d]] *)
Definition hex_class : RegExp.regex :=
  RegExp.Class [("a"%char, "f"%char); ("0"%char, "9"%char)].

(** [/^#?([a-f\d]{2})([a-f\d]{2})([a-f\d]{2})$/i] *)
Definition hex_pattern : RegExp.regex :=
  RegExp.Seq RegExp.AssertBegin
    (RegExp.Seq (RegExp.Opt (RegExp.Chr "#"%char))
       (RegExp.Seq (RegExp.Group (RegExp.Rep 2 hex_class))
          (RegExp.Seq (RegExp.Group (RegExp.Rep 2 hex_class))
             (RegExp.Seq (RegExp.Group (RegExp.Rep 2 hex_class))
                RegExp.AssertEnd)))).

(** The object a successful [exec] is turned into: [result[1]],
    [result[2]] and [result[3]] parsed in base 16. *)
Definition rgb_of_captures (caps : list (list ascii)) : Rgb.t :=
  Rgb.Mk (ParseInt.parseInt (caps !!! 0%nat) 16)
         (ParseInt.parseInt (caps !!! 1%nat) 16)
         (ParseInt.parseInt (caps !!! 2%nat) 16).

(** The body shared by the [hexToRgb] of every revision of the file; the
    revisions differ in the colour returned when the pattern does not
    match. *)
Definition hexToRgb_or (fallback : Rgb.t) (hex : string) : Rgb.t :=
  match RegExp.exec hex_pattern true hex with
  | Some result => rgb_of_captures result
  | None => fallback
  end.

(** ** The document: canvases, video frames and image data *)

Record Canvas : Type := MkCanvas {
  canvas_width : nat;
  canvas_height : nat;
  (** the bitmap, four bytes (R, G, B, A) a pixel, row by row *)
  canvas_bitmap : list Z;
  (** whether [getContext('2d')] returns a context *)
  canvas_context2d : bool
}.

Record Video : Type := MkVideo {
  videoWidth : nat;
  videoHeight : nat;
  (** the current frame as [getImageData] reads it back once the frame is
      drawn on a canvas of the size of the video *)
  video_frame : list Z
}.

Record ImageData : Type := MkImageData {
  image_width : nat;
  image_height : nat;
  image_data : list Z
}.

(** What the page provides besides the two elements. *)
Record Document : Type := MkDocument {
  (** whether a canvas made by [createElement] gives a 2D context *)
  offscreen_context2d : bool
}.

(** The variables of the module. *)
Record ModuleState : Type := MkModuleState {
  lastVideoWidth : nat;
  lastVideoHeight : nat
}.

(** How a call ends: it returns, with what it wrote on the console, or an
    exception leaves it. Either way the canvas is left in some state. *)
Inductive Outcome : Type :=
| Returned (canvas : Canvas) (console : list string)
| Thrown (canvas : Canvas) (exception : string).

Definition outcome_canvas (o : Outcome) : Canvas :=
  match o with Returned c _ => c | Thrown c _ => c end.

Definition transparent (width height : nat) : list Z :=
  replicate (width * height * 4) 0.

(** Assigning [width] and [height] resizes the canvas and resets its bitmap. *)
Definition resize (c : Canvas) (width height : nat) : Canvas :=
  MkCanvas width height (transparent width height) (canvas_context2d c).

(** [ctx.clearRect(0, 0, canvas.width, canvas.height)] *)
Definition clearRect (c : Canvas) : Canvas :=
  MkCanvas (canvas_width c) (canvas_height c)
    (transparent (canvas_width c) (canvas_height c)) (canvas_context2d c).

(** [new ImageData(width, height)]: transparent black. *)
Definition new_ImageData (width height : nat) : ImageData :=
  MkImageData width height (transparent width height).

(** [ctx.putImageData(image, 0, 0)] of an image of the size of the canvas. *)
Definition putImageData (c : Canvas) (image : ImageData) : Canvas :=
  MkCanvas (canvas_width c) (canvas_height c) (image_data image)
    (canvas_context2d c).

(** The frame drawn on a canvas of the size of the video and read back:
    [drawImage(video, 0, 0)] then [getImageData(0, 0, width, height)]. The
    read throws on an empty rectangle. *)
Definition capture (v : Video) (width height : nat) : option ImageData :=
  if ((width =? 0) || (height =? 0))%nat then None
  else Some (MkImageData width height (video_frame v)).

(** ** Loops *)

(** [for (let i = from; i < to; i += 1) body] over a state. *)
Definition for_loop {S : Type} (from to : nat) (body : nat -> S -> S) (s : S) : S :=
  fold_left (fun s i => body i s) (seq from (to - from)) s.

(** ** The revision that draws an outline (the first [processFrame]) *)

Module Outline.
Import JS.

(** Red when the string does not parse. *)
Definition hexToRgb (hex : string) : Rgb.t :=
  hexToRgb_or (Rgb.Mk lit_255 lit_0 lit_0) hex.

(** The value stored in [grayscale] for the pixel whose bytes start at [idx]. *)
Definition luminance (data : list Z) (idx : nat) : number :=
  Math_round
    (add (add (mul (read data idx) lit_0_299)
              (mul (read data (idx + 1)) lit_0_587))
         (mul (read data (idx + 2)) lit_0_114)).

(** Step 1: the grayscale buffer, a [Uint8Array] of [width * height] bytes. *)
Definition grayscale_of (data : list Z) (width height : nat) : list Z :=
  for_loop 0 height (fun y grayscale =>
    for_loop 0 width (fun x grayscale =>
      let idx := ((y * width + x) * 4)%nat in
      <[(y * width + x)%nat := ToUint8 (luminance data idx)]> grayscale)
    grayscale)
  (replicate (width * height) 0).

(** The gradient magnitude at an interior pixel. *)
Definition edgeResponse (grayscale : list Z) (width x y : nat) : number :=
  let top := read grayscale ((y - 1) * width + x) in
  let bottom := read grayscale ((y + 1) * width + x) in
  let left := read grayscale (y * width + (x - 1)) in
  let right := read grayscale (y * width + (x + 1)) in
  let gx := Math_abs (sub right left) in
  let gy := Math_abs (sub bottom top) in
  Math_sqrt (add (mul gx gx) (mul gy gy)).

(** The body of the inner loop of the edge detection. *)
Definition outline_pixel (grayscale : list Z) (width : nat) (colorRgb : Rgb.t)
    (threshold intensity : number) (y x : nat) (outlinePixels : list Z)
    : list Z :=
  let edge := edgeResponse grayscale width x y in
  if gt edge threshold then
    let outlineIdx := ((y * width + x) * 4)%nat in
    let edgeStrength := Math_min lit_255 (mul (sub edge threshold) lit_2) in
    let alpha := Math_min lit_255 (mul edgeStrength intensity) in
    <[(outlineIdx + 3)%nat := ToUint8Clamp alpha]>
      (<[(outlineIdx + 2)%nat := ToUint8Clamp (Rgb.b colorRgb)]>
         (<[(outlineIdx + 1)%nat := ToUint8Clamp (Rgb.g colorRgb)]>
            (<[outlineIdx := ToUint8Clamp (Rgb.r colorRgb)]> outlinePixels)))
  else outlinePixels.

(** The edge detection: the pixels of the outline image. *)
Definition outline_of (grayscale : list Z) (width height : nat)
    (colorRgb : Rgb.t) (threshold intensity : number) : list Z :=
  for_loop 1 (height - 1) (fun y outlinePixels =>
    for_loop 1 (width - 1) (fun x outlinePixels =>
      outline_pixel grayscale width colorRgb threshold intensity y x
        outlinePixels)
    outlinePixels)
  (image_data (new_ImageData width height)).

Definition processFrame (st : ModuleState) (document : Document)
    (videoElement : Video) (canvasElement : Canvas)
    (color : string) (threshold : number) (enabled : bool)
    (intensity : number) (mode : string) : ModuleState * Outcome :=
  if negb enabled then
    (* Skip processing if focus peaking is disabled *)
    (st, Returned (if canvas_context2d canvasElement
                   then clearRect canvasElement else canvasElement) [])
  else
    (* Resize canvas to match video dimensions if needed *)
    let canvasElement :=
      if negb (canvas_width canvasElement =? videoWidth videoElement)%nat
         || negb (canvas_height canvasElement =? videoHeight videoElement)%nat
      then resize canvasElement (videoWidth videoElement) (videoHeight videoElement)
      else canvasElement in
    if negb (canvas_context2d canvasElement) then
      (st, Returned canvasElement ["Failed to get canvas context"%string])
    else
      let canvasElement := clearRect canvasElement in
      if negb (offscreen_context2d document) then
        (st, Returned canvasElement
               ["Failed to get offscreen canvas context"%string])
      else
        match capture videoElement (canvas_width canvasElement)
                (canvas_height canvasElement) with
        | None => (st, Thrown canvasElement "IndexSizeError"%string)
        | Some imageData =>
            let data := image_data imageData in
            let width := canvas_width canvasElement in
            let height := canvas_height canvasElement in
            let colorRgb := hexToRgb color in
            let grayscale := grayscale_of data width height in
            let outlinePixels :=
              outline_of grayscale width height colorRgb threshold intensity in
            (st, Returned
                   (putImageData canvasElement
                      (MkImageData width height outlinePixels)) [])
        end.

End Outline.

(** ** The revision that delegates to a Web Worker (the third [processFrame])

    The code the worker runs, [applyFocusPeaking] with its own [hexToRgb],
    and the helpers of the synchronous fallback, [getGrayscale] and the
    [hexToRgb] of the module. *)

Module Worker.
Import JS.

Definition lit_74 : number := Eval vm_compute in of_Z 74.

(** The [hexToRgb] inside the worker: red when the string does not parse. *)
Definition worker_hexToRgb (hex : string) : Rgb.t :=
  hexToRgb_or (Rgb.Mk lit_255 lit_0 lit_0) hex.

(** The [hexToRgb] of the module, used by [processSynchronously]: the
    default colour of this revision, [#FF4A4A], when the string does not
    parse. *)
Definition hexToRgb (hex : string) : Rgb.t :=
  hexToRgb_or (Rgb.Mk lit_255 lit_74 lit_74) hex.

(** The grayscale value of a pixel, as the synchronous fallback computes it. *)
Definition getGrayscale (data : list Z) (width y x : nat) : number :=
  let idx := ((y * width + x) * 4)%nat in
  add (add (mul lit_0_299 (read data idx))
           (mul lit_0_587 (read data (idx + 1))))
      (mul lit_0_114 (read data (idx + 2))).

Definition grayscale_of (data : list Z) (width height : nat) : list Z :=
  for_loop 0 height (fun y grayscale =>
    for_loop 0 width (fun x grayscale =>
      let idx := ((y * width + x) * 4)%nat in
      <[(y * width + x)%nat :=
          ToUint8
            (Math_round
               (add (add (mul (read data idx) lit_0_299)
                         (mul (read data (idx + 1)) lit_0_587))
                    (mul (read data (idx + 2)) lit_0_114)))]> grayscale)
    grayscale)
  (replicate (width * height) 0).

(** The Sobel magnitude at an interior pixel. *)
Definition sobel (grayscale : list Z) (width x y : nat) : number :=
  let tl := read grayscale ((y - 1) * width + (x - 1)) in
  let t := read grayscale ((y - 1) * width + x) in
  let tr := read grayscale ((y - 1) * width + (x + 1)) in
  let l := read grayscale (y * width + (x - 1)) in
  let r := read grayscale (y * width + (x + 1)) in
  let bl := read grayscale ((y + 1) * width + (x - 1)) in
  let b := read grayscale ((y + 1) * width + x) in
  let br := read grayscale ((y + 1) * width + (x + 1)) in
  let gx :=
    add (add (add (sub (sub (SFopp tl) (mul lit_2 l)) bl) tr) (mul lit_2 r)) br in
  let gy :=
    add (add (add (sub (sub (SFopp tl) (mul lit_2 t)) tr) bl) (mul lit_2 b)) br in
  Math_sqrt (add (mul gx gx) (mul gy gy)).

(** The body of the inner loop over the interior. *)
Definition peak_pixel (data grayscale : list Z) (width : nat)
    (highlightColor : Rgb.t) (threshold : number) (y x : nat)
    (resultData : list Z) : list Z :=
  let g := sobel grayscale width x y in
  let idx := ((y * width + x) * 4)%nat in
  let resultData := <[idx := ToUint8Clamp (read data idx)]> resultData in
  let resultData :=
    <[(idx + 1)%nat := ToUint8Clamp (read data (idx + 1))]> resultData in
  let resultData :=
    <[(idx + 2)%nat := ToUint8Clamp (read data (idx + 2))]> resultData in
  let resultData := <[(idx + 3)%nat := 255]> resultData in
  if gt g threshold then
    <[(idx + 3)%nat := 255]>
      (<[(idx + 2)%nat := ToUint8Clamp (Rgb.b highlightColor)]>
         (<[(idx + 1)%nat := ToUint8Clamp (Rgb.g highlightColor)]>
            (<[idx := ToUint8Clamp (Rgb.r highlightColor)]> resultData)))
  else
    (* Make non-edge pixels transparent *)
    <[(idx + 3)%nat := 0]> resultData.

(** The body of the loop that sets the border pixels. *)
Definition border_pixel (width height y x : nat) (resultData : list Z)
    : list Z :=
  if ((y =? 0) || (y =? height - 1) || (x =? 0) || (x =? width - 1))%nat then
    let idx := ((y * width + x) * 4)%nat in
    (* Make border pixels transparent *)
    <[(idx + 3)%nat := 0]> resultData
  else resultData.

Definition applyFocusPeaking (imageData : ImageData) (threshold : number)
    (colorHex : string) : ImageData :=
  let width := image_width imageData in
  let height := image_height imageData in
  let data := image_data imageData in
  let resultData := image_data (new_ImageData width height) in
  let highlightColor := worker_hexToRgb colorHex in
  let grayscale := grayscale_of data width height in
  let resultData :=
    for_loop 1 (height - 1) (fun y resultData =>
      for_loop 1 (width - 1) (fun x resultData =>
        peak_pixel data grayscale width highlightColor threshold y x resultData)
      resultData)
    resultData in
  let resultData :=
    for_loop 0 height (fun y resultData =>
      for_loop 0 width (fun x resultData =>
        border_pixel width height y x resultData)
      resultData)
    resultData in
  MkImageData width height resultData.

End Worker.

(** ** Drawing on the canvas itself *)

(** The pixels of a [width] by [height] image copied on the canvas from
    its top left corner; what lies outside the image stays. *)
Definition blit (c : Canvas) (width height : nat) (data : list Z) : Canvas :=
  MkCanvas (canvas_width c) (canvas_height c)
    (map (fun j =>
            let p := (j / 4)%nat in
            let x := (p mod canvas_width c)%nat in
            let y := (p / canvas_width c)%nat in
            if ((x <? width) && (y <? height))%nat
            then default 0 (data !! ((y * width + x) * 4 + j mod 4)%nat)
            else default 0 (canvas_bitmap c !! j))
         (seq 0 (canvas_width c * canvas_height c * 4)))
    (canvas_context2d c).

(** [ctx.drawImage(video, 0, 0)]: the frame at its own size. A video frame
    is opaque: where it is drawn it replaces what the canvas held. *)
Definition drawImage (c : Canvas) (v : Video) : Canvas :=
  blit c (videoWidth v) (videoHeight v) (video_frame v).

(** [ctx.putImageData(image, 0, 0)] of an image of any size. *)
Definition putImageData_clipped (c : Canvas) (image : ImageData) : Canvas :=
  blit c (image_width image) (image_height image) (image_data image).

(** [ctx.getImageData(0, 0, canvas.width, canvas.height)]: a copy of the
    bitmap; it throws on an empty rectangle. *)
Definition getImageData (c : Canvas) : option ImageData :=
  if ((canvas_width c =? 0) || (canvas_height c =? 0))%nat then None
  else Some (MkImageData (canvas_width c) (canvas_height c) (canvas_bitmap c)).

(** ** The revision that draws a dotted pattern (the second [processFrame]) *)

Module Dotted.
Import JS.

Definition lit_4 : number := Eval vm_compute in of_Z 4.
Definition lit_100 : number := Eval vm_compute in of_Z 100.
Definition lit_1 : number := Eval vm_compute in of_Z 1.

(** Red when the string does not parse. *)
Definition hexToRgb (hex : string) : Rgb.t :=
  hexToRgb_or (Rgb.Mk lit_255 lit_0 lit_0) hex.

(** The approximated Laplacian at a pixel. *)
Definition edgeResponse (grayscale : list Z) (width x y : nat) : number :=
  let center := mul (read grayscale (y * width + x)) lit_4 in
  let top := read grayscale ((y - 1) * width + x) in
  let bottom := read grayscale ((y + 1) * width + x) in
  let left := read grayscale (y * width + (x - 1)) in
  let right := read grayscale (y * width + (x + 1)) in
  Math_abs (sub (sub (sub (sub center top) bottom) left) right).

(** [((x * 12345 + y * 67890) % 100) / 100]; the integer part is exact in
    binary64 for the coordinates of a canvas. *)
Definition patternValue (x y : nat) : number :=
  div (of_Z ((Z.of_nat x * 12345 + Z.of_nat y * 67890) mod 100)) lit_100.

(** The body of the inner loop: it writes into the data of the frame. *)
Definition dotted_pixel (grayscale : list Z) (width : nat) (colorRgb : Rgb.t)
    (threshold : number) (y x : nat) (data : list Z) : list Z :=
  (* Skip some pixels for performance while maintaining dotted pattern *)
  if negb ((x + y) mod 3 =? 0)%nat then data
  else
    let edge := edgeResponse grayscale width x y in
    if gt edge threshold then
      let edgeStrength := Math_min lit_1 (div (sub edge threshold) lit_100) in
      if lt (patternValue x y) edgeStrength then
        let idx := ((y * width + x) * 4)%nat in
        <[(idx + 2)%nat := ToUint8Clamp (Rgb.b colorRgb)]>
          (<[(idx + 1)%nat := ToUint8Clamp (Rgb.g colorRgb)]>
             (<[idx := ToUint8Clamp (Rgb.r colorRgb)]> data))
      else data
    else data.

(** The edge detection, in place on the data of the frame. *)
Definition dotted_of (grayscale : list Z) (width height : nat)
    (colorRgb : Rgb.t) (threshold : number) (data : list Z) : list Z :=
  for_loop 2 (height - 2) (fun y data =>
    for_loop 2 (width - 2) (fun x data =>
      dotted_pixel grayscale width colorRgb threshold y x data)
    data)
  data.

Definition processFrame (st : ModuleState) (videoElement : Video)
    (canvasElement : Canvas) (color : string) (threshold : number)
    (enabled : bool) (intensity : number) (mode : string)
    : ModuleState * Outcome :=
  if negb enabled then
    (st, Returned (if canvas_context2d canvasElement
                   then clearRect canvasElement else canvasElement) [])
  else
    let canvasElement :=
      if negb (canvas_width canvasElement =? videoWidth videoElement)%nat
         || negb (canvas_height canvasElement =? videoHeight videoElement)%nat
      then resize canvasElement (videoWidth videoElement) (videoHeight videoElement)
      else canvasElement in
    if negb (canvas_context2d canvasElement) then
      (st, Returned canvasElement ["Failed to get canvas context"%string])
    else
      (* Draw the video frame *)
      let canvasElement := drawImage canvasElement videoElement in
      match getImageData canvasElement with
      | None => (st, Thrown canvasElement "IndexSizeError"%string)
      | Some imageData =>
          let data := image_data imageData in
          let width := canvas_width canvasElement in
          let height := canvas_height canvasElement in
          let colorRgb := hexToRgb color in
          let grayscale := Outline.grayscale_of data width height in
          let data := dotted_of grayscale width height colorRgb threshold data in
          (st, Returned
                 (putImageData canvasElement (MkImageData width height data)) [])
      end.

End Dotted.

(** ** The synchronous fallback of the worker revision *)

Module Fallback.
Import JS.

(** The Sobel magnitude at a pixel, on the data as they stand. *)
Definition sobel (data : list Z) (width x y : nat) : number :=
  let tl := Worker.getGrayscale data width (y - 1) (x - 1) in
  let t := Worker.getGrayscale data width (y - 1) x in
  let tr := Worker.getGrayscale data width (y - 1) (x + 1) in
  let l := Worker.getGrayscale data width y (x - 1) in
  let r := Worker.getGrayscale data width y (x + 1) in
  let bl := Worker.getGrayscale data width (y + 1) (x - 1) in
  let b := Worker.getGrayscale data width (y + 1) x in
  let br := Worker.getGrayscale data width (y + 1) (x + 1) in
  let gx :=
    add (add (add (sub (sub (SFopp tl) (mul lit_2 l)) bl) tr) (mul lit_2 r)) br in
  let gy :=
    add (add (add (sub (sub (SFopp tl) (mul lit_2 t)) tr) bl) (mul lit_2 b)) br in
  Math_sqrt (add (mul gx gx) (mul gy gy)).

(** The body of the inner loop: it reads and writes the same data. *)
Definition sync_pixel (colorRgb : Rgb.t) (threshold : number) (width : nat)
    (y x : nat) (data : list Z) : list Z :=
  let idx := ((y * width + x) * 4)%nat in
  let g := sobel data width x y in
  if gt g threshold then
    (* Highlight with focus peaking color *)
    <[(idx + 2)%nat := ToUint8Clamp (Rgb.b colorRgb)]>
      (<[(idx + 1)%nat := ToUint8Clamp (Rgb.g colorRgb)]>
         (<[idx := ToUint8Clamp (Rgb.r colorRgb)]> data))
  else
    (* Make non-edge pixels transparent *)
    <[(idx + 3)%nat := 0]> data.

Definition sync_of (colorRgb : Rgb.t) (threshold : number)
    (width height : nat) (data : list Z) : list Z :=
  for_loop 1 (height - 1) (fun y data =>
    for_loop 1 (width - 1) (fun x data =>
      sync_pixel colorRgb threshold width y x data)
    data)
  data.

Definition processSynchronously (ctx : Canvas) (videoElement : Video)
    (color : string) (threshold : number) : Outcome :=
  (* Draw the video frame *)
  let ctx := drawImage ctx videoElement in
  match getImageData ctx with
  | None => Thrown ctx "IndexSizeError"%string
  | Some imageData =>
      let data := image_data imageData in
      let width := canvas_width ctx in
      let height := canvas_height ctx in
      let colorRgb := Worker.hexToRgb color in
      let data := sync_of colorRgb threshold width height data in
      Returned (putImageData ctx (MkImageData width height data)) []
  end.

End Fallback.

(** ** The worker revision (the third [processFrame])

    The call and the handlers it installs run at different times, so each
    is a function of its own: [processFrame] gives the message it posts,
    [worker_onmessage] is the handler in the worker, [onmessage] and
    [onerror] are the handlers of the page. The canvases of the page are
    told apart by identity, since the handlers keep the context of the
    call that created the worker. *)

Module Async.
Import JS.

(** What the handlers of the worker captured when it was created: the
    context of the canvas of that call, its colour and its threshold. *)
Record Handle : Type := MkHandle {
  handle_ctx : nat;
  handle_color : string;
  handle_threshold : number
}.

(** The variables of the module. *)
Record State : Type := MkState {
  worker : option Handle;
  lastVideoWidth : nat;
  lastVideoHeight : nat
}.

(** A message to the worker. *)
Record Request : Type := MkRequest {
  request_imageData : ImageData;
  request_threshold : number;
  request_color : string
}.

(** The canvases of the page, by identity. *)
Definition Canvases : Type := nat -> Canvas.

Definition set_canvas (page : Canvases) (id : nat) (c : Canvas) : Canvases :=
  fun id' => if (id' =? id)%nat then c else page id'.

(** How a call ends. *)
Record Result : Type := MkResult {
  result_state : State;
  result_page : Canvases;
  result_console : list string;
  (** the message posted to the worker *)
  result_posted : option Request;
  (** the exception that leaves the call *)
  result_thrown : option string
}.

(** [processSynchronously] on a canvas of the page, after [console] was
    written. *)
Definition fall_back (st : State) (page : Canvases) (id : nat)
    (videoElement : Video) (color : string) (threshold : number)
    (console : list string) : Result :=
  match Fallback.processSynchronously (page id) videoElement color threshold with
  | Returned c log =>
      MkResult st (set_canvas page id c) (console ++ log) None None
  | Thrown c exception =>
      MkResult st (set_canvas page id c) console None (Some exception)
  end.

(** [processFrame]; [workers] tells whether the page can create a worker
    from a blob. *)
Definition processFrame (workers : bool) (st : State) (page : Canvases)
    (videoElement : Video) (canvasElement : nat) (color : string)
    (threshold : number) (enabled : bool) : Result :=
  if negb enabled then
    MkResult st
      (set_canvas page canvasElement
         (if canvas_context2d (page canvasElement)
          then clearRect (page canvasElement) else page canvasElement))
      [] None None
  else
    let c := page canvasElement in
    let c :=
      if negb (canvas_width c =? videoWidth videoElement)%nat
         || negb (canvas_height c =? videoHeight videoElement)%nat
      then resize c (videoWidth videoElement) (videoHeight videoElement)
      else c in
    let page := set_canvas page canvasElement c in
    if negb (canvas_context2d c) then MkResult st page [] None None
    else
      match
        match worker st with
        | Some handle => Some st
        | None =>
            if workers
            then Some (MkState (Some (MkHandle canvasElement color threshold))
                         (lastVideoWidth st) (lastVideoHeight st))
            else None
        end
      with
      | None =>
          fall_back st page canvasElement videoElement color threshold
            ["Error creating web worker:"%string]
      | Some st =>
          let st :=
            if negb (lastVideoWidth st =? videoWidth videoElement)%nat
               || negb (lastVideoHeight st =? videoHeight videoElement)%nat
            then MkState (worker st) (videoWidth videoElement)
                   (videoHeight videoElement)
            else st in
          (* Draw the current video frame to the canvas *)
          let c := drawImage c videoElement in
          let page := set_canvas page canvasElement c in
          match getImageData c with
          | Some imageData =>
              MkResult st page [] (Some (MkRequest imageData threshold color)) None
          | None =>
              fall_back st page canvasElement videoElement color threshold
                ["Error processing video frame:"%string]
          end
      end.

(** The handler of the worker: [self.onmessage]. *)
Definition worker_onmessage (request : Request) : ImageData :=
  Worker.applyFocusPeaking (request_imageData request)
    (request_threshold request) (request_color request).

(** The handler of the page for a reply of the worker: it draws on the
    canvas of the call that created the worker. *)
Definition onmessage (st : State) (page : Canvases) (imageData : ImageData)
    : Canvases :=
  match worker st with
  | Some handle =>
      set_canvas page (handle_ctx handle)
        (putImageData_clipped (page (handle_ctx handle)) imageData)
  | None => page
  end.

(** The handler of the page for an error of the worker; [videoElement] is
    the video of the call that created the worker, as it is by then. *)
Definition onerror (st : State) (page : Canvases) (videoElement : Video)
    : Result :=
  match worker st with
  | Some handle =>
      fall_back st page (handle_ctx handle) videoElement (handle_color handle)
        (handle_threshold handle) ["Web Worker error:"%string]
  | None => MkResult st page [] None None
  end.

End Async.

(** ** Reading an image *)

(** The byte of channel [c] (0 to 3: R, G, B, A) of the pixel at column
    [x] of row [y], in a bitmap of width [w]. *)
Definition channel (bitmap : list Z) (w x y c : nat) : option Z :=
  bitmap !! ((y * w + x) * 4 + c)%nat.

Definition alpha (bitmap : list Z) (w x y : nat) : option Z :=
  channel bitmap w x y 3.

(** A pixel within the kernel radius, 1, of the boundary of the image. *)
Definition border (w h x y : nat) : Prop :=
  x = 0%nat \/ y = 0%nat \/ x = (w - 1)%nat \/ y = (h - 1)%nat.

(** A pixel with its four neighbours inside the image. *)
Definition interior (w h x y : nat) : Prop :=
  (1 <= x < w - 1)%nat /\ (1 <= y < h - 1)%nat.

(** The page can draw: both canvases give a 2D context and the video has
    a frame of a positive size. *)
Definition drawable (document : Document) (v : Video) (c : Canvas) : Prop :=
  canvas_context2d c = true /\ offscreen_context2d document = true /\
  (0 < videoWidth v)%nat /\ (0 < videoHeight v)%nat.

(** * The vocabulary of the statements *)

(** ** Loops of array writes *)

(** The step leaves index [j] as it is. *)
Definition keeps {A : Type} (j : nat) (step : list A -> list A) : Prop :=
  forall o, step o !! j = o !! j.

(** What the step leaves at index [j] depends on the array at [j] only. *)
Definition local {A : Type} (j : nat) (step : list A -> list A) : Prop :=
  forall o o', o !! j = o' !! j -> step o !! j = step o' !! j.

(** Two nested loops, rows then columns. *)
Definition loop2 {A : Type} (ylo yhi xlo xhi : nat)
    (body : nat -> nat -> list A -> list A) (o : list A) : list A :=
  for_loop ylo yhi (fun y o => for_loop xlo xhi (fun x o => body y x o) o) o.

(** ** What an enabled call draws *)

(** The bitmap an enabled call draws for the frame of a video. *)
Definition overlay (v : Video) (color : string) (threshold intensity : JS.number)
    : list Z :=
  Outline.outline_of
    (Outline.grayscale_of (video_frame v) (videoWidth v) (videoHeight v))
    (videoWidth v) (videoHeight v) (Outline.hexToRgb color) threshold intensity.

(** The canvas once its size is that of the video. *)
Definition fitted (v : Video) (c : Canvas) : Canvas :=
  if negb (canvas_width c =? videoWidth v)%nat
     || negb (canvas_height c =? videoHeight v)%nat
  then resize c (videoWidth v) (videoHeight v)
  else c.

(** The enabled path on a canvas of the size of the video. *)
Definition draw (st : ModuleState) (document : Document) (v : Video)
    (k : Canvas) (color : string) (threshold intensity : JS.number)
    : ModuleState * Outcome :=
  if negb (canvas_context2d k) then
    (st, Returned k ["Failed to get canvas context"%string])
  else
    if negb (offscreen_context2d document) then
      (st, Returned (clearRect k)
             ["Failed to get offscreen canvas context"%string])
    else
      match capture v (canvas_width k) (canvas_height k) with
      | None => (st, Thrown (clearRect k) "IndexSizeError"%string)
      | Some imageData =>
          (st, Returned
                 (putImageData (clearRect k)
                    (MkImageData (canvas_width k) (canvas_height k)
                       (Outline.outline_of
                          (Outline.grayscale_of (image_data imageData)
                             (canvas_width k) (canvas_height k))
                          (canvas_width k) (canvas_height k)
                          (Outline.hexToRgb color) threshold intensity))) [])
      end.

(** ** Colour strings, in the words of the specification *)

(** A hexadecimal digit, in either case. *)
Definition is_hex_digit (c : ascii) : bool :=
  let n := nat_of_ascii c in
  ((48 <=? n) && (n <=? 57) || (97 <=? n) && (n <=? 102)
   || (65 <=? n) && (n <=? 70))%nat.

(** The value of a hexadecimal digit. *)
Definition hex_digit_value (c : ascii) : Z :=
  let n := Z.of_nat (nat_of_ascii c) in
  if n <=? 57 then n - 48 else if n <=? 70 then n - 55 else n - 87.

(** The byte two hexadecimal digits denote. *)
Definition hex_byte (hi lo : ascii) : Z :=
  16 * hex_digit_value hi + hex_digit_value lo.

(** Six hexadecimal digits: the three bytes they denote. *)
Definition six_hex_digits (s : list ascii) : option (Z * Z * Z) :=
  match s with
  | [r1; r2; g1; g2; b1; b2] =>
      if forallb is_hex_digit s
      then Some (hex_byte r1 r2, hex_byte g1 g2, hex_byte b1 b2)
      else None
  | _ => None
  end.

(** Six hexadecimal digits, optionally preceded by [#]. *)
Definition parse_color (s : string) : option (Z * Z * Z) :=
  match String.list_ascii_of_string s with
  | c :: t =>
      if Ascii.eqb c "#" then six_hex_digits t else six_hex_digits (c :: t)
  | [] => None
  end.

(** Three bytes as a colour. *)
Definition rgb_of_bytes (c : Z * Z * Z) : Rgb.t :=
  let '(r, g, b) := c in Rgb.Mk (JS.of_Z r) (JS.of_Z g) (JS.of_Z b).

(** Equality of numbers as data. *)
Definition number_eqb (x y : JS.number) : bool :=
  match x, y with
  | S754_zero s, S754_zero s' => Bool.eqb s s'
  | S754_infinity s, S754_infinity s' => Bool.eqb s s'
  | S754_nan, S754_nan => true
  | S754_finite s m e, S754_finite s' m' e' =>
      Bool.eqb s s' && (m =? m')%positive && (e =? e')
  | _, _ => false
  end.

(** Every character, by its code. *)
Definition all_chars (p : ascii -> bool) : bool :=
  forallb (fun n => p (ascii_of_nat n)) (seq 0 256).

(** The captures of a match: three pairs of hexadecimal digits. *)
Definition six_captures (l : list ascii) : option (list (list ascii)) :=
  match l with
  | [r1; r2; g1; g2; b1; b2] =>
      if forallb is_hex_digit l then Some [[r1; r2]; [g1; g2]; [b1; b2]] else None
  | _ => None
  end.

(** Pure red. *)
Definition red : Rgb.t := Rgb.Mk JS.lit_255 JS.lit_0 JS.lit_0.

(** The default colour of the worker revision, [#FF4A4A]. *)
Definition light_red : Rgb.t := Rgb.Mk JS.lit_255 Worker.lit_74 Worker.lit_74.

(** ** A sample page *)

Definition sample_state : ModuleState := MkModuleState 0 0.
Definition sample_document : Document := MkDocument true.
Definition sample_canvas : Canvas := MkCanvas 300 150 (transparent 300 150) true.

(** A gray pixel. *)
Definition gray_pixel (v : Z) : list Z := [v; v; v; 255].

(** A frame of 3 by 3 pixels, black with a column of gray 70 on the right. *)
Definition sample_video : Video :=
  MkVideo 3 3
    (gray_pixel 0 ++ gray_pixel 0 ++ gray_pixel 70 ++
     gray_pixel 0 ++ gray_pixel 0 ++ gray_pixel 70 ++
     gray_pixel 0 ++ gray_pixel 0 ++ gray_pixel 70).

(** * Binary64 numbers by their values

    The library computes a rounding by shifting the mantissa and keeping
    a round bit and a sticky bit. The definitions below state the result
    in closed form, as an integer multiple of 2^-1074, so that the order
    of numbers is the order of integers. *)

(** The shift record of [M], [n] bits to the right. *)
Definition represents (M n : Z) (mrs : shr_record) : Prop :=
  shr_m mrs = M / 2 ^ n
  /\ shr_r mrs = (0 <? n) && Z.testbit M (n - 1)
  /\ shr_s mrs = (0 <? n) && negb (M mod 2 ^ (n - 1) =? 0).

(** Round to nearest, ties to even, of [M / 2^n]. *)
Definition rne (M n : Z) : Z :=
  if n <=? 0 then M
  else
    let q := M / 2 ^ n in
    let r := M mod 2 ^ n in
    if 2 * r <? 2 ^ n then q
    else if 2 ^ n <? 2 * r then q + 1
    else if Z.even q then q else q + 1.

(** A mantissa rounded up to 2^53 moves to the next exponent. *)
Definition carry (q e : Z) : Z * Z :=
  if q =? 2 ^ 53 then (2 ^ 52, e + 1) else (q, e).

(** The number of a sign, a mantissa and an exponent, with overflow. *)
Definition build (s : bool) (me : Z * Z) : spec_float :=
  match fst me with
  | 0 => S754_zero s
  | Z.pos m => if snd me <=? 971 then S754_finite s m (snd me) else S754_infinity s
  | Z.neg _ => S754_nan
  end.

(** Rounding of [M * 2^-n] to an integer: exact when [n <= 0]. *)
Definition rnd (M n : Z) : Z :=
  if n <=? 0 then M * 2 ^ (- n) else rne M n.

(** The target exponent of a positive value [M * 2^e]. *)
Definition target (M e : Z) : Z := fexp 53 1024 (Zdigits2 M + e).

(** The rounding of [M * 2^e], as a mantissa and an exponent. *)
Definition round_pair (M e : Z) : Z * Z :=
  carry (rnd M (target M e - e)) (target M e).

(** The value that stands for an infinity: above every finite value. *)
Definition huge : Z := 2 ^ 2100.

(** The magnitude [m * 2^e] in units of 2^-1074. *)
Definition mag (m : positive) (e : Z) : Z := Z.pos m * 2 ^ (e + 1074).

(** The value of a number in units of 2^-1074 (0 for NaN). *)
Definition val (x : spec_float) : Z :=
  match x with
  | S754_zero _ => 0
  | S754_finite s m e => if s then - mag m e else mag m e
  | S754_infinity s => if s then - huge else huge
  | S754_nan => 0
  end.

(** Not a number. *)
Definition is_nan (x : spec_float) : bool :=
  match x with S754_nan => true | _ => false end.

(** The value of the rounding of [M * 2^e], before the overflow test. *)
Definition raw (M e : Z) : Z :=
  rnd M (target M e - e) * 2 ^ (target M e + 1074).

(** Overflow: a value of 2^1024 or more becomes an infinity. *)
Definition cap (v : Z) : Z := if v <? 2 ^ 2098 then v else huge.

(** The rounding of a signed integer [V] counted in units of [2^e]. *)
Definition rz0 (V e : Z) : Z :=
  if V =? 0 then 0
  else if 0 <? V then cap (raw V e) else - cap (raw (- V) e).

(** Neither NaN nor an infinity. *)
Definition finite_or_zero (x : spec_float) : bool :=
  match x with
  | S754_zero _ | S754_finite _ _ _ => true
  | _ => false
  end.

(** A binary64 value. *)
Definition is_number (x : JS.number) : Prop := valid_binary 53 1024 x = true.

(** Two binary64 values, neither NaN, the first at most the second. *)
Definition ordered (x y : JS.number) : Prop :=
  is_number x /\ is_number y /\ is_nan x = false /\ is_nan y = false
  /\ val x <= val y.

(** ** The shading of a pixel *)

(** The alpha the edge detection stores for a gradient magnitude, and 0
    where the magnitude does not exceed the threshold. *)
Definition alpha_of (magnitude threshold intensity : JS.number) : Z :=
  if JS.gt magnitude threshold then
    JS.ToUint8Clamp
      (JS.Math_min JS.lit_255
         (JS.mul
            (JS.Math_min JS.lit_255
               (JS.mul (JS.sub magnitude threshold) JS.lit_2))
            intensity))
  else 0.

(** A number whose sign bit is clear: +0, a positive number or +infinity. *)
Definition plus_signed (x : JS.number) : bool :=
  match x with
  | S754_zero false | S754_finite false _ _ | S754_infinity false => true
  | _ => false
  end.

(** The edge strength of an edge pixel: a number from 0 to 255. *)
Definition edgeStrength (magnitude threshold : JS.number) : JS.number :=
  JS.Math_min JS.lit_255 (JS.mul (JS.sub magnitude threshold) JS.lit_2).

(** [clamp(lo, hi, x)] of the specification. *)
Definition clamp (lo hi x : JS.number) : JS.number :=
  JS.Math_max lo (JS.Math_min hi x).

(** The luminance byte the grayscale buffer holds for a pixel. *)
Definition luminance_byte (data : list Z) (w x y : nat) : Z :=
  JS.ToUint8 (Outline.luminance data ((y * w + x) * 4)).

(** A number between [lo] and [hi] counted in units of 2^-30. *)
Definition within (x : JS.number) (lo hi : Z) : Prop :=
  is_number x /\ is_nan x = false /\ lo * 2 ^ 1044 <= val x <= hi * 2 ^ 1044.

(** The weights of the source in units of 2^-30, rounded down. *)
Definition q_299 : Z := 321048805.
Definition q_587 : Z := 630286450.
Definition q_114 : Z := 122406567.

(** The weighted sum of a pixel, before [Math.round]. *)
Definition weighted_sum (data : list Z) (idx : nat) : JS.number :=
  JS.add (JS.add (JS.mul (JS.read data idx) JS.lit_0_299)
                 (JS.mul (JS.read data (idx + 1)) JS.lit_0_587))
         (JS.mul (JS.read data (idx + 2)) JS.lit_0_114).

(** The gradient magnitude [processFrame] computes at a pixel of the frame. *)
Definition magnitude_at (v : Video) (x y : nat) : JS.number :=
  Outline.edgeResponse
    (Outline.grayscale_of (video_frame v) (videoWidth v) (videoHeight v))
    (videoWidth v) x y.

(** The bitmap [processFrame] leaves on the canvas when enabled. *)
Definition drawn (st : ModuleState) (document : Document) (v : Video)
    (c : Canvas) (color : string) (threshold intensity : JS.number)
    (mode : string) : list Z :=
  canvas_bitmap
    (outcome_canvas
       (snd (Outline.processFrame st document v c color threshold true
               intensity mode))).

(** [interior], decided. *)
Definition interiorb (w h x y : nat) : bool :=
  ((1 <=? x) && (x <? w - 1) && (1 <=? y) && (y <? h - 1))%nat.

(** The pixel of index [p], in row-major order, has a positive alpha. *)
Definition opaque (bitmap : list Z) (p : nat) : bool :=
  match bitmap !! (p * 4 + 3)%nat with
  | Some a => 0 <? a
  | None => false
  end.

(** The number of pixels of a [width] by [height] bitmap with alpha > 0. *)
Definition count_opaque (bitmap : list Z) (width height : nat) : nat :=
  length (List.filter (opaque bitmap) (seq 0 (width * height))).

(** * The vocabulary of the other revisions *)

(** The number [x] is the integer [z]; either zero stands for 0. *)
Definition integer (x : JS.number) (z : Z) : Prop :=
  is_number x /\ is_nan x = false /\ finite_or_zero x = true
  /\ val x = z * 2 ^ 1074.

(** An image as [getImageData] gives it: four bytes a pixel. *)
Definition well_formed (imageData : ImageData) : Prop :=
  length (image_data imageData)
  = (image_width imageData * image_height imageData * 4)%nat
  /\ Forall (fun b => 0 <= b <= 255) (image_data imageData).

(** The horizontal and the vertical Sobel sums of a grid of integers. *)
Definition sobel_gx (lum : nat -> nat -> Z) (x y : nat) : Z :=
  - lum (x - 1)%nat (y - 1)%nat - 2 * lum (x - 1)%nat y - lum (x - 1)%nat (y + 1)%nat
  + lum (x + 1)%nat (y - 1)%nat + 2 * lum (x + 1)%nat y + lum (x + 1)%nat (y + 1)%nat.

Definition sobel_gy (lum : nat -> nat -> Z) (x y : nat) : Z :=
  - lum (x - 1)%nat (y - 1)%nat - 2 * lum x (y - 1)%nat - lum (x + 1)%nat (y - 1)%nat
  + lum (x - 1)%nat (y + 1)%nat + 2 * lum x (y + 1)%nat + lum (x + 1)%nat (y + 1)%nat.

(** The frame of a video as an image. *)
Definition frame_of (v : Video) : ImageData :=
  MkImageData (videoWidth v) (videoHeight v) (video_frame v).


(** Every pixel of the [w] by [h] image has the colour (R, G, B). *)
Definition uniform (data : list Z) (w h : nat) (R G B : Z) : Prop :=
  forall x y : nat, (x < w)%nat -> (y < h)%nat ->
    data !! ((y * w + x) * 4)%nat = Some R
    /\ data !! ((y * w + x) * 4 + 1)%nat = Some G
    /\ data !! ((y * w + x) * 4 + 2)%nat = Some B.

(** An ASCII letter in upper case; any other character as it is. *)
Definition upper (c : ascii) : ascii :=
  let n := nat_of_ascii c in
  if ((97 <=? n) && (n <=? 122))%nat then ascii_of_nat (n - 32) else c.

(** Two strings that differ in the case of ASCII letters only. *)
Definition same_letters (s s' : string) : Prop :=
  map upper (String.list_ascii_of_string s)
  = map upper (String.list_ascii_of_string s').

(** The colour string as a list of characters. *)
Definition parse_chars (l : list ascii) : option (Z * Z * Z) :=
  match l with
  | c :: t => if Ascii.eqb c "#" then six_hex_digits t else six_hex_digits (c :: t)
  | [] => None
  end.

(** A call of the third [processFrame]. *)
Record Call : Type := MkCall {
  call_video : Video;
  call_canvas : nat;
  call_color : string;
  call_threshold : JS.number;
  call_enabled : bool
}.

(** Calls one after the other; what a call leaves is what the next finds. *)
Definition calls (workers : bool) (st : Async.State) (page : Async.Canvases)
    (l : list Call) : Async.State * Async.Canvases :=
  fold_left
    (fun s k =>
       let r := Async.processFrame workers (fst s) (snd s) (call_video k)
                  (call_canvas k) (call_color k) (call_threshold k)
                  (call_enabled k) in
       (Async.result_state r, Async.result_page r))
    l (st, page).

(** A page of one canvas. *)
Definition sample_page : Async.Canvases := fun _ => sample_canvas.

(** The canvas of a call once it has the size of the video. *)
Definition sized (c : Canvas) (v : Video) : Canvas :=
  if negb (canvas_width c =? videoWidth v)%nat
     || negb (canvas_height c =? videoHeight v)%nat
  then resize c (videoWidth v) (videoHeight v)
  else c.

(** The state a call leaves when it goes through the worker. *)
Definition posted_state (st : Async.State) (v : Video) (id : nat)
    (color : string) (threshold : JS.number) : Async.State :=
  let st :=
    match Async.worker st with
    | Some _ => st
    | None => Async.MkState (Some (Async.MkHandle id color threshold))
                (Async.lastVideoWidth st) (Async.lastVideoHeight st)
    end in
  if negb (Async.lastVideoWidth st =? videoWidth v)%nat
     || negb (Async.lastVideoHeight st =? videoHeight v)%nat
  then Async.MkState (Async.worker st) (videoWidth v) (videoHeight v)
  else st.

(** A frame of 3 by 3 pixels of one gray. *)
Definition flat_video : Video :=
  MkVideo 3 3
    (gray_pixel 70 ++ gray_pixel 70 ++ gray_pixel 70 ++
     gray_pixel 70 ++ gray_pixel 70 ++ gray_pixel 70 ++
     gray_pixel 70 ++ gray_pixel 70 ++ gray_pixel 70).

(** The variables of the worker revision when the module is loaded. *)
Definition sample_worker_state : Async.State := Async.MkState None 0 0.

(** * The buffers and the canvas *)

(** ** What a loop of array writes leaves at one index *)

Section LoopLookup.
Context {A : Type}.
Variable j : nat.

Lemma keeps_local (step : list A -> list A) : keeps j step -> local j step.
Proof. intros K o o' E. rewrite !K. exact E. Qed.

Lemma fold_keeps (body : nat -> list A -> list A) (l : list nat) :
  (forall i, i ∈ l -> keeps j (body i)) ->
  keeps j (fun o => fold_left (fun s i => body i s) l o).
Proof.
  induction l as [|i l IH]; intros K o; simpl; [reflexivity|].
  rewrite IH.
  - apply K. left.
  - intros i' Hi'. apply K. right. exact Hi'.
Qed.

Lemma fold_local (body : nat -> list A -> list A) (l : list nat) :
  (forall i, i ∈ l -> local j (body i)) ->
  local j (fun o => fold_left (fun s i => body i s) l o).
Proof.
  induction l as [|i l IH]; intros L o o' E; simpl; [exact E|].
  apply IH.
  - intros i' Hi'. apply L. right. exact Hi'.
  - apply L; [left|exact E].
Qed.

Lemma fold_hit (body : nat -> list A -> list A) (l : list nat) (i : nat) o :
  NoDup l -> i ∈ l ->
  (forall i', i' ∈ l -> i' ≠ i -> keeps j (body i')) ->
  local j (body i) ->
  fold_left (fun s i => body i s) l o !! j = body i o !! j.
Proof.
  intros ND. revert o.
  induction ND as [|i0 l Hnotin ND IH]; intros o Hin K L.
  - inversion Hin.
  - simpl. apply elem_of_cons in Hin as [->|Hin].
    + apply (fold_keeps body l).
      intros i' Hi'. apply K; [right; exact Hi'|].
      intros ->. exact (Hnotin Hi').
    + rewrite IH; [|exact Hin| |exact L].
      * apply L. apply K; [left|]. intros ->. exact (Hnotin Hin).
      * intros i' Hi' Hne. apply K; [right; exact Hi'|exact Hne].
Qed.

Lemma elem_of_range (from to i : nat) :
  i ∈ seq from (to - from) <-> (from <= i < to)%nat.
Proof. rewrite elem_of_seq. lia. Qed.

Lemma for_loop_keeps (body : nat -> list A -> list A) from to :
  (forall i, (from <= i < to)%nat -> keeps j (body i)) ->
  keeps j (for_loop from to body).
Proof.
  intros K. apply fold_keeps. intros i Hi. apply K, elem_of_range, Hi.
Qed.

Lemma for_loop_local (body : nat -> list A -> list A) from to :
  (forall i, (from <= i < to)%nat -> local j (body i)) ->
  local j (for_loop from to body).
Proof.
  intros L. apply fold_local. intros i Hi. apply L, elem_of_range, Hi.
Qed.

Lemma for_loop_hit (body : nat -> list A -> list A) from to i o :
  (from <= i < to)%nat ->
  (forall i', (from <= i' < to)%nat -> i' ≠ i -> keeps j (body i')) ->
  local j (body i) ->
  for_loop from to body o !! j = body i o !! j.
Proof.
  intros Hi K L. apply fold_hit; [apply NoDup_seq|apply elem_of_range, Hi| |exact L].
  intros i' Hi'. apply K, elem_of_range, Hi'.
Qed.

Lemma loop2_keeps ylo yhi xlo xhi (body : nat -> nat -> list A -> list A) :
  (forall y x, (ylo <= y < yhi)%nat -> (xlo <= x < xhi)%nat -> keeps j (body y x)) ->
  keeps j (loop2 ylo yhi xlo xhi body).
Proof.
  intros K. apply for_loop_keeps. intros y Hy.
  apply (for_loop_keeps (fun x o => body y x o)). intros x Hx. apply K; assumption.
Qed.

Lemma loop2_hit ylo yhi xlo xhi (body : nat -> nat -> list A -> list A) y x o :
  (ylo <= y < yhi)%nat -> (xlo <= x < xhi)%nat ->
  (forall y' x', (ylo <= y' < yhi)%nat -> (xlo <= x' < xhi)%nat ->
                 (y', x') ≠ (y, x) -> keeps j (body y' x')) ->
  local j (body y x) ->
  loop2 ylo yhi xlo xhi body o !! j = body y x o !! j.
Proof.
  intros Hy Hx K L. unfold loop2.
  rewrite (for_loop_hit _ ylo yhi y o Hy).
  - apply (for_loop_hit (fun x o => body y x o) xlo xhi x o Hx); [|exact L].
    intros x' Hx' Hne. apply K; [exact Hy|exact Hx'|congruence].
  - intros y' Hy' Hne.
    apply (for_loop_keeps (fun x o => body y' x o)). intros x' Hx'.
    apply K; [exact Hy'|exact Hx'|congruence].
  - apply (for_loop_local (fun x o => body y x o)). intros x' Hx'.
    destruct (decide (x' = x)) as [->|Hne]; [exact L|].
    apply keeps_local, K; [exact Hy|exact Hx'|congruence].
Qed.
End LoopLookup.

(** ** The buffers of the outline revision, index by index *)

Lemma insert_local {A : Type} (j i : nat) (v : A) :
  local j (fun o => <[i:=v]> o).
Proof.
  intros o o' E. destruct (decide (i = j)) as [->|Hne].
  - destruct (o !! j) as [a|] eqn:Ho.
    + rewrite !list_lookup_insert_eq; [reflexivity| |].
      * apply lookup_lt_is_Some. rewrite <- E. eauto.
      * apply lookup_lt_is_Some. eauto.
    + rewrite !list_insert_ge; [congruence| |].
      * apply lookup_ge_None. congruence.
      * apply lookup_ge_None. exact Ho.
  - rewrite !list_lookup_insert_ne by exact Hne. exact E.
Qed.

Lemma insert_keeps {A : Type} (j i : nat) (v : A) :
  i ≠ j -> keeps j (fun o => <[i:=v]> o).
Proof. intros Hne o. apply list_lookup_insert_ne, Hne. Qed.

Lemma pixel_index_inj (w x y x' y' : nat) :
  (x < w)%nat -> (x' < w)%nat -> (y * w + x = y' * w + x')%nat ->
  y = y' /\ x = x'.
Proof.
  intros Hx Hx' E.
  assert (y = y') as ->.
  { assert (((y * w + x) `div` w = y)%nat) as Hy.
    { rewrite Nat.div_add_l by lia. rewrite Nat.div_small by lia. lia. }
    assert (((y' * w + x') `div` w = y')%nat) as Hy'.
    { rewrite Nat.div_add_l by lia. rewrite Nat.div_small by lia. lia. }
    congruence. }
  split; [reflexivity|lia].
Qed.

Lemma pixel_index_lt (w h x y : nat) :
  (x < w)%nat -> (y < h)%nat -> (y * w + x < w * h)%nat.
Proof. intros Hx Hy. nia. Qed.

Lemma transparent_lookup (w h j : nat) :
  (j < w * h * 4)%nat -> transparent w h !! j = Some 0.
Proof. intros Hj. apply lookup_replicate_2, Hj. Qed.

Lemma grayscale_of_lookup (data : list Z) (w h x y : nat) :
  (x < w)%nat -> (y < h)%nat ->
  Outline.grayscale_of data w h !! (y * w + x)%nat
  = Some (JS.ToUint8 (Outline.luminance data ((y * w + x) * 4))).
Proof.
  intros Hx Hy. unfold Outline.grayscale_of.
  change (for_loop 0 h _ ?o) with
    (loop2 0 h 0 w
       (fun y x gray =>
          <[(y * w + x)%nat :=
              JS.ToUint8 (Outline.luminance data ((y * w + x) * 4))]> gray) o).
  rewrite (loop2_hit _ 0 h 0 w _ y x); [|lia|lia| |apply insert_local].
  2:{ intros y' x' Hy' Hx' Hne. apply insert_keeps. intros E.
      apply pixel_index_inj in E as [-> ->]; [congruence|lia|lia]. }
  apply list_lookup_insert_eq. rewrite length_replicate.
  apply pixel_index_lt; assumption.
Qed.

Lemma outline_pixel_local gray w col t i y x (j : nat) :
  local j (Outline.outline_pixel gray w col t i y x).
Proof.
  unfold Outline.outline_pixel. destruct (JS.gt _ t); [|intros o o' E; exact E].
  intros o o' E. do 4 apply insert_local. exact E.
Qed.

Lemma outline_pixel_keeps gray w col t i y x (j : nat) :
  (j `div` 4 ≠ y * w + x)%nat ->
  keeps j (Outline.outline_pixel gray w col t i y x).
Proof.
  intros Hne o. unfold Outline.outline_pixel.
  destruct (JS.gt _ t); [|reflexivity].
  assert (forall c, (c < 4)%nat -> ((y * w + x) * 4 + c)%nat ≠ j) as Hc.
  { intros c Hc <-. apply Hne.
    rewrite Nat.add_comm, Nat.div_add by lia. rewrite Nat.div_small by lia. lia. }
  rewrite !list_lookup_insert_ne; [reflexivity|..].
  - rewrite <- (Nat.add_0_r (_ * 4)). apply Hc. lia.
  - apply Hc. lia.
  - apply Hc. lia.
  - apply Hc. lia.
Qed.

Lemma channel_div (p c : nat) : (c < 4)%nat -> ((p * 4 + c) `div` 4 = p)%nat.
Proof.
  intros Hc. rewrite Nat.add_comm, Nat.div_add by lia.
  rewrite Nat.div_small by lia. lia.
Qed.

(** An interior pixel holds what the loop body wrote on the fresh image. *)
Lemma outline_of_interior gray (w h : nat) col t i (x y c : nat) :
  (1 <= x < w - 1)%nat -> (1 <= y < h - 1)%nat -> (c < 4)%nat ->
  Outline.outline_of gray w h col t i !! ((y * w + x) * 4 + c)%nat
  = Outline.outline_pixel gray w col t i y x (transparent w h)
      !! ((y * w + x) * 4 + c)%nat.
Proof.
  intros Hx Hy Hc. unfold Outline.outline_of.
  change (for_loop 1 (h - 1) _ ?o) with
    (loop2 1 (h - 1) 1 (w - 1)
       (fun y x out => Outline.outline_pixel gray w col t i y x out) o).
  apply (loop2_hit _ 1 (h - 1) 1 (w - 1) _ y x); [exact Hy|exact Hx| |].
  - intros y' x' Hy' Hx' Hne. apply outline_pixel_keeps.
    rewrite channel_div by exact Hc. intros E.
    apply pixel_index_inj in E as [-> ->]; [congruence|lia|lia].
  - apply outline_pixel_local.
Qed.

(** A pixel of the first or last row or column is left transparent. *)
Lemma outline_of_border gray (w h : nat) col t i (x y c : nat) :
  (x < w)%nat -> (y < h)%nat -> (c < 4)%nat ->
  ~ ((1 <= x < w - 1)%nat /\ (1 <= y < h - 1)%nat) ->
  Outline.outline_of gray w h col t i !! ((y * w + x) * 4 + c)%nat = Some 0.
Proof.
  intros Hx Hy Hc Hb. unfold Outline.outline_of.
  change (for_loop 1 (h - 1) _ ?o) with
    (loop2 1 (h - 1) 1 (w - 1)
       (fun y x out => Outline.outline_pixel gray w col t i y x out) o).
  rewrite (loop2_keeps _ 1 (h - 1) 1 (w - 1)).
  - apply transparent_lookup. pose proof (pixel_index_lt w h x y Hx Hy). lia.
  - intros y' x' Hy' Hx'. apply outline_pixel_keeps.
    rewrite channel_div by exact Hc. intros E.
    apply pixel_index_inj in E as [-> ->]; [|lia|lia]. apply Hb. lia.
Qed.

(** ** What [processFrame] leaves on the canvas *)

Lemma capture_positive (v : Video) (w h : nat) :
  (0 < w)%nat -> (0 < h)%nat ->
  capture v w h = Some (MkImageData w h (video_frame v)).
Proof.
  intros Hw Hh. unfold capture.
  destruct w; [lia|]. destruct h; [lia|]. reflexivity.
Qed.

Lemma processFrame_enabled st document v c color threshold intensity mode :
  drawable document v c ->
  Outline.processFrame st document v c color threshold true intensity mode
  = (st, Returned
           (MkCanvas (videoWidth v) (videoHeight v)
              (overlay v color threshold intensity) true) []).
Proof.
  intros (Hctx & Hoff & Hw & Hh). unfold Outline.processFrame. simpl negb.
  cbv iota.
  destruct c as [cw ch bm ctx]. simpl in Hctx. subst ctx.
  cbn [canvas_width canvas_height].
  destruct (negb (cw =? videoWidth v)%nat || negb (ch =? videoHeight v)%nat)
    eqn:Hsize; simpl.
  - rewrite Hoff. simpl. rewrite capture_positive by assumption. reflexivity.
  - apply orb_false_elim in Hsize as [H1 H2].
    apply negb_false_iff, Nat.eqb_eq in H1, H2. subst cw ch.
    rewrite Hoff. simpl. rewrite capture_positive by assumption. reflexivity.
Qed.

Lemma border_not_interior (w h x y : nat) :
  border w h x y -> ~ interior w h x y.
Proof. unfold border, interior. lia. Qed.

Lemma for_loop_length {A : Type} (body : nat -> list A -> list A) from to o :
  (forall i o, length (body i o) = length o) ->
  length (for_loop from to body o) = length o.
Proof.
  intros Hb. unfold for_loop. generalize (seq from (to - from)). intros l.
  revert o. induction l as [|i l IH]; intros o; simpl; [reflexivity|].
  rewrite IH. apply Hb.
Qed.

Lemma peak_pixel_length data gray w col t y x o :
  length (Worker.peak_pixel data gray w col t y x o) = length o.
Proof.
  unfold Worker.peak_pixel. destruct (JS.gt _ t); rewrite !length_insert; reflexivity.
Qed.

Lemma border_pixel_local w h y x (j : nat) :
  local j (Worker.border_pixel w h y x).
Proof.
  unfold Worker.border_pixel.
  destruct (_ || _)%bool; [apply insert_local|intros o o' E; exact E].
Qed.

Lemma border_pixel_keeps w h y x (j : nat) :
  (j `div` 4 ≠ y * w + x)%nat -> keeps j (Worker.border_pixel w h y x).
Proof.
  intros Hne o. unfold Worker.border_pixel.
  destruct (_ || _)%bool; [|reflexivity].
  apply list_lookup_insert_ne. intros <-. apply Hne, channel_div. lia.
Qed.

Lemma border_test (w h x y : nat) :
  border w h x y ->
  ((y =? 0) || (y =? h - 1) || (x =? 0) || (x =? w - 1))%nat = true.
Proof.
  intros [-> | [-> | [-> | ->]]]; rewrite ?Nat.eqb_refl, ?orb_true_r; reflexivity.
Qed.

(** The worker's image has a transparent border. *)
Lemma applyFocusPeaking_border (imageData : ImageData) threshold colorHex
    (x y : nat) :
  (x < image_width imageData)%nat -> (y < image_height imageData)%nat ->
  border (image_width imageData) (image_height imageData) x y ->
  alpha (image_data (Worker.applyFocusPeaking imageData threshold colorHex))
    (image_width imageData) x y = Some 0.
Proof.
  intros Hx Hy Hb. unfold Worker.applyFocusPeaking, alpha, channel. simpl.
  set (w := image_width imageData) in *. set (h := image_height imageData) in *.
  match goal with |- for_loop 0 h _ ?o !! _ = _ => set (interior_done := o) end.
  change (for_loop 0 h _ interior_done) with
    (loop2 0 h 0 w (fun y x out => Worker.border_pixel w h y x out) interior_done).
  rewrite (loop2_hit _ 0 h 0 w _ y x); [|lia|lia| |apply border_pixel_local].
  - unfold Worker.border_pixel. rewrite (border_test w h x y Hb).
    apply list_lookup_insert_eq. unfold interior_done.
    rewrite for_loop_length.
    + unfold transparent. rewrite length_replicate.
      pose proof (pixel_index_lt w h x y Hx Hy). lia.
    + intros i o. apply for_loop_length. intros i' o'. apply peak_pixel_length.
  - intros y' x' Hy' Hx' Hne. apply border_pixel_keeps.
    rewrite channel_div by lia. intros E.
    apply pixel_index_inj in E as [-> ->]; [congruence|lia|lia].
Qed.

(** C4. With peaking enabled, every pixel of the first or last row or
    column of the output (the pixels within the kernel radius of the
    boundary) has alpha 0, whatever the frame, the colour, the threshold
    and the intensity: on the canvas [processFrame] draws, and in the image
    the worker's [applyFocusPeaking] returns. *)
Theorem border_pixels_are_transparent :
  (forall st document v c color threshold intensity mode (x y : nat),
      drawable document v c ->
      (x < videoWidth v)%nat -> (y < videoHeight v)%nat ->
      border (videoWidth v) (videoHeight v) x y ->
      alpha
        (canvas_bitmap
           (outcome_canvas
              (snd (Outline.processFrame st document v c color threshold true
                      intensity mode))))
        (videoWidth v) x y = Some 0)
  /\ (forall imageData threshold colorHex (x y : nat),
      (x < image_width imageData)%nat -> (y < image_height imageData)%nat ->
      border (image_width imageData) (image_height imageData) x y ->
      alpha (image_data (Worker.applyFocusPeaking imageData threshold colorHex))
        (image_width imageData) x y = Some 0).
Proof.
  split.
  - intros st document v c color threshold intensity mode x y Hd Hx Hy Hb.
    rewrite processFrame_enabled by exact Hd. simpl.
    apply outline_of_border; [exact Hx|exact Hy|lia|].
    apply border_not_interior, Hb.
  - apply applyFocusPeaking_border.
Qed.

(** C5. With peaking disabled the call only clears the canvas: it returns
    the cleared canvas whatever the frame, the colour, the threshold and the
    intensity are, and every pixel of that canvas has alpha 0. *)
Theorem disabled_clears_the_canvas
    st document v c color threshold intensity mode :
  canvas_context2d c = true ->
  Outline.processFrame st document v c color threshold false intensity mode
  = (st, Returned (clearRect c) [])
  /\ forall x y : nat,
      (x < canvas_width c)%nat -> (y < canvas_height c)%nat ->
      alpha
        (canvas_bitmap
           (outcome_canvas
              (snd (Outline.processFrame st document v c color threshold false
                      intensity mode))))
        (canvas_width c) x y = Some 0.
Proof.
  intros Hctx. unfold Outline.processFrame. simpl negb. cbv iota.
  rewrite Hctx. split; [reflexivity|].
  intros x y Hx Hy. simpl. unfold alpha, channel.
  apply transparent_lookup.
  pose proof (pixel_index_lt _ _ x y Hx Hy). lia.
Qed.

Lemma clearRect_idem (c : Canvas) : clearRect (clearRect c) = clearRect c.
Proof. reflexivity. Qed.

Lemma clearRect_put (c : Canvas) (image : ImageData) :
  clearRect (putImageData (clearRect c) image) = clearRect c.
Proof. reflexivity. Qed.

Lemma fitted_size (v : Video) (c : Canvas) :
  canvas_width (fitted v c) = videoWidth v
  /\ canvas_height (fitted v c) = videoHeight v
  /\ canvas_context2d (fitted v c) = canvas_context2d c.
Proof.
  unfold fitted.
  destruct (negb (canvas_width c =? videoWidth v)%nat
            || negb (canvas_height c =? videoHeight v)%nat) eqn:E.
  - repeat split.
  - apply orb_false_elim in E as [H1 H2].
    apply negb_false_iff, Nat.eqb_eq in H1, H2. repeat split; assumption.
Qed.

Lemma fitted_fixed (v : Video) (c : Canvas) :
  canvas_width c = videoWidth v -> canvas_height c = videoHeight v ->
  fitted v c = c.
Proof.
  intros Hw Hh. unfold fitted. rewrite Hw, Hh, !Nat.eqb_refl. reflexivity.
Qed.

Lemma processFrame_unfold st document v c color threshold enabled intensity mode :
  Outline.processFrame st document v c color threshold enabled intensity mode
  = if enabled
    then draw st document v (fitted v c) color threshold intensity
    else (st, Returned (if canvas_context2d c then clearRect c else c) []).
Proof. destruct enabled; reflexivity. Qed.

Lemma draw_state st document v k color threshold intensity :
  fst (draw st document v k color threshold intensity) = st.
Proof.
  unfold draw.
  destruct (canvas_context2d k), (offscreen_context2d document),
    (capture v (canvas_width k) (canvas_height k)); reflexivity.
Qed.

Lemma draw_canvas st document v k color threshold intensity :
  let k' := outcome_canvas (snd (draw st document v k color threshold intensity)) in
  canvas_width k' = canvas_width k /\ canvas_height k' = canvas_height k
  /\ canvas_context2d k' = canvas_context2d k
  /\ (canvas_context2d k = false -> k' = k)
  /\ clearRect k' = clearRect k.
Proof.
  unfold draw.
  destruct (canvas_context2d k) eqn:Hc, (offscreen_context2d document),
    (capture v (canvas_width k) (canvas_height k));
    simpl; repeat split; try congruence; try reflexivity.
Qed.

Lemma draw_cleared st document v k k' color threshold intensity :
  canvas_context2d k = true ->
  canvas_width k' = canvas_width k -> canvas_height k' = canvas_height k ->
  canvas_context2d k' = true ->
  draw st document v k' color threshold intensity
  = draw st document v k color threshold intensity.
Proof.
  intros Hc Hw Hh Hc'. unfold draw. rewrite Hc, Hc', Hw, Hh.
  assert (clearRect k' = clearRect k) as ->.
  { unfold clearRect. rewrite Hc, Hc', Hw, Hh. reflexivity. }
  reflexivity.
Qed.

(** C7. A second call with the same frame and the same configuration, on
    the canvas the first call left, ends as the first did, with the same
    bitmap byte for byte, and the variables of the module are as they were
    before the first call: nothing the function keeps between calls changes
    its result. *)
Theorem processFrame_twice
    st document v c color threshold enabled intensity mode :
  let first :=
    Outline.processFrame st document v c color threshold enabled intensity mode in
  Outline.processFrame (fst first) document v (outcome_canvas (snd first))
    color threshold enabled intensity mode = first
  /\ fst first = st.
Proof.
  cbv zeta. rewrite !processFrame_unfold. destruct enabled.
  - rewrite draw_state. split; [|reflexivity].
    destruct (fitted_size v c) as (Hw & Hh & _).
    destruct (draw_canvas st document v (fitted v c) color threshold intensity)
      as (Hw' & Hh' & Hc' & Hsame & _).
    cbv zeta in *.
    rewrite fitted_fixed by congruence.
    destruct (canvas_context2d (fitted v c)) eqn:Hc.
    + apply draw_cleared; assumption.
    + rewrite Hsame by reflexivity. reflexivity.
  - simpl. split; [|reflexivity].
    destruct (canvas_context2d c) eqn:Hc; simpl; rewrite Hc; reflexivity.
Qed.

(** ** The colour parser against the words of the specification *)

Lemma number_eqb_eq (x y : JS.number) : number_eqb x y = true -> x = y.
Proof.
  destruct x as [s|s| |s m e], y as [s'|s'| |s' m' e']; simpl;
    try discriminate; try reflexivity.
  - intros H. apply Bool.eqb_prop in H. congruence.
  - intros H. apply Bool.eqb_prop in H. congruence.
  - intros H. apply andb_true_iff in H as [H He].
    apply andb_true_iff in H as [Hs Hm].
    apply Bool.eqb_prop in Hs. apply Pos.eqb_eq in Hm. apply Z.eqb_eq in He.
    congruence.
Qed.

Lemma all_chars_spec (p : ascii -> bool) :
  all_chars p = true -> forall c, p c = true.
Proof.
  intros H c. unfold all_chars in H. rewrite forallb_forall in H.
  rewrite <- (ascii_nat_embedding c). apply H.
  apply in_seq. pose proof (nat_ascii_bounded c). lia.
Qed.

Lemma hex_class_is_hex_digit (c : ascii) :
  RegExp.class_match true [("a"%char, "f"%char); ("0"%char, "9"%char)] c
  = is_hex_digit c.
Proof.
  apply Bool.eqb_prop. revert c. apply all_chars_spec. vm_compute. reflexivity.
Qed.

Lemma hash_is_hash (c : ascii) :
  RegExp.same_char true "#" c = Ascii.eqb c "#".
Proof.
  apply Bool.eqb_prop. revert c. apply all_chars_spec. vm_compute. reflexivity.
Qed.

Lemma hash_not_hex (c : ascii) :
  Ascii.eqb c "#" = true -> is_hex_digit c = false.
Proof. intros H. apply Ascii.eqb_eq in H. subst c. reflexivity. Qed.

Lemma parseInt_hex_byte (hi lo : ascii) :
  is_hex_digit hi = true -> is_hex_digit lo = true ->
  ParseInt.parseInt [hi; lo] 16 = JS.of_Z (hex_byte hi lo)
  /\ 0 <= hex_byte hi lo <= 255.
Proof.
  intros Hhi Hlo.
  assert (all_chars (fun a => all_chars (fun b =>
            implb (is_hex_digit a && is_hex_digit b)
              (number_eqb (ParseInt.parseInt [a; b] 16) (JS.of_Z (hex_byte a b))
               && (0 <=? hex_byte a b) && (hex_byte a b <=? 255)))) = true) as H.
  { vm_compute. reflexivity. }
  pose proof (all_chars_spec _ (all_chars_spec _ H hi) lo) as H'.
  simpl in H'. rewrite Hhi, Hlo in H'. simpl in H'.
  apply andb_true_iff in H' as [H' H3]. apply andb_true_iff in H' as [H1 H2].
  split; [apply number_eqb_eq, H1|lia].
Qed.

(** The pattern starts with [^]: no match begins after index 0. *)
Lemma match_at_later (input : list ascii) (i : nat) :
  i ≠ 0%nat -> RegExp.match_at hex_pattern true input i = None.
Proof.
  intros Hi. unfold RegExp.match_at, hex_pattern. simpl.
  destruct i; [congruence|reflexivity].
Qed.

Lemma scan_later (input : list ascii) (fuel i : nat) :
  i ≠ 0%nat -> RegExp.scan hex_pattern true input i fuel = None.
Proof.
  revert i. induction fuel as [|fuel IH]; intros i Hi; simpl;
    rewrite match_at_later by exact Hi; [reflexivity|].
  apply IH. lia.
Qed.

Lemma match_at_start (input : list ascii) :
  RegExp.captures <$> RegExp.match_at hex_pattern true input 0 =
  match input with
  | c :: t =>
      if Ascii.eqb c "#" then six_captures t else six_captures (c :: t)
  | [] => None
  end.
Proof.
  unfold RegExp.match_at, hex_pattern, hex_class.
  cbn [RegExp.compile RegExp.endIndex Nat.eqb].
  unfold RegExp.char_matcher. cbn [RegExp.endIndex RegExp.captures].
  destruct input as [|a0 [|a1 [|a2 [|a3 [|a4 [|a5 [|a6 [|a7 rest]]]]]]]];
    cbn [lookup list_lookup length Nat.eqb take drop Nat.sub app six_captures
         forallb fmap option_fmap option_map];
    rewrite ?hex_class_is_hex_digit, ?hash_is_hash;
    try (destruct (Ascii.eqb a0 "#") eqn:E0; [rewrite ?(hash_not_hex a0 E0)|]);
    repeat match goal with
           | |- context [is_hex_digit ?a] => destruct (is_hex_digit a)
           end; reflexivity.
Qed.

Lemma exec_hex_pattern (s : string) :
  RegExp.exec hex_pattern true s =
  match String.list_ascii_of_string s with
  | c :: t =>
      if Ascii.eqb c "#" then six_captures t else six_captures (c :: t)
  | [] => None
  end.
Proof.
  unfold RegExp.exec. rewrite <- match_at_start.
  generalize (String.list_ascii_of_string s). intros input.
  destruct (length input) as [|fuel]; simpl;
    destruct (RegExp.match_at hex_pattern true input 0); try reflexivity.
  simpl. apply scan_later. lia.
Qed.

Lemma six_captures_bytes (fallback : Rgb.t) (l : list ascii) :
  match six_captures l with
  | Some result => rgb_of_captures result
  | None => fallback
  end
  = match six_hex_digits l with
    | Some c => rgb_of_bytes c
    | None => fallback
    end.
Proof.
  destruct l as [|a0 [|a1 [|a2 [|a3 [|a4 [|a5 [|a6 rest]]]]]]]; try reflexivity.
  unfold six_captures, six_hex_digits.
  destruct (forallb is_hex_digit [a0; a1; a2; a3; a4; a5]) eqn:Hall; [|reflexivity].
  simpl in Hall. repeat (apply andb_true_iff in Hall as [? Hall]).
  unfold rgb_of_captures, rgb_of_bytes. simpl.
  rewrite (proj1 (parseInt_hex_byte a0 a1 ltac:(assumption) ltac:(assumption))).
  rewrite (proj1 (parseInt_hex_byte a2 a3 ltac:(assumption) ltac:(assumption))).
  rewrite (proj1 (parseInt_hex_byte a4 a5 ltac:(assumption) ltac:(assumption))).
  reflexivity.
Qed.

(** The parser of every revision: the bytes of six hexadecimal digits,
    and the fallback of the revision for any other string. *)
Lemma hexToRgb_or_spec (fallback : Rgb.t) (hex : string) :
  hexToRgb_or fallback hex
  = match parse_color hex with
    | Some c => rgb_of_bytes c
    | None => fallback
    end.
Proof.
  unfold hexToRgb_or, parse_color. rewrite exec_hex_pattern.
  destruct (String.list_ascii_of_string hex) as [|c t]; [reflexivity|].
  destruct (Ascii.eqb c "#"); apply six_captures_bytes.
Qed.

Lemma six_hex_digits_bytes (l : list ascii) (r g b : Z) :
  six_hex_digits l = Some (r, g, b) ->
  0 <= r <= 255 /\ 0 <= g <= 255 /\ 0 <= b <= 255.
Proof.
  destruct l as [|a0 [|a1 [|a2 [|a3 [|a4 [|a5 [|a6 rest]]]]]]]; try discriminate.
  unfold six_hex_digits.
  destruct (forallb is_hex_digit [a0; a1; a2; a3; a4; a5]) eqn:Hall; [|discriminate].
  simpl in Hall. repeat (apply andb_true_iff in Hall as [? Hall]).
  intros [= <- <- <-].
  repeat split;
    match goal with
    | |- context [hex_byte ?a ?b] =>
        apply (parseInt_hex_byte a b); assumption
    end.
Qed.

Lemma parse_color_bytes (hex : string) (r g b : Z) :
  parse_color hex = Some (r, g, b) ->
  0 <= r <= 255 /\ 0 <= g <= 255 /\ 0 <= b <= 255.
Proof.
  unfold parse_color. destruct (String.list_ascii_of_string hex) as [|c t];
    [discriminate|].
  destruct (Ascii.eqb c "#"); apply six_hex_digits_bytes.
Qed.

(** C10. [hexToRgb] parses exactly the strings made of six hexadecimal
    digits, in either case, optionally preceded by [#]: it returns the
    three bytes they denote, each between 0 and 255; for every other
    string it returns the fallback colour. So ["#FF0000"], ["ff0000"] and
    ["FF0000"] are parsed to (255, 0, 0), and the three-digit ["#F00"] is
    not parsed. *)
Theorem hexToRgb_six_hex_digits :
  (forall hex : string,
      Outline.hexToRgb hex
      = match parse_color hex with
        | Some c => rgb_of_bytes c
        | None => Rgb.Mk JS.lit_255 JS.lit_0 JS.lit_0
        end)
  /\ (forall (hex : string) (r g b : Z),
      parse_color hex = Some (r, g, b) ->
      0 <= r <= 255 /\ 0 <= g <= 255 /\ 0 <= b <= 255)
  /\ parse_color "#FF0000" = Some (255, 0, 0)
  /\ parse_color "ff0000" = Some (255, 0, 0)
  /\ parse_color "FF0000" = Some (255, 0, 0)
  /\ parse_color "#F00" = None.
Proof.
  split; [|split; [exact parse_color_bytes|repeat split]].
  intros hex. apply hexToRgb_or_spec.
Qed.

(** *** The fallback colour *)

(** C8, as stated, fails on the [hexToRgb] of the worker revision (the one
    its synchronous fallback calls): for ["not-a-color"] it returns
    (255, 74, 74), not (255, 0, 0). *)
Lemma worker_fallback_is_not_red :
  parse_color "not-a-color" = None
  /\ Worker.hexToRgb "not-a-color" = light_red
  /\ Worker.hexToRgb "not-a-color" <> red.
Proof.
  split; [reflexivity|].
  assert (Worker.hexToRgb "not-a-color" = light_red) as E.
  { unfold Worker.hexToRgb. rewrite hexToRgb_or_spec. reflexivity. }
  split; [exact E|]. rewrite E. discriminate.
Qed.

Lemma draw_color st document v k color color' threshold intensity :
  Outline.hexToRgb color = Outline.hexToRgb color' ->
  draw st document v k color threshold intensity
  = draw st document v k color' threshold intensity.
Proof. intros E. unfold draw. rewrite E. reflexivity. Qed.

Lemma draw_returns st document v k color threshold intensity :
  (0 < canvas_width k)%nat -> (0 < canvas_height k)%nat ->
  exists canvas console,
    snd (draw st document v k color threshold intensity)
    = Returned canvas console.
Proof.
  intros Hw Hh. unfold draw.
  destruct (canvas_context2d k); simpl; [|eauto].
  destruct (offscreen_context2d document); simpl; [|eauto].
  rewrite capture_positive by assumption. eauto.
Qed.

(** C8, amended. For a string that is not six hexadecimal digits with an
    optional [#], [processFrame] ends as it does for ["#FF0000"]: its
    [hexToRgb] returns red, (255, 0, 0), and the call returns, once the
    video has a frame of a positive size. The [hexToRgb] of the worker
    revision's module, the one of its synchronous fallback, returns
    (255, 74, 74), the default colour [#FF4A4A] of that revision. *)
Theorem invalid_color_falls_back (color : string) :
  parse_color color = None ->
  Outline.hexToRgb color = red
  /\ (forall st document v c threshold enabled intensity mode,
        Outline.processFrame st document v c color threshold enabled intensity mode
        = Outline.processFrame st document v c "#FF0000" threshold enabled
            intensity mode)
  /\ (forall st document v c threshold enabled intensity mode,
        (0 < videoWidth v)%nat -> (0 < videoHeight v)%nat ->
        exists canvas console,
          snd (Outline.processFrame st document v c color threshold enabled
                 intensity mode) = Returned canvas console)
  /\ Worker.hexToRgb color = light_red.
Proof.
  intros Hbad.
  assert (Outline.hexToRgb color = red) as Hred.
  { unfold Outline.hexToRgb. rewrite hexToRgb_or_spec, Hbad. reflexivity. }
  split; [exact Hred|]. split; [|split].
  - intros st document v c threshold enabled intensity mode.
    rewrite !processFrame_unfold. destruct enabled; [|reflexivity].
    apply draw_color. rewrite Hred. unfold Outline.hexToRgb.
    rewrite hexToRgb_or_spec. reflexivity.
  - intros st document v c threshold enabled intensity mode Hw Hh.
    rewrite processFrame_unfold. destruct enabled; [|simpl; eauto].
    destruct (fitted_size v c) as (Hw' & Hh' & _).
    apply draw_returns; lia.
  - unfold Worker.hexToRgb. rewrite hexToRgb_or_spec, Hbad. reflexivity.
Qed.

Lemma invalid_color_falls_back_witness :
  parse_color "not-a-color" = None
  /\ Outline.hexToRgb "not-a-color" = red
  /\ Worker.hexToRgb "not-a-color" = light_red.
Proof.
  split; [reflexivity|].
  pose proof (invalid_color_falls_back "not-a-color" eq_refl) as H.
  split; [apply H|apply H].
Defined.

(** *** The theorems on a sample page *)

Lemma sample_drawable : drawable sample_document sample_video sample_canvas.
Proof. repeat split; simpl; lia. Qed.

Lemma border_pixels_are_transparent_witness :
  alpha
    (canvas_bitmap
       (outcome_canvas
          (snd (Outline.processFrame sample_state sample_document sample_video
                  sample_canvas "#00ff00" (JS.of_Z 30) true (JS.of_Z 1)
                  "outline"))))
    3 2 1 = Some 0.
Proof.
  apply (proj1 border_pixels_are_transparent sample_state sample_document
           sample_video sample_canvas "#00ff00" (JS.of_Z 30) (JS.of_Z 1)
           "outline" 2%nat 1%nat sample_drawable).
  - simpl. lia.
  - simpl. lia.
  - right. right. left. reflexivity.
Defined.

Lemma disabled_clears_the_canvas_witness :
  Outline.processFrame sample_state sample_document sample_video sample_canvas
    "#00ff00" (JS.of_Z 30) false (JS.of_Z 1) "outline"
  = (sample_state, Returned (clearRect sample_canvas) []).
Proof.
  apply (disabled_clears_the_canvas sample_state sample_document sample_video
           sample_canvas "#00ff00" (JS.of_Z 30) (JS.of_Z 1) "outline" eq_refl).
Defined.

(** * Binary64 arithmetic

    The rounding of the library in closed form, the order of numbers as
    the order of their values, and the operations on values. *)

Ltac pow_side :=
  first
    [ lia
    | apply Z.pow_pos_nonneg; lia
    | apply Z.pow_nonzero; lia
    | apply Z.lt_le_incl, Z.pow_pos_nonneg; lia
    | apply Z.pow_nonneg; lia ].

(** ** The number of binary digits *)

Lemma digits2_pos_bounds (p : positive) :
  2 ^ (Z.pos (digits2_pos p) - 1) <= Z.pos p < 2 ^ Z.pos (digits2_pos p).
Proof.
  induction p as [p IH|p IH|]; simpl digits2_pos.
  - rewrite Pos2Z.inj_succ. replace (Z.succ (Z.pos (digits2_pos p)) - 1) with (Z.succ (Z.pos (digits2_pos p) - 1)) by lia.
    rewrite !Z.pow_succ_r by lia. rewrite (Pos2Z.inj_xI p).
    destruct IH as [IH1 IH2]. revert IH1 IH2.
    generalize (2 ^ (Z.pos (digits2_pos p) - 1)) (2 ^ Z.pos (digits2_pos p)). lia.
  - rewrite Pos2Z.inj_succ. replace (Z.succ (Z.pos (digits2_pos p)) - 1) with (Z.succ (Z.pos (digits2_pos p) - 1)) by lia.
    rewrite !Z.pow_succ_r by lia. rewrite (Pos2Z.inj_xO p).
    destruct IH as [IH1 IH2]. revert IH1 IH2.
    generalize (2 ^ (Z.pos (digits2_pos p) - 1)) (2 ^ Z.pos (digits2_pos p)). lia.
  - simpl. lia.
Qed.

Lemma Zdigits2_log2 (m : Z) : 0 < m -> Zdigits2 m = Z.log2 m + 1.
Proof.
  intros Hm. destruct m as [|p|p]; try lia. simpl Zdigits2.
  pose proof (digits2_pos_bounds p) as [H1 H2].
  assert (Z.log2 (Z.pos p) = Z.pos (digits2_pos p) - 1); [|lia].
  apply Z.log2_unique; [lia|]. split; [exact H1|].
  replace (Z.succ (Z.pos (digits2_pos p) - 1)) with (Z.pos (digits2_pos p)) by lia. exact H2.
Qed.

Lemma digits2_pos_log2 (p : positive) : Z.pos (digits2_pos p) = Z.log2 (Z.pos p) + 1.
Proof. apply (Zdigits2_log2 (Z.pos p)). lia. Qed.

Lemma shr_1_m (mrs : shr_record) :
  0 <= shr_m mrs ->
  shr_m (shr_1 mrs) = shr_m mrs / 2 /\ shr_r (shr_1 mrs) = Z.odd (shr_m mrs)
  /\ shr_s (shr_1 mrs) = shr_r mrs || shr_s mrs.
Proof.
  destruct mrs as [m r s]. simpl. intros Hm.
  destruct m as [|[p|p|]|p]; simpl; try lia; repeat split; try reflexivity.
  - rewrite (Pos2Z.inj_xI p). apply Z.div_unique with (r := 1); lia.
  - rewrite (Pos2Z.inj_xO p). apply Z.div_unique with (r := 0); lia.
Qed.

Lemma represents_shr_1 (M n : Z) (mrs : shr_record) :
  0 <= M -> 0 <= n -> represents M n mrs -> represents M (n + 1) (shr_1 mrs).
Proof.
  intros HM Hn (Hm & Hr & Hs).
  assert (0 <= shr_m mrs) as Hpos.
  { rewrite Hm. apply Z.div_pos; [lia|]. apply Z.pow_pos_nonneg; lia. }
  destruct (shr_1_m mrs Hpos) as (Hm' & Hr' & Hs').
  unfold represents. rewrite Hm', Hr', Hs', Hm, Hr, Hs.
  replace (n + 1 - 1) with n by lia.
  assert ((0 <? n + 1) = true) as -> by (apply Z.ltb_lt; lia). simpl.
  repeat split.
  - rewrite Z.pow_add_r by lia. rewrite Z.div_div by pow_side. reflexivity.
  - rewrite Z.testbit_odd. rewrite Z.shiftr_div_pow2 by lia. reflexivity.
  - destruct (Z.eq_dec n 0) as [->|Hn0].
    + simpl. rewrite Z.mod_1_r. reflexivity.
    + assert ((0 <? n) = true) as -> by (apply Z.ltb_lt; lia). simpl.
      (* testbit M (n-1) || (M mod 2^(n-1) <> 0) = (M mod 2^n <> 0) *)
      assert (M mod 2 ^ n = 2 ^ (n - 1) * Z.b2z (Z.testbit M (n - 1)) + M mod 2 ^ (n - 1)) as E.
      { replace n with (Z.succ (n - 1)) at 1 by lia.
        rewrite Z.pow_succ_r by lia.
        rewrite Z.testbit_spec' by lia.
        pose proof (Z.pow_pos_nonneg 2 (n - 1) ltac:(lia) ltac:(lia)) as Hp.
        rewrite Z.mul_comm.
        rewrite Z.rem_mul_r by lia. lia. }
      rewrite E.
      pose proof (Z.pow_pos_nonneg 2 (n - 1) ltac:(lia) ltac:(lia)) as Hp.
      pose proof (Z.mod_pos_bound M (2 ^ (n - 1)) Hp) as Hb.
      destruct (Z.testbit M (n - 1)); simpl Z.b2z; simpl orb.
      * symmetry. apply negb_true_iff, Z.eqb_neq. lia.
      * f_equal. f_equal. lia.
Qed.

Lemma represents_iter (p : positive) : forall (M n : Z) (mrs : shr_record),
  0 <= M -> 0 <= n -> represents M n mrs ->
  represents M (n + Z.pos p) (iter_pos shr_1 p mrs).
Proof.
  induction p as [p IH|p IH|]; intros M n mrs HM Hn H; simpl iter_pos.
  - replace (n + Z.pos p~1) with (((n + 1) + Z.pos p) + Z.pos p) by lia.
    apply IH; [lia|lia|]. apply IH; [lia|lia|]. apply represents_shr_1; assumption.
  - replace (n + Z.pos p~0) with ((n + Z.pos p) + Z.pos p) by lia.
    apply IH; [lia|lia|]. apply IH; assumption.
  - apply represents_shr_1; assumption.
Qed.

Lemma represents_exact (M : Z) : represents M 0 (shr_record_of_loc M loc_Exact).
Proof. unfold represents. simpl. rewrite Z.div_1_r. repeat split. Qed.

Lemma fexp_eq (k : Z) : fexp 53 1024 k = Z.max (k - 53) (-1074).
Proof. reflexivity. Qed.

Lemma iter_pos_shr_m (p : positive) : forall mrs,
  0 <= shr_m mrs -> shr_m (iter_pos shr_1 p mrs) = shr_m mrs / 2 ^ Z.pos p.
Proof.
  assert (forall mrs, 0 <= shr_m mrs -> 0 <= shr_m (shr_1 mrs)) as Hnn.
  { intros mrs H. rewrite (proj1 (shr_1_m mrs H)). apply Z.div_pos; lia. }
  assert (forall q mrs, 0 <= shr_m mrs -> shr_m (iter_pos shr_1 q mrs) = shr_m mrs / 2 ^ Z.pos q ->
          0 <= shr_m (iter_pos shr_1 q mrs)) as Hnn'.
  { intros q mrs H E. rewrite E. apply Z.div_pos; [lia|]. apply Z.pow_pos_nonneg; lia. }
  induction p as [p IH|p IH|]; intros mrs Hm; simpl iter_pos.
  - rewrite IH, IH, (proj1 (shr_1_m mrs Hm)); auto.
    + rewrite !Z.div_div by pow_side.
      f_equal. rewrite (Pos2Z.inj_xI p).
      replace (2 * Z.pos p + 1) with (1 + Z.pos p + Z.pos p) by lia.
      rewrite !Z.pow_add_r by lia. rewrite Z.pow_1_r. ring.
  - rewrite IH, IH; auto.
    rewrite Z.div_div by pow_side.
    f_equal. rewrite (Pos2Z.inj_xO p).
    replace (2 * Z.pos p) with (Z.pos p + Z.pos p) by lia.
    rewrite !Z.pow_add_r by lia. ring.
  - rewrite (proj1 (shr_1_m mrs Hm)). reflexivity.
Qed.

Lemma round_nearest_even_bounds (m : Z) (l : location) :
  m <= round_nearest_even m l <= m + 1.
Proof.
  destruct l as [|[| |]]; simpl; try lia. destruct (Z.even m); lia.
Qed.

Lemma shr_record_of_loc_m (M : Z) (l : location) :
  shr_m (shr_record_of_loc M l) = M.
Proof. destruct l as [|[| |]]; reflexivity. Qed.

(** The mantissa and the exponent after the shift. *)
Lemma shr_m_value (M e n : Z) (l : location) :
  0 <= M ->
  shr_m (fst (shr (shr_record_of_loc M l) e n)) = M / 2 ^ Z.max n 0
  /\ snd (shr (shr_record_of_loc M l) e n) = e + Z.max n 0.
Proof.
  intros HM. destruct n as [|p|p]; simpl shr; simpl fst; simpl snd.
  - rewrite shr_record_of_loc_m. simpl. rewrite Z.div_1_r. split; lia.
  - rewrite iter_pos_shr_m by (rewrite shr_record_of_loc_m; exact HM).
    rewrite shr_record_of_loc_m. replace (Z.max (Z.pos p) 0) with (Z.pos p) by lia.
    split; reflexivity.
  - rewrite shr_record_of_loc_m. replace (Z.max (Z.neg p) 0) with 0 by lia.
    simpl. rewrite Z.div_1_r. split; lia.
Qed.

Lemma shr_exact_rne (M e n : Z) :
  0 <= M ->
  let mrs := fst (shr (shr_record_of_loc M loc_Exact) e n) in
  round_nearest_even (shr_m mrs) (loc_of_shr_record mrs) = rne M n.
Proof.
  intros HM. cbv zeta. unfold rne. destruct n as [|p|p]; [reflexivity| |reflexivity].
  cbn [shr fst].
  pose proof (represents_iter p M 0 (shr_record_of_loc M loc_Exact) HM
                (Z.le_refl 0) (represents_exact M)) as (Hm & Hr & Hs).
  replace (0 + Z.pos p) with (Z.pos p) in Hm, Hr, Hs by lia.
  assert ((0 <? Z.pos p) = true) as Hpos by reflexivity.
  rewrite Hpos in Hr, Hs. cbn [andb] in Hr, Hs.
  assert ((Z.pos p <=? 0) = false) as -> by (apply Z.leb_gt; lia).
  destruct (iter_pos shr_1 p (shr_record_of_loc M loc_Exact)) as [m r s].
  cbn [shr_m shr_r shr_s] in Hm, Hr, Hs. subst m r s.
  pose proof (Z.pow_pos_nonneg 2 (Z.pos p - 1) ltac:(lia) ltac:(lia)) as Hp.
  assert (2 ^ Z.pos p = 2 * 2 ^ (Z.pos p - 1)) as Epow.
  { rewrite <- Z.pow_succ_r by lia. f_equal. lia. }
  assert (M mod 2 ^ Z.pos p
          = 2 ^ (Z.pos p - 1) * Z.b2z (Z.testbit M (Z.pos p - 1)) + M mod 2 ^ (Z.pos p - 1)) as E.
  { rewrite Epow. rewrite Z.testbit_spec' by lia.
    rewrite (Z.mul_comm 2). rewrite Z.rem_mul_r by lia. lia. }
  pose proof (Z.mod_pos_bound M (2 ^ (Z.pos p - 1)) Hp) as Hb.
  rewrite E, Epow.
  cbn [loc_of_shr_record round_nearest_even shr_m].
  clear E Epow. revert Hb.
  generalize (M mod 2 ^ (Z.pos p - 1)). intros low Hb.
  revert Hp Hb. generalize (2 ^ (Z.pos p - 1)). intros h Hh Hb.
  generalize (M / (2 * h)). intros q.
  destruct (Z.testbit M (Z.pos p - 1)); cbn [Z.b2z].
  - destruct (low =? 0) eqn:Hlow; cbn [negb loc_of_shr_record round_nearest_even].
    + apply Z.eqb_eq in Hlow. subst low.
      assert ((2 * (h * 1 + 0) <? 2 * h) = false) as -> by (apply Z.ltb_ge; lia).
      assert ((2 * h <? 2 * (h * 1 + 0)) = false) as -> by (apply Z.ltb_ge; lia).
      reflexivity.
    + apply Z.eqb_neq in Hlow.
      assert ((2 * (h * 1 + low) <? 2 * h) = false) as -> by (apply Z.ltb_ge; lia).
      assert ((2 * h <? 2 * (h * 1 + low)) = true) as -> by (apply Z.ltb_lt; lia).
      reflexivity.
  - assert ((2 * (h * 0 + low) <? 2 * h) = true) as -> by (apply Z.ltb_lt; lia).
    destruct (negb (low =? 0)); reflexivity.
Qed.

Lemma Zdigits2_bounds (M : Z) :
  0 < M -> 2 ^ (Zdigits2 M - 1) <= M < 2 ^ Zdigits2 M.
Proof.
  intros HM. destruct M as [|p|p]; try lia. apply digits2_pos_bounds.
Qed.

Lemma Zdigits2_pos (M : Z) : 0 < M -> 0 < Zdigits2 M.
Proof. intros HM. destruct M as [|p|p]; simpl; lia. Qed.

Lemma Zdigits2_le (M k : Z) : 0 < M -> 0 <= k -> M < 2 ^ k -> Zdigits2 M <= k.
Proof.
  intros HM Hk Hlt. destruct (Z.le_gt_cases (Zdigits2 M) k) as [H|H]; [exact H|].
  pose proof (Zdigits2_bounds M HM) as [H1 _].
  assert (2 ^ k <= 2 ^ (Zdigits2 M - 1)) by (apply Z.pow_le_mono_r; lia). lia.
Qed.

Lemma Zdigits2_ge (M k : Z) : 0 < M -> 2 ^ (k - 1) <= M -> k <= Zdigits2 M.
Proof.
  intros HM Hle. destruct (Z.le_gt_cases k (Zdigits2 M)) as [H|H]; [exact H|].
  pose proof (Zdigits2_bounds M HM) as [_ H2].
  pose proof (Zdigits2_pos M HM).
  assert (2 ^ Zdigits2 M <= 2 ^ (k - 1)) by (apply Z.pow_le_mono_r; lia). lia.
Qed.

(** The shape of a rounding whose input is aligned. *)
Lemma binary_round_aux_shape (s : bool) (M e : Z) (l : location) :
  0 < M -> e <= fexp 53 1024 (Zdigits2 M + e) ->
  let e1 := fexp 53 1024 (Zdigits2 M + e) in
  let mrs := fst (shr (shr_record_of_loc M l) e (e1 - e)) in
  let q := round_nearest_even (shr_m mrs) (loc_of_shr_record mrs) in
  binary_round_aux 53 1024 s M e l = build s (carry q e1)
  /\ M / 2 ^ (e1 - e) <= q <= M / 2 ^ (e1 - e) + 1
  /\ q <= 2 ^ 53
  /\ (-1074 < e1 -> 2 ^ 52 <= q).
Proof.
  intros HM Hal. cbv zeta.
  set (d := Zdigits2 M) in *. set (e1 := fexp 53 1024 (d + e)) in *.
  set (n := e1 - e).
  pose proof (Zdigits2_bounds M HM) as [Hd1 Hd2]. fold d in Hd1, Hd2.
  pose proof (Zdigits2_pos M HM) as Hdpos. fold d in Hdpos.
  assert (e1 = Z.max (d + e - 53) (-1074)) as He1 by reflexivity.
  assert (0 <= n) as Hn by (unfold n; lia).
  destruct (shr_m_value M e n l ltac:(lia)) as [Hm1 Hs1].
  replace (Z.max n 0) with n in Hm1, Hs1 by lia.
  pose proof (round_nearest_even_bounds
                (shr_m (fst (shr (shr_record_of_loc M l) e n)))
                (loc_of_shr_record (fst (shr (shr_record_of_loc M l) e n)))) as Hq.
  set (q := round_nearest_even _ _) in *.
  rewrite Hm1 in Hq.
  pose proof (Z.pow_pos_nonneg 2 n ltac:(lia) Hn) as Hpn.
  assert (M / 2 ^ n < 2 ^ 53) as Hq0.
  { apply Z.div_lt_upper_bound; [exact Hpn|].
    rewrite <- Z.pow_add_r by lia.
    assert (2 ^ d <= 2 ^ (n + 53)) by (apply Z.pow_le_mono_r; lia). lia. }
  assert (0 <= M / 2 ^ n) as Hq0' by (apply Z.div_pos; lia).
  assert (-1074 < e1 -> 2 ^ 52 <= M / 2 ^ n) as Hnorm.
  { intros Hgt. apply Z.div_le_lower_bound; [exact Hpn|].
    rewrite <- Z.pow_add_r by lia. replace (n + 52) with (d - 1) by lia. exact Hd1. }
  split; [|split; [exact Hq|split; [lia|intros H; specialize (Hnorm H); lia]]].
  unfold binary_round_aux, shr_fexp. fold d. fold e1. fold n.
  rewrite (surjective_pairing (shr (shr_record_of_loc M l) e n)).
  rewrite Hs1. fold q. replace (e + n) with e1 by (unfold n; lia).
  rewrite (surjective_pairing (shr (shr_record_of_loc q loc_Exact) e1 _)).
  set (n2 := fexp 53 1024 (Zdigits2 q + e1) - e1).
  destruct (shr_m_value q e1 n2 loc_Exact ltac:(lia)) as [Hm2 Hs2].
  rewrite Hm2, Hs2. unfold carry, build.
  assert (n2 = Z.max (Zdigits2 q + e1 - 53) (-1074) - e1) as Hn2 by reflexivity.
  destruct (Z.eqb_spec q (2 ^ 53)) as [Eq|Nq].
  - assert (Zdigits2 q = 54) as Hdq by (rewrite Eq; reflexivity).
    assert (n2 = 1) as -> by lia.
    rewrite Eq. simpl fst. simpl snd. reflexivity.
  - assert (Z.max n2 0 = 0) as ->.
    { destruct (Z.eq_dec q 0) as [->|Hq0n]; [simpl in Hn2; lia|].
      assert (Zdigits2 q <= 53) by (apply Zdigits2_le; lia). lia. }
    simpl (2 ^ 0). rewrite Z.div_1_r, Z.add_0_r. reflexivity.
Qed.

Lemma pos_iter_xO (m d : positive) :
  Z.pos (Pos.iter xO m d) = Z.pos m * 2 ^ Z.pos d.
Proof.
  induction d as [|d IH] using Pos.peano_ind.
  - simpl. lia.
  - rewrite Pos.iter_succ. rewrite (Pos2Z.inj_xO (Pos.iter xO m d)), IH.
    rewrite Pos2Z.inj_succ, Z.pow_succ_r by lia. ring.
Qed.

Lemma shl_align_value (m : positive) (e e' : Z) :
  Z.pos (fst (shl_align m e e')) = Z.pos m * 2 ^ (e - Z.min e e')
  /\ snd (shl_align m e e') = Z.min e e'.
Proof.
  unfold shl_align. destruct (e' - e) as [|d|d] eqn:E; simpl fst; simpl snd.
  - replace (Z.min e e') with e by lia. rewrite Z.sub_diag. simpl. split; lia.
  - replace (Z.min e e') with e by lia. rewrite Z.sub_diag. simpl. split; lia.
  - replace (Z.min e e') with e' by lia. rewrite pos_iter_xO.
    replace (e - e') with (Z.pos d) by lia. split; reflexivity.
Qed.

Lemma Zdigits2_shift (M k : Z) :
  0 < M -> 0 <= k -> Zdigits2 (M * 2 ^ k) = Zdigits2 M + k.
Proof.
  intros HM Hk. pose proof (Z.pow_pos_nonneg 2 k ltac:(lia) Hk) as Hp.
  rewrite !Zdigits2_log2 by nia.
  rewrite Z.log2_mul_pow2 by lia. lia.
Qed.

Lemma binary_round_aux_exact (s : bool) (M e : Z) :
  0 < M -> e <= target M e ->
  binary_round_aux 53 1024 s M e loc_Exact = build s (round_pair M e).
Proof.
  intros HM Hal.
  destruct (binary_round_aux_shape s M e loc_Exact HM Hal) as (E & _).
  cbv zeta in E. rewrite E. unfold round_pair. f_equal. f_equal.
  rewrite shr_exact_rne by lia. unfold rnd, target.
  destruct (Z.leb_spec (fexp 53 1024 (Zdigits2 M + e) - e) 0) as [H|H]; [|reflexivity].
  unfold target in Hal. replace (fexp 53 1024 (Zdigits2 M + e) - e) with 0 by lia.
  unfold rne. simpl. lia.
Qed.

Lemma binary_round_value (s : bool) (m : positive) (e : Z) :
  binary_round 53 1024 s m e = build s (round_pair (Z.pos m) e).
Proof.
  unfold binary_round.
  rewrite (surjective_pairing (shl_align m e _)).
  destruct (shl_align_value m e (fexp 53 1024 (Z.pos (digits2_pos m) + e))) as [Hm He].
  rewrite He. rewrite Hm.
  change (Z.pos (digits2_pos m)) with (Zdigits2 (Z.pos m)) in *.
  fold (target (Z.pos m) e) in *. set (t := target (Z.pos m) e) in *.
  set (k := e - Z.min e t) in *.
  assert (0 <= k) as Hk by (unfold k; lia).
  pose proof (Z.pow_pos_nonneg 2 k ltac:(lia) Hk) as Hp.
  assert (target (Z.pos m * 2 ^ k) (Z.min e t) = t) as Ht.
  { unfold target. rewrite Zdigits2_shift by lia. unfold k.
    replace (Zdigits2 (Z.pos m) + (e - Z.min e t) + Z.min e t)
      with (Zdigits2 (Z.pos m) + e) by lia.
    reflexivity. }
  rewrite binary_round_aux_exact by (try rewrite Ht; nia).
  unfold round_pair. rewrite Ht. fold t. f_equal. f_equal.
  unfold rnd.
  destruct (Z.leb_spec (t - e) 0) as [H|H].
  - replace (t - Z.min e t) with 0 by lia.
    change (0 <=? 0) with true. cbv iota. change (2 ^ (- 0)) with 1.
    rewrite Z.mul_1_r. unfold k. replace (Z.min e t) with t by lia.
    f_equal. f_equal. lia.
  - assert (k = 0) as -> by (unfold k; lia). change (2 ^ 0) with 1.
    rewrite Z.mul_1_r. replace (Z.min e t) with e by lia.
    destruct (Z.leb_spec (t - e) 0); [lia|reflexivity].
Qed.

Lemma fexp_ge (k : Z) : -1074 <= fexp 53 1024 k.
Proof. rewrite fexp_eq. lia. Qed.

Lemma build_valid (s : bool) (q e1 : Z) :
  0 <= q <= 2 ^ 53 -> -1074 <= e1 -> (-1074 < e1 -> 2 ^ 52 <= q) ->
  valid_binary 53 1024 (build s (carry q e1)) = true.
Proof.
  intros Hq He Hnorm. unfold build, carry.
  destruct (Z.eqb_spec q (2 ^ 53)) as [Eq|Nq].
  - simpl fst. simpl snd. change (2 ^ 52) with (Z.pos 4503599627370496).
    cbv iota beta.
    destruct (Z.leb_spec (e1 + 1) 971); [|reflexivity].
    simpl valid_binary. unfold bounded, canonical_mantissa.
    change (Z.pos (digits2_pos 4503599627370496)) with 53.
    rewrite fexp_eq. apply andb_true_iff. split; [apply Z.eqb_eq; lia|apply Z.leb_le; lia].
  - simpl fst. simpl snd. destruct q as [|m|m]; [reflexivity| |lia].
    destruct (Z.leb_spec e1 971); [|reflexivity].
    simpl valid_binary. unfold bounded, canonical_mantissa.
    change (Z.pos (digits2_pos m)) with (Zdigits2 (Z.pos m)).
    rewrite fexp_eq. apply andb_true_iff. split; [|apply Z.leb_le; lia].
    apply Z.eqb_eq.
    assert (Zdigits2 (Z.pos m) <= 53) by (apply Zdigits2_le; lia).
    destruct (Z.eq_dec e1 (-1074)) as [->|Hne]; [lia|].
    assert (53 <= Zdigits2 (Z.pos m)) by (apply Zdigits2_ge; [lia|apply Hnorm; lia]).
    lia.
Qed.

Lemma binary_round_aux_valid (s : bool) (M e : Z) (l : location) :
  0 < M -> e <= target M e ->
  valid_binary 53 1024 (binary_round_aux 53 1024 s M e l) = true.
Proof.
  intros HM Hal.
  destruct (binary_round_aux_shape s M e l HM Hal) as (E & Hq & Hle & Hnorm).
  cbv zeta in E. rewrite E.
  assert (0 <= M / 2 ^ (fexp 53 1024 (Zdigits2 M + e) - e)).
  { apply Z.div_pos; [lia|]. apply Z.pow_pos_nonneg; [lia|]. unfold target in Hal. lia. }
  apply build_valid; [lia|apply fexp_ge|exact Hnorm].
Qed.

Lemma fexp_mono (a b : Z) : a <= b -> fexp 53 1024 a <= fexp 53 1024 b.
Proof. intros H. rewrite !fexp_eq. lia. Qed.

Lemma div2_bounds (a : Z) : 2 * Z.div2 a <= a <= 2 * Z.div2 a + 1.
Proof.
  rewrite Z.div2_div. pose proof (Z.div_mod a 2 ltac:(lia)).
  pose proof (Z.mod_pos_bound a 2 ltac:(lia)). lia.
Qed.

(** The square root of a number is a binary64 value. *)
Lemma SFsqrt_valid (x : spec_float) :
  valid_binary 53 1024 (SFsqrt 53 1024 x) = true.
Proof.
  destruct x as [s|[|]| |[|] m e]; try reflexivity.
  unfold SFsqrt, SFsqrt_core_binary.
  set (d := Zdigits2 (Z.pos m)).
  set (e' := Z.min (fexp 53 1024 (Z.div2 (d + e + 1))) (Z.div2 e)).
  set (s := e - 2 * e').
  pose proof (div2_bounds e) as He.
  pose proof (div2_bounds (d + e + 1)) as Hde.
  assert (0 <= s) as Hs by (unfold s, e'; lia).
  set (m' := match s with Z.pos _ => Z.shiftl (Z.pos m) s | 0 => Z.pos m | Z.neg _ => 0 end).
  assert (m' = Z.pos m * 2 ^ s) as Hm'.
  { unfold m'. destruct s as [|p|p]; [simpl; lia| |lia].
    apply Z.shiftl_mul_pow2. lia. }
  pose proof (Z.pow_pos_nonneg 2 s ltac:(lia) Hs) as Hp.
  assert (0 < m') as Hm'pos by (rewrite Hm'; nia).
  pose proof (Z.sqrtrem_spec m' ltac:(lia)) as Hsq.
  destruct (Z.sqrtrem m') as [q r]. destruct Hsq as [Hsq Hr].
  assert (0 < q) as Hq by nia.
  apply binary_round_aux_valid; [exact Hq|].
  unfold target.
  assert (Zdigits2 m' = d + s) as Hdm by (rewrite Hm'; apply Zdigits2_shift; lia).
  pose proof (Zdigits2_bounds q Hq) as [_ Hq2].
  pose proof (Zdigits2_pos q Hq) as Hdq.
  assert (Zdigits2 m' <= 2 * Zdigits2 q) as Hle.
  { apply Zdigits2_le; [lia|lia|].
    replace (2 * Zdigits2 q) with (Zdigits2 q + Zdigits2 q) by lia.
    rewrite Z.pow_add_r by lia. nia. }
  transitivity (fexp 53 1024 (Z.div2 (d + e + 1))); [unfold e'; lia|].
  apply fexp_mono. unfold s in Hdm. lia.
Qed.

(** ** The value of a number, on the grid of 2^-1074 *)

Lemma canonical_facts (s : bool) (m : positive) (e : Z) :
  valid_binary 53 1024 (S754_finite s m e) = true ->
  -1074 <= e <= 971 /\ Z.pos m < 2 ^ 53 /\ (-1074 < e -> 2 ^ 52 <= Z.pos m).
Proof.
  simpl. unfold bounded, canonical_mantissa. intros H.
  apply andb_true_iff in H as [Hc Hb]. apply Z.eqb_eq in Hc. apply Z.leb_le in Hb.
  rewrite fexp_eq in Hc. change (Z.pos (digits2_pos m)) with (Zdigits2 (Z.pos m)) in Hc.
  pose proof (Zdigits2_bounds (Z.pos m) ltac:(lia)) as [H1 H2].
  pose proof (Zdigits2_pos (Z.pos m) ltac:(lia)) as Hd.
  change (1024 - 53) with 971 in Hb.
  split; [lia|]. split.
  - assert (2 ^ Zdigits2 (Z.pos m) <= 2 ^ 53) by (apply Z.pow_le_mono_r; lia). lia.
  - intros Hgt. assert (Zdigits2 (Z.pos m) = 53) as E by lia. rewrite E in H1. exact H1.
Qed.

Lemma mag_pos (m : positive) (e : Z) : -1074 <= e -> 0 < mag m e.
Proof.
  intros He. unfold mag.
  pose proof (Z.pow_pos_nonneg 2 (e + 1074) ltac:(lia) ltac:(lia)). nia.
Qed.

Lemma mag_lt_huge (s : bool) (m : positive) (e : Z) :
  valid_binary 53 1024 (S754_finite s m e) = true -> mag m e < 2 ^ 2098.
Proof.
  intros H. destruct (canonical_facts s m e H) as (He & Hm & _).
  unfold mag.
  assert (2 ^ (e + 1074) <= 2 ^ 2045) by (apply Z.pow_le_mono_r; lia).
  pose proof (Z.pow_pos_nonneg 2 (e + 1074) ltac:(lia) ltac:(lia)).
  replace 2098 with (53 + 2045) by lia. rewrite (Z.pow_add_r 2 53 2045) by lia.
  revert Hm H0 H1. generalize (2 ^ 53) (2 ^ 2045) (2 ^ (e + 1074)). intros. nia.
Qed.

Lemma huge_big : 2 ^ 2098 < huge.
Proof. unfold huge. apply Z.pow_lt_mono_r; lia. Qed.

Lemma mag_compare (s1 s2 : bool) (m1 m2 : positive) (e1 e2 : Z) :
  valid_binary 53 1024 (S754_finite s1 m1 e1) = true ->
  valid_binary 53 1024 (S754_finite s2 m2 e2) = true ->
  match e1 ?= e2 with
  | Lt => Lt
  | Gt => Gt
  | Eq => Pos.compare_cont Eq m1 m2
  end = (mag m1 e1 ?= mag m2 e2).
Proof.
  intros H1 H2.
  destruct (canonical_facts s1 m1 e1 H1) as (He1 & Hm1 & Hn1).
  destruct (canonical_facts s2 m2 e2 H2) as (He2 & Hm2 & Hn2).
  unfold mag.
  assert (forall ma mb ea eb, Z.pos ma < 2 ^ 53 -> 2 ^ 52 <= Z.pos mb ->
            -1074 <= ea -> ea < eb ->
            Z.pos ma * 2 ^ (ea + 1074) < Z.pos mb * 2 ^ (eb + 1074)) as Hlt.
  { intros ma mb ea eb Ha Hb Hea Hab.
    replace (eb + 1074) with ((eb - ea - 1) + 1 + (ea + 1074)) by lia.
    rewrite (Z.pow_add_r 2 (eb - ea - 1 + 1) (ea + 1074)) by lia.
    rewrite (Z.pow_add_r 2 (eb - ea - 1) 1) by lia. rewrite Z.pow_1_r.
    pose proof (Z.pow_pos_nonneg 2 (eb - ea - 1) ltac:(lia) ltac:(lia)).
    pose proof (Z.pow_pos_nonneg 2 (ea + 1074) ltac:(lia) ltac:(lia)).
    change (2 ^ 53) with (2 * 2 ^ 52) in Ha.
    revert Ha Hb H H0. generalize (2 ^ 52) (2 ^ (eb - ea - 1)) (2 ^ (ea + 1074)).
    intros P A C Ha Hb HA HC.
    assert (Z.pos ma * C < 2 * Z.pos mb * C) by nia.
    assert (0 <= Z.pos mb * C) by nia.
    assert (2 * Z.pos mb * C <= Z.pos mb * (A * 2 * C)) by nia.
    lia. }
  destruct (Z.compare_spec e1 e2) as [E|L|G].
  - subst e2. rewrite Pos.compare_cont_spec.
    replace (Pos.switch_Eq Eq (m1 ?= m2)%positive) with (Z.pos m1 ?= Z.pos m2)
      by (simpl; destruct (m1 ?= m2)%positive; reflexivity).
    pose proof (Z.pow_pos_nonneg 2 (e1 + 1074) ltac:(lia) ltac:(lia)) as Hp.
    destruct (Z.compare_spec (Z.pos m1) (Z.pos m2)) as [E|L|G]; symmetry.
    + apply Z.compare_eq_iff. rewrite E. reflexivity.
    + apply Z.compare_lt_iff. nia.
    + apply Z.compare_gt_iff. nia.
  - symmetry. apply Z.compare_lt_iff. apply Hlt; [lia|apply Hn2; lia|lia|lia].
  - symmetry. apply Z.compare_gt_iff. apply Hlt; [lia|apply Hn1; lia|lia|lia].
Qed.

Ltac solve_compare :=
  f_equal; symmetry;
  first [ apply Z.compare_eq_iff; lia
        | apply Z.compare_lt_iff; lia
        | apply Z.compare_gt_iff; lia ].

(** The comparison of two binary64 values is the comparison of their values. *)
Lemma compare_val (x y : spec_float) :
  valid_binary 53 1024 x = true -> valid_binary 53 1024 y = true ->
  is_nan x = false -> is_nan y = false ->
  SFcompare x y = Some (val x ?= val y).
Proof.
  intros Hx Hy Nx Ny.
  pose proof huge_big as Hh. assert (0 < 2 ^ 2098) as Hp by (apply Z.pow_pos_nonneg; lia).
  destruct x as [sx|sx| |sx mx ex]; try discriminate;
    destruct y as [sy|sy| |sy my ey]; try discriminate; simpl SFcompare; simpl val.
  - reflexivity.
  - destruct sy; solve_compare.
  - pose proof (mag_pos my ey ltac:(apply (canonical_facts sy my ey Hy))).
    destruct sy; solve_compare.
  - destruct sx; solve_compare.
  - destruct sx, sy; solve_compare.
  - pose proof (mag_lt_huge sy my ey Hy).
    pose proof (mag_pos my ey ltac:(apply (canonical_facts sy my ey Hy))).
    destruct sx, sy; solve_compare.
  - pose proof (mag_pos mx ex ltac:(apply (canonical_facts sx mx ex Hx))).
    destruct sx; solve_compare.
  - pose proof (mag_lt_huge sx mx ex Hx).
    pose proof (mag_pos mx ex ltac:(apply (canonical_facts sx mx ex Hx))).
    destruct sx, sy; solve_compare.
  - pose proof (mag_pos mx ex ltac:(apply (canonical_facts sx mx ex Hx))).
    pose proof (mag_pos my ey ltac:(apply (canonical_facts sy my ey Hy))).
    destruct sx, sy; [| solve_compare | solve_compare |].
    + f_equal. rewrite Z.compare_opp.
      rewrite <- (mag_compare true true my mx ey ex Hy Hx).
      rewrite (Z.compare_antisym ey ex), !Pos.compare_cont_spec.
      rewrite (Pos.compare_antisym my mx).
      destruct (ey ?= ex); simpl; try reflexivity.
      destruct (my ?= mx)%positive; reflexivity.
    + f_equal. apply (mag_compare false false mx my ex ey Hx Hy).
Qed.

(** ** Rounding is monotone *)

Lemma rne_pos (M n : Z) :
  0 < n ->
  rne M n =
  let q := M / 2 ^ n in
  let r := M mod 2 ^ n in
  if 2 * r <? 2 ^ n then q
  else if 2 ^ n <? 2 * r then q + 1
  else if Z.even q then q else q + 1.
Proof. intros Hn. unfold rne. destruct (Z.leb_spec n 0); [lia|reflexivity]. Qed.

Lemma rne_bounds (M n : Z) : 0 < n -> M / 2 ^ n <= rne M n <= M / 2 ^ n + 1.
Proof.
  intros Hn. rewrite rne_pos by exact Hn. cbv zeta.
  destruct (_ <? _); [lia|]. destruct (_ <? _); [lia|]. destruct (Z.even _); lia.
Qed.

(** A multiple of [2^n] is rounded to its quotient. *)
Lemma rne_exact (q n : Z) : 0 < n -> rne (q * 2 ^ n) n = q.
Proof.
  intros Hn. rewrite rne_pos by exact Hn. cbv zeta.
  pose proof (Z.pow_pos_nonneg 2 n ltac:(lia) ltac:(lia)) as Hp.
  rewrite Z.div_mul by lia. rewrite Z.mod_mul by lia.
  assert ((2 * 0 <? 2 ^ n) = true) as -> by (apply Z.ltb_lt; lia). reflexivity.
Qed.

Lemma rne_scale (M n k : Z) :
  0 < n -> 0 <= k -> rne (M * 2 ^ k) (n + k) = rne M n.
Proof.
  intros Hn Hk. rewrite !rne_pos by lia. cbv zeta.
  pose proof (Z.pow_pos_nonneg 2 n ltac:(lia) ltac:(lia)) as Hp.
  pose proof (Z.pow_pos_nonneg 2 k ltac:(lia) ltac:(lia)) as Hpk.
  rewrite Z.pow_add_r by lia.
  rewrite Z.div_mul_cancel_r by lia.
  rewrite Z.mul_mod_distr_r by lia.
  pose proof (Z.mod_pos_bound M (2 ^ n) Hp) as Hb.
  revert Hb. generalize (M mod 2 ^ n) (M / 2 ^ n). intros r q Hb.
  revert Hp Hpk. generalize (2 ^ n) (2 ^ k). intros N K HN HK.
  destruct (Z.ltb_spec (2 * (r * K)) (N * K)), (Z.ltb_spec (2 * r) N); try nia; try reflexivity.
  destruct (Z.ltb_spec (N * K) (2 * (r * K))), (Z.ltb_spec N (2 * r)); try nia; reflexivity.
Qed.

Lemma rne_mono (M1 M2 n : Z) :
  0 < n -> M1 <= M2 -> rne M1 n <= rne M2 n.
Proof.
  intros Hn Hle.
  pose proof (Z.pow_pos_nonneg 2 n ltac:(lia) ltac:(lia)) as Hp.
  assert (M1 / 2 ^ n <= M2 / 2 ^ n) as Hq by (apply Z.div_le_mono; lia).
  destruct (Z.eq_dec (M1 / 2 ^ n) (M2 / 2 ^ n)) as [E|N].
  - rewrite !rne_pos by exact Hn. cbv zeta. rewrite E.
    pose proof (Z.div_mod M1 (2 ^ n) ltac:(lia)) as D1.
    pose proof (Z.div_mod M2 (2 ^ n) ltac:(lia)) as D2.
    rewrite E in D1.
    assert (M1 mod 2 ^ n <= M2 mod 2 ^ n) as Hr by lia.
    revert Hr. generalize (M1 mod 2 ^ n). generalize (M2 mod 2 ^ n).
    generalize (M2 / 2 ^ n). generalize (2 ^ n).
    intros N q r2 r1 Hr.
    destruct (Z.ltb_spec (2 * r1) N), (Z.ltb_spec (2 * r2) N); try lia;
      destruct (Z.ltb_spec N (2 * r1)), (Z.ltb_spec N (2 * r2)); try lia;
      destruct (Z.even q); lia.
  - pose proof (rne_bounds M1 n Hn). pose proof (rne_bounds M2 n Hn). lia.
Qed.

Lemma rnd_scale (M n k : Z) :
  0 <= k -> rnd (M * 2 ^ k) (n + k) = rnd M n.
Proof.
  intros Hk. unfold rnd.
  pose proof (Z.pow_pos_nonneg 2 k ltac:(lia) ltac:(lia)) as Hpk.
  destruct (Z.leb_spec (n + k) 0) as [H1|H1], (Z.leb_spec n 0) as [H2|H2]; try lia.
  - replace (- n) with (k + - (n + k)) by lia.
    rewrite Z.pow_add_r by lia. ring.
  - replace (M * 2 ^ k) with (M * 2 ^ (- n) * 2 ^ (n + k)).
    + apply rne_exact. lia.
    + rewrite <- Z.mul_assoc, <- Z.pow_add_r by lia. f_equal. f_equal. lia.
  - apply rne_scale; lia.
Qed.

Lemma rnd_mono (M1 M2 n : Z) : M1 <= M2 -> rnd M1 n <= rnd M2 n.
Proof.
  intros Hle. unfold rnd. destruct (Z.leb_spec n 0) as [H|H].
  - pose proof (Z.pow_pos_nonneg 2 (- n) ltac:(lia) ltac:(lia)). nia.
  - apply rne_mono; lia.
Qed.

(** The rounded mantissa has at most 53 bits, and exactly 53 above the
    smallest exponent. *)
Lemma rnd_range (M e : Z) :
  0 < M ->
  let t := target M e in
  0 <= rnd M (t - e) <= 2 ^ 53 /\ (-1074 < t -> 2 ^ 52 <= rnd M (t - e)).
Proof.
  intros HM t.
  pose proof (Zdigits2_bounds M HM) as [Hd1 Hd2].
  pose proof (Zdigits2_pos M HM) as Hd.
  assert (t = Z.max (Zdigits2 M + e - 53) (-1074)) as Ht by reflexivity.
  set (d := Zdigits2 M) in *.
  unfold rnd. destruct (Z.leb_spec (t - e) 0) as [H|H].
  - pose proof (Z.pow_pos_nonneg 2 (- (t - e)) ltac:(lia) ltac:(lia)) as Hp.
    assert (2 ^ d * 2 ^ (- (t - e)) <= 2 ^ 53) as Hup.
    { rewrite <- Z.pow_add_r by lia. apply Z.pow_le_mono_r; lia. }
    split; [nia|]. intros Hn.
    assert (2 ^ 52 = 2 ^ (d - 1) * 2 ^ (- (t - e))) as ->.
    { rewrite <- Z.pow_add_r by lia. f_equal. lia. }
    nia.
  - pose proof (Z.pow_pos_nonneg 2 (t - e) ltac:(lia) ltac:(lia)) as Hp.
    pose proof (rne_bounds M (t - e) H) as Hb.
    assert (M / 2 ^ (t - e) < 2 ^ 53) as Hq0.
    { apply Z.div_lt_upper_bound; [exact Hp|].
      rewrite <- Z.pow_add_r by lia.
      assert (2 ^ d <= 2 ^ (t - e + 53)) by (apply Z.pow_le_mono_r; lia). lia. }
    assert (0 <= M / 2 ^ (t - e)) by (apply Z.div_pos; lia).
    split; [lia|]. intros Hn.
    assert (2 ^ 52 <= M / 2 ^ (t - e)); [|lia].
    apply Z.div_le_lower_bound; [exact Hp|].
    rewrite <- Z.pow_add_r by lia. replace (t - e + 52) with (d - 1) by lia. exact Hd1.
Qed.

Lemma target_scale (M e k : Z) :
  0 < M -> 0 <= k -> target (M * 2 ^ k) (e - k) = target M e.
Proof.
  intros HM Hk. unfold target. rewrite Zdigits2_shift by lia. f_equal. lia.
Qed.

Lemma raw_scale (M e k : Z) :
  0 < M -> 0 <= k -> raw (M * 2 ^ k) (e - k) = raw M e.
Proof.
  intros HM Hk. unfold raw. rewrite target_scale by lia.
  replace (target M e - (e - k)) with (target M e - e + k) by lia.
  rewrite rnd_scale by lia. reflexivity.
Qed.

Lemma Zdigits2_mono (M1 M2 : Z) : 0 < M1 -> M1 <= M2 -> Zdigits2 M1 <= Zdigits2 M2.
Proof.
  intros H1 H2. rewrite !Zdigits2_log2 by lia.
  pose proof (Z.log2_le_mono M1 M2 H2). lia.
Qed.

Lemma raw_mono_same (M1 M2 e : Z) :
  0 < M1 -> M1 <= M2 -> raw M1 e <= raw M2 e.
Proof.
  intros H1 H2. unfold raw.
  pose proof (Zdigits2_mono M1 M2 H1 H2) as Hd.
  assert (target M1 e <= target M2 e) as Ht by (apply fexp_mono; lia).
  pose proof (rnd_range M1 e H1) as (R1 & _).
  pose proof (rnd_range M2 e ltac:(lia)) as (R2 & N2).
  cbv zeta in *.
  pose proof (fexp_ge (Zdigits2 M1 + e)) as G1. fold (target M1 e) in G1.
  set (t1 := target M1 e) in *. set (t2 := target M2 e) in *.
  pose proof (Z.pow_pos_nonneg 2 (t1 + 1074) ltac:(lia) ltac:(lia)) as Hp1.
  destruct (Z.eq_dec t1 t2) as [E|N].
  - rewrite <- E in *. pose proof (rnd_mono M1 M2 (t1 - e) H2). nia.
  - specialize (N2 ltac:(lia)).
    replace (t2 + 1074) with ((t2 - t1 - 1) + 1 + (t1 + 1074)) by lia.
    rewrite (Z.pow_add_r 2 (t2 - t1 - 1 + 1) (t1 + 1074)) by lia.
    rewrite (Z.pow_add_r 2 (t2 - t1 - 1) 1) by lia. rewrite Z.pow_1_r.
    pose proof (Z.pow_pos_nonneg 2 (t2 - t1 - 1) ltac:(lia) ltac:(lia)) as Hp2.
    change (2 ^ 53) with (2 * 2 ^ 52) in R1.
    assert (0 < 2 ^ 52) as HP by lia.
    revert R1 N2 Hp1 Hp2 HP.
    generalize (rnd M1 (t1 - e)) (rnd M2 (t2 - e)) (2 ^ 52) (2 ^ (t1 + 1074)) (2 ^ (t2 - t1 - 1)).
    intros a b P C A R1 N2 HC HA HP.
    assert (a * C <= 2 * P * C) by nia.
    assert (2 * P * C <= 2 * b * C) by nia.
    assert (0 <= b * C) by nia.
    assert (2 * b * C <= b * (A * 2 * C)) by nia.
    lia.
Qed.

(** Rounding is monotone in the value rounded, whatever the exponents the
    two values are given with. *)
Lemma raw_mono (M1 e1 M2 e2 e0 : Z) :
  0 < M1 -> 0 < M2 -> e0 <= e1 -> e0 <= e2 ->
  M1 * 2 ^ (e1 - e0) <= M2 * 2 ^ (e2 - e0) ->
  raw M1 e1 <= raw M2 e2.
Proof.
  intros H1 H2 L1 L2 Hle.
  rewrite <- (raw_scale M1 e1 (e1 - e0)) by lia.
  rewrite <- (raw_scale M2 e2 (e2 - e0)) by lia.
  replace (e1 - (e1 - e0)) with e0 by lia. replace (e2 - (e2 - e0)) with e0 by lia.
  apply raw_mono_same; [|exact Hle].
  pose proof (Z.pow_pos_nonneg 2 (e1 - e0) ltac:(lia) ltac:(lia)). nia.
Qed.

(** ** The value of a rounded result *)

Lemma cap_mono (a b : Z) : a <= b -> cap a <= cap b.
Proof.
  intros H. unfold cap. pose proof huge_big.
  destruct (Z.ltb_spec a (2 ^ 2098)), (Z.ltb_spec b (2 ^ 2098)); lia.
Qed.

Lemma pow_split (a b : Z) : 0 <= a -> 0 <= b -> 2 ^ (a + b) = 2 ^ a * 2 ^ b.
Proof. intros. apply Z.pow_add_r; assumption. Qed.

Lemma val_build (s : bool) (M e : Z) :
  0 < M ->
  val (build s (round_pair M e)) = (if s then - cap (raw M e) else cap (raw M e))
  /\ valid_binary 53 1024 (build s (round_pair M e)) = true
  /\ is_nan (build s (round_pair M e)) = false.
Proof.
  intros HM. unfold round_pair, raw.
  destruct (rnd_range M e HM) as (Hq & Hn). cbv zeta in Hq, Hn.
  pose proof (fexp_ge (Zdigits2 M + e)) as Ht. fold (target M e) in Ht.
  set (t := target M e) in *. set (q := rnd M (t - e)) in *.
  split; [|split; [apply build_valid; assumption|]].
  - unfold carry, build, cap.
    pose proof (Z.pow_pos_nonneg 2 (t + 1074) ltac:(lia) ltac:(lia)) as Hp.
    destruct (Z.eqb_spec q (2 ^ 53)) as [Eq|Nq].
    + cbn [fst snd]. change (2 ^ 52) with (Z.pos 4503599627370496). cbv iota beta.
      rewrite Eq.
      destruct (Z.leb_spec (t + 1) 971) as [L|L]; cbn [val].
      * unfold mag. replace (t + 1 + 1074) with (1 + (t + 1074)) by lia.
        rewrite (pow_split 1 (t + 1074)) by lia.
        change (Z.pos 4503599627370496 * (2 ^ 1 * 2 ^ (t + 1074)))
          with (2 ^ 52 * (2 ^ 1 * 2 ^ (t + 1074))).
        assert (2 ^ 53 * 2 ^ (t + 1074) < 2 ^ 2098) as Hlt.
        { rewrite <- pow_split by lia. apply Z.pow_lt_mono_r; lia. }
        destruct (Z.ltb_spec (2 ^ 53 * 2 ^ (t + 1074)) (2 ^ 2098)); [|lia].
        change (2 ^ 53) with (2 ^ 52 * 2 ^ 1). destruct s; ring.
      * assert (2 ^ 2098 <= 2 ^ 53 * 2 ^ (t + 1074)) as Hge.
        { rewrite <- pow_split by lia. apply Z.pow_le_mono_r; lia. }
        destruct (Z.ltb_spec (2 ^ 53 * 2 ^ (t + 1074)) (2 ^ 2098)); [lia|].
        destruct s; reflexivity.
    + cbn [fst snd]. destruct q as [|m|m] eqn:Eqm; [|rewrite <- Eqm in *|lia].
      * cbn [val]. simpl. destruct s; reflexivity.
      * destruct (Z.leb_spec t 971) as [L|L]; cbn [val].
        -- unfold mag. rewrite <- Eqm.
           assert (q * 2 ^ (t + 1074) < 2 ^ 2098) as Hlt.
           { assert (2 ^ (t + 1074) <= 2 ^ 2045) by (apply Z.pow_le_mono_r; lia).
             replace 2098 with (53 + 2045) by lia. rewrite (pow_split 53 2045) by lia.
             assert (q < 2 ^ 53) by lia.
             assert (0 < 2 ^ 53) by lia.
             revert H H0 H1 Hp. generalize (2 ^ 53) (2 ^ 2045) (2 ^ (t + 1074)).
             intros. nia. }
           destruct (Z.ltb_spec (q * 2 ^ (t + 1074)) (2 ^ 2098)); [|lia].
           destruct s; reflexivity.
        -- assert (2 ^ 2098 <= q * 2 ^ (t + 1074)) as Hge.
           { assert (2 ^ 2046 <= 2 ^ (t + 1074)) by (apply Z.pow_le_mono_r; lia).
             specialize (Hn ltac:(lia)).
             replace 2098 with (52 + 2046) by lia. rewrite (pow_split 52 2046) by lia.
             assert (0 < 2 ^ 52) by lia. assert (0 < 2 ^ 2046) by (apply Z.pow_pos_nonneg; lia).
             revert H Hn H0 H1. generalize (2 ^ 52) (2 ^ 2046) (2 ^ (t + 1074)).
             intros. nia. }
           destruct (Z.ltb_spec (q * 2 ^ (t + 1074)) (2 ^ 2098)); [lia|].
           destruct s; reflexivity.
  - unfold carry, build.
    destruct (Z.eqb_spec q (2 ^ 53)) as [Eq|Nq]; cbn [fst snd].
    + change (2 ^ 52) with (Z.pos 4503599627370496). cbv iota beta.
      destruct (_ <=? _); reflexivity.
    + destruct q as [|m|m]; [reflexivity| |lia]. destruct (_ <=? _); reflexivity.
Qed.

Lemma raw_nonneg (M e : Z) : 0 < M -> 0 <= raw M e.
Proof.
  intros HM. unfold raw. destruct (rnd_range M e HM) as (Hq & _). cbv zeta in Hq.
  pose proof (fexp_ge (Zdigits2 M + e)) as Ht. fold (target M e) in Ht.
  pose proof (Z.pow_pos_nonneg 2 (target M e + 1074) ltac:(lia) ltac:(lia)). nia.
Qed.

Lemma cap_nonneg (v : Z) : 0 <= v -> 0 <= cap v.
Proof. intros H. unfold cap, huge. destruct (_ <? _); [lia|]. apply Z.pow_nonneg. lia. Qed.

Lemma rz0_mono (V1 V2 e : Z) : V1 <= V2 -> rz0 V1 e <= rz0 V2 e.
Proof.
  intros H. unfold rz0.
  destruct (Z.eqb_spec V1 0), (Z.eqb_spec V2 0); try lia;
    destruct (Z.ltb_spec 0 V1), (Z.ltb_spec 0 V2); try lia.
  - apply cap_nonneg, raw_nonneg. lia.
  - pose proof (cap_nonneg (raw (- V1) e) (raw_nonneg (- V1) e ltac:(lia))). lia.
  - apply cap_mono, raw_mono_same; lia.
  - pose proof (cap_nonneg (raw (- V1) e) (raw_nonneg (- V1) e ltac:(lia))).
    pose proof (cap_nonneg (raw V2 e) (raw_nonneg V2 e ltac:(lia))). lia.
  - pose proof (cap_mono (raw (- V2) e) (raw (- V1) e)
                  (raw_mono_same (- V2) (- V1) e ltac:(lia) ltac:(lia))). lia.
Qed.

Lemma rz0_scale (V e k : Z) : 0 <= k -> rz0 (V * 2 ^ k) (e - k) = rz0 V e.
Proof.
  intros Hk. unfold rz0.
  pose proof (Z.pow_pos_nonneg 2 k ltac:(lia) Hk) as Hp.
  destruct (Z.eqb_spec V 0) as [->|N].
  - simpl. reflexivity.
  - destruct (Z.eqb_spec (V * 2 ^ k) 0) as [E|_]; [nia|].
    destruct (Z.ltb_spec 0 V), (Z.ltb_spec 0 (V * 2 ^ k)); try nia.
    + rewrite raw_scale by lia. reflexivity.
    + replace (- (V * 2 ^ k)) with (- V * 2 ^ k) by ring.
      rewrite raw_scale by lia. reflexivity.
Qed.

Lemma val_binary_normalize (D e : Z) :
  val (binary_normalize 53 1024 D e false) = rz0 D e
  /\ valid_binary 53 1024 (binary_normalize 53 1024 D e false) = true
  /\ is_nan (binary_normalize 53 1024 D e false) = false.
Proof.
  unfold binary_normalize, rz0. destruct D as [|p|p].
  - repeat split.
  - rewrite binary_round_value.
    destruct (val_build false (Z.pos p) e ltac:(lia)) as (V & Hv & Hn).
    repeat split; assumption.
  - rewrite binary_round_value.
    destruct (val_build true (Z.pos p) e ltac:(lia)) as (V & Hv & Hn).
    repeat split; assumption.
Qed.

(** ** The operations on values *)

Lemma target_canonical (s : bool) (m : positive) (e : Z) :
  valid_binary 53 1024 (S754_finite s m e) = true -> target (Z.pos m) e = e.
Proof.
  simpl. unfold bounded, canonical_mantissa. intros H.
  apply andb_true_iff in H as [Hc _]. apply Z.eqb_eq in Hc. exact Hc.
Qed.

Lemma raw_canonical (s : bool) (m : positive) (e : Z) :
  valid_binary 53 1024 (S754_finite s m e) = true -> raw (Z.pos m) e = mag m e.
Proof.
  intros H. unfold raw. rewrite (target_canonical s m e H).
  rewrite Z.sub_diag. unfold rnd. simpl (0 <=? 0). cbv iota.
  change (2 ^ (- 0)) with 1. rewrite Z.mul_1_r. reflexivity.
Qed.

Lemma cap_small (v : Z) : v < 2 ^ 2098 -> cap v = v.
Proof. intros H. unfold cap. destruct (Z.ltb_spec v (2 ^ 2098)); [reflexivity|lia]. Qed.

Lemma rz0_mag (s : bool) (m : positive) (e : Z) :
  valid_binary 53 1024 (S754_finite s m e) = true ->
  cap (raw (mag m e) (-1074)) = mag m e.
Proof.
  intros H. destruct (canonical_facts s m e H) as (He & _).
  unfold mag at 1. replace (-1074) with (e - (e + 1074)) by lia.
  rewrite raw_scale by lia. rewrite (raw_canonical s m e H).
  apply cap_small, (mag_lt_huge s m e H).
Qed.

(** A binary64 value is its own rounding. *)
Lemma rz0_val (x : spec_float) :
  valid_binary 53 1024 x = true -> finite_or_zero x = true ->
  rz0 (val x) (-1074) = val x.
Proof.
  intros Hv Hf. destruct x as [s|s| |s m e]; try discriminate; [reflexivity|].
  destruct (canonical_facts s m e Hv) as (He & _).
  pose proof (mag_pos m e ltac:(lia)) as Hp.
  unfold rz0. simpl val. destruct s.
  - destruct (Z.eqb_spec (- mag m e) 0); [lia|].
    destruct (Z.ltb_spec 0 (- mag m e)); [lia|].
    rewrite Z.opp_involutive. rewrite (rz0_mag true m e Hv). reflexivity.
  - destruct (Z.eqb_spec (mag m e) 0); [lia|].
    destruct (Z.ltb_spec 0 (mag m e)); [|lia].
    apply (rz0_mag false m e Hv).
Qed.

Lemma rz0_opp (V e : Z) : rz0 (- V) e = - rz0 V e.
Proof.
  unfold rz0.
  destruct (Z.eqb_spec V 0), (Z.eqb_spec (- V) 0); try lia.
  destruct (Z.ltb_spec 0 V), (Z.ltb_spec 0 (- V)); try lia.
  rewrite Z.opp_involutive. lia.
Qed.

Lemma val_opp (x : spec_float) : val (SFopp x) = - val x.
Proof. destruct x as [s|[|]| |[|] m e]; cbn [val SFopp negb]; lia. Qed.

Lemma aligned_mantissa (m : positive) (e ez : Z) :
  ez <= e -> -1074 <= ez ->
  Z.pos (fst (shl_align m e ez)) * 2 ^ (ez + 1074) = mag m e.
Proof.
  intros H1 H2. destruct (shl_align_value m e ez) as [Hm _]. rewrite Hm.
  replace (Z.min e ez) with ez by lia. unfold mag.
  rewrite <- Z.mul_assoc, <- pow_split by lia. f_equal. f_equal. lia.
Qed.

Lemma cond_Zopp_val (s : bool) (m : positive) (e : Z) (a : Z) :
  a = mag m e -> cond_Zopp s a = val (S754_finite s m e).
Proof. intros ->. destruct s; reflexivity. Qed.

Lemma cond_Zopp_mul (s : bool) (a k : Z) : cond_Zopp s a * k = cond_Zopp s (a * k).
Proof. destruct s; simpl; ring. Qed.

(** Addition: the rounding of the exact sum. *)
Lemma add_val (x y : spec_float) :
  valid_binary 53 1024 x = true -> valid_binary 53 1024 y = true ->
  finite_or_zero x = true -> finite_or_zero y = true ->
  val (SFadd 53 1024 x y) = rz0 (val x + val y) (-1074)
  /\ valid_binary 53 1024 (SFadd 53 1024 x y) = true
  /\ is_nan (SFadd 53 1024 x y) = false.
Proof.
  intros Hx Hy Fx Fy.
  destruct x as [sx|sx| |sx mx ex]; try discriminate;
    destruct y as [sy|sy| |sy my ey]; try discriminate.
  - destruct sx, sy; repeat split.
  - simpl SFadd. simpl (val (S754_zero sx)). rewrite Z.add_0_l.
    rewrite rz0_val by assumption. repeat split. exact Hy.
  - simpl SFadd. simpl (val (S754_zero sy)). rewrite Z.add_0_r.
    rewrite rz0_val by assumption. repeat split. exact Hx.
  - unfold SFadd.
    destruct (canonical_facts sx mx ex Hx) as (Hex & _).
    destruct (canonical_facts sy my ey Hy) as (Hey & _).
    set (ez := Z.min ex ey).
    destruct (val_binary_normalize
                (cond_Zopp sx (Z.pos (fst (shl_align mx ex ez)))
                 + cond_Zopp sy (Z.pos (fst (shl_align my ey ez)))) ez) as (V & Hv & Hn).
    split; [|split; assumption]. rewrite V.
    rewrite <- (rz0_scale _ ez (ez + 1074)) by (unfold ez; lia).
    replace (ez - (ez + 1074)) with (-1074) by lia. f_equal.
    rewrite Z.mul_add_distr_r, !cond_Zopp_mul.
    rewrite !aligned_mantissa by (unfold ez; lia).
    destruct sx, sy; reflexivity.
Qed.

(** Subtraction: the rounding of the exact difference. *)
Lemma sub_val (x y : spec_float) :
  valid_binary 53 1024 x = true -> valid_binary 53 1024 y = true ->
  finite_or_zero x = true -> finite_or_zero y = true ->
  val (SFsub 53 1024 x y) = rz0 (val x - val y) (-1074)
  /\ valid_binary 53 1024 (SFsub 53 1024 x y) = true
  /\ is_nan (SFsub 53 1024 x y) = false.
Proof.
  intros Hx Hy Fx Fy.
  destruct x as [sx|sx| |sx mx ex]; try discriminate;
    destruct y as [sy|sy| |sy my ey]; try discriminate.
  - destruct sx, sy; repeat split.
  - simpl SFsub. simpl (val (S754_zero sx)). rewrite Z.sub_0_l.
    rewrite rz0_opp, rz0_val by assumption.
    split; [destruct sy; simpl; lia|]. split; [exact Hy|reflexivity].
  - simpl SFsub. simpl (val (S754_zero sy)). rewrite Z.sub_0_r.
    rewrite rz0_val by assumption. repeat split. exact Hx.
  - unfold SFsub.
    destruct (canonical_facts sx mx ex Hx) as (Hex & _).
    destruct (canonical_facts sy my ey Hy) as (Hey & _).
    set (ez := Z.min ex ey).
    destruct (val_binary_normalize
                (cond_Zopp sx (Z.pos (fst (shl_align mx ex ez)))
                 - cond_Zopp sy (Z.pos (fst (shl_align my ey ez)))) ez) as (V & Hv & Hn).
    split; [|split; assumption]. rewrite V.
    rewrite <- (rz0_scale _ ez (ez + 1074)) by (unfold ez; lia).
    replace (ez - (ez + 1074)) with (-1074) by lia. f_equal.
    rewrite Z.mul_sub_distr_r, !cond_Zopp_mul.
    rewrite !aligned_mantissa by (unfold ez; lia).
    destruct sx, sy; reflexivity.
Qed.

Lemma Zdigits2_mul (a b : Z) :
  0 < a -> 0 < b -> Zdigits2 a + Zdigits2 b - 1 <= Zdigits2 (a * b).
Proof.
  intros Ha Hb.
  pose proof (Zdigits2_bounds a Ha) as [A1 _]. pose proof (Zdigits2_bounds b Hb) as [B1 _].
  pose proof (Zdigits2_pos a Ha). pose proof (Zdigits2_pos b Hb).
  apply Zdigits2_ge; [nia|].
  replace (Zdigits2 a + Zdigits2 b - 1 - 1) with ((Zdigits2 a - 1) + (Zdigits2 b - 1)) by lia.
  rewrite pow_split by lia.
  pose proof (Z.pow_pos_nonneg 2 (Zdigits2 a - 1) ltac:(lia) ltac:(lia)).
  pose proof (Z.pow_pos_nonneg 2 (Zdigits2 b - 1) ltac:(lia) ltac:(lia)).
  nia.
Qed.

Lemma canonical_digits (s : bool) (m : positive) (e : Z) :
  valid_binary 53 1024 (S754_finite s m e) = true ->
  -1074 <= e /\ Zdigits2 (Z.pos m) <= 53 /\ (-1074 < e -> Zdigits2 (Z.pos m) = 53).
Proof.
  intros H. pose proof (target_canonical s m e H) as Ht.
  unfold target in Ht. rewrite fexp_eq in Ht.
  pose proof (Zdigits2_pos (Z.pos m) ltac:(lia)). lia.
Qed.

(** The exact product of two binary64 values is aligned for rounding. *)
Lemma mul_aligned (sx sy : bool) (mx my : positive) (ex ey : Z) :
  valid_binary 53 1024 (S754_finite sx mx ex) = true ->
  valid_binary 53 1024 (S754_finite sy my ey) = true ->
  ex + ey <= target (Z.pos mx * Z.pos my) (ex + ey).
Proof.
  intros Hx Hy.
  destruct (canonical_digits sx mx ex Hx) as (Ex & Dx & Nx).
  destruct (canonical_digits sy my ey Hy) as (Ey & Dy & Ny).
  pose proof (Zdigits2_mul (Z.pos mx) (Z.pos my) ltac:(lia) ltac:(lia)) as Hd.
  pose proof (Zdigits2_pos (Z.pos mx) ltac:(lia)).
  pose proof (Zdigits2_pos (Z.pos my) ltac:(lia)).
  unfold target. rewrite fexp_eq.
  destruct (Z.eq_dec ex (-1074)) as [->|Hx'], (Z.eq_dec ey (-1074)) as [->|Hy']; lia.
Qed.

(** Multiplication: the rounding of the exact product, counted in units
    of 2^-2148. *)
Lemma mul_val (x y : spec_float) :
  valid_binary 53 1024 x = true -> valid_binary 53 1024 y = true ->
  finite_or_zero x = true -> finite_or_zero y = true ->
  val (SFmul 53 1024 x y) = rz0 (val x * val y) (-2148)
  /\ valid_binary 53 1024 (SFmul 53 1024 x y) = true
  /\ is_nan (SFmul 53 1024 x y) = false.
Proof.
  intros Hx Hy Fx Fy.
  destruct x as [sx|sx| |sx mx ex]; try discriminate;
    destruct y as [sy|sy| |sy my ey]; try discriminate.
  - repeat split.
  - repeat split.
  - simpl SFmul. cbn [val]. rewrite Z.mul_0_r. repeat split.
  - unfold SFmul.
    destruct (canonical_facts sx mx ex Hx) as (Hex & _).
    destruct (canonical_facts sy my ey Hy) as (Hey & _).
    change (Z.pos (mx * my)) with (Z.pos mx * Z.pos my).
    rewrite binary_round_aux_exact by (try apply (mul_aligned sx sy); try assumption; lia).
    destruct (val_build (xorb sx sy) (Z.pos mx * Z.pos my) (ex + ey) ltac:(lia))
      as (V & Hv & Hn).
    split; [|split; assumption]. rewrite V.
    pose proof (mag_pos mx ex ltac:(lia)) as Px. pose proof (mag_pos my ey ltac:(lia)) as Py.
    assert (raw (Z.pos mx * Z.pos my) (ex + ey) = raw (mag mx ex * mag my ey) (-2148)) as ->.
    { rewrite <- (raw_scale (Z.pos mx * Z.pos my) (ex + ey) (ex + ey + 2148)) by lia.
      f_equal; [|lia]. unfold mag.
      replace (ex + ey + 2148) with ((ex + 1074) + (ey + 1074)) by lia.
      rewrite pow_split by lia. ring. }
    unfold rz0. cbn [val].
    destruct sx, sy; cbn [xorb].
    + replace (- mag mx ex * - mag my ey) with (mag mx ex * mag my ey) by ring.
      destruct (Z.eqb_spec (mag mx ex * mag my ey) 0); [nia|].
      destruct (Z.ltb_spec 0 (mag mx ex * mag my ey)); [reflexivity|nia].
    + destruct (Z.eqb_spec (- mag mx ex * mag my ey) 0); [nia|].
      destruct (Z.ltb_spec 0 (- mag mx ex * mag my ey)); [nia|].
      f_equal. f_equal. f_equal. ring.
    + destruct (Z.eqb_spec (mag mx ex * - mag my ey) 0); [nia|].
      destruct (Z.ltb_spec 0 (mag mx ex * - mag my ey)); [nia|].
      f_equal. f_equal. f_equal. ring.
    + destruct (Z.eqb_spec (mag mx ex * mag my ey) 0); [nia|].
      destruct (Z.ltb_spec 0 (mag mx ex * mag my ey)); [reflexivity|nia].
Qed.

(** ** Numbers in order *)

Lemma huge_pos : 0 < huge.
Proof. unfold huge. apply Z.pow_pos_nonneg; lia. Qed.

Lemma val_finite_range (x : JS.number) :
  is_number x -> finite_or_zero x = true -> - 2 ^ 2098 < val x < 2 ^ 2098.
Proof.
  intros Hx Hf. assert (0 < 2 ^ 2098) by (apply Z.pow_pos_nonneg; lia).
  destruct x as [s|s| |s m e]; try discriminate; cbn [val]; [lia|].
  pose proof (mag_lt_huge s m e Hx).
  pose proof (mag_pos m e ltac:(apply (canonical_facts s m e Hx))).
  destruct s; lia.
Qed.

Lemma val_range (x : JS.number) : is_number x -> - huge <= val x <= huge.
Proof.
  intros Hx. pose proof huge_big. pose proof huge_pos.
  destruct x as [s|[|]| |s m e]; cbn [val]; try lia.
  pose proof (val_finite_range (S754_finite s m e) Hx eq_refl) as H'.
  cbn [val] in H'. lia.
Qed.

Lemma val_huge (x : JS.number) :
  is_number x -> is_nan x = false -> val x = huge -> x = S754_infinity false.
Proof.
  intros Hx Hn Hv. pose proof huge_big. pose proof huge_pos.
  destruct x as [s|[|]| |s m e]; try discriminate; cbn [val] in Hv; try lia.
  - reflexivity.
  - pose proof (val_finite_range (S754_finite s m e) Hx eq_refl) as H'.
    cbn [val] in H'. lia.
Qed.

Lemma val_neg_huge (x : JS.number) :
  is_number x -> is_nan x = false -> val x = - huge -> x = S754_infinity true.
Proof.
  intros Hx Hn Hv. pose proof huge_big. pose proof huge_pos.
  destruct x as [s|[|]| |s m e]; try discriminate; cbn [val] in Hv; try lia.
  - reflexivity.
  - pose proof (val_finite_range (S754_finite s m e) Hx eq_refl) as H'.
    cbn [val] in H'. lia.
Qed.

Lemma not_finite_cases (x : JS.number) :
  is_nan x = false -> finite_or_zero x = false ->
  x = S754_infinity false \/ x = S754_infinity true.
Proof. destruct x as [s|[|]| |s m e]; try discriminate; auto. Qed.

(** [x > y] and [x <= y] on binary64 values, by their values. *)
Lemma gt_val (x y : JS.number) :
  is_number x -> is_number y ->
  JS.gt x y = true <-> (is_nan x = false /\ is_nan y = false /\ val y < val x).
Proof.
  intros Hx Hy. unfold JS.gt.
  destruct (is_nan x) eqn:Nx.
  { destruct x; try discriminate. simpl. split; [discriminate|intros (? & _); discriminate]. }
  destruct (is_nan y) eqn:Ny.
  { destruct y; try discriminate. destruct x; simpl; split;
      try discriminate; intros (_ & ? & _); discriminate. }
  rewrite (compare_val x y Hx Hy Nx Ny).
  destruct (Z.compare_spec (val x) (val y)); split; try discriminate; try lia;
    try (intros (_ & _ & ?); lia); auto.
Qed.

Lemma le_val (x y : JS.number) :
  is_number x -> is_number y ->
  JS.le x y = true <-> ordered x y.
Proof.
  intros Hx Hy. unfold JS.le, SFleb, ordered.
  destruct (is_nan x) eqn:Nx.
  { destruct x; try discriminate. simpl. split; [discriminate|intros (_ & _ & ? & _); discriminate]. }
  destruct (is_nan y) eqn:Ny.
  { destruct y; try discriminate. destruct x; simpl; split;
      try discriminate; intros (_ & _ & _ & ? & _); discriminate. }
  rewrite (compare_val x y Hx Hy Nx Ny).
  destruct (Z.compare_spec (val x) (val y)); split; try discriminate; try lia;
    try (intros (_ & _ & _ & _ & ?); lia); auto 10 with lia.
Qed.

Lemma rz0_zero (e : Z) : rz0 0 e = 0.
Proof. reflexivity. Qed.

Lemma ordered_refl (x : JS.number) : is_number x -> is_nan x = false -> ordered x x.
Proof. intros. unfold ordered. repeat split; try assumption. lia. Qed.

(** Subtracting more leaves less. *)
Lemma sub_antitone (m t1 t2 : JS.number) :
  is_number m -> is_nan m = false -> ordered t1 t2 -> val t2 < val m ->
  ordered (JS.sub m t2) (JS.sub m t1) /\ 0 <= val (JS.sub m t2).
Proof.
  intros Hm Nm (H1 & H2 & N1 & N2 & Hle) Hlt.
  pose proof huge_big as Hb. pose proof huge_pos as Hp.
  pose proof (val_range m Hm) as Rm. pose proof (val_range t1 H1) as R1.
  pose proof (val_range t2 H2) as R2.
  destruct (finite_or_zero m) eqn:Fm.
  - destruct (finite_or_zero t2) eqn:F2.
    + destruct (sub_val m t2 Hm H2 Fm F2) as (V2 & Hv2 & Hn2).
      assert (0 <= val (JS.sub m t2)) as Hnn.
      { unfold JS.sub, JS.prec, JS.emax. rewrite V2.
        rewrite <- (rz0_zero (-1074)). apply rz0_mono. lia. }
      split; [|exact Hnn].
      destruct (finite_or_zero t1) eqn:F1.
      * destruct (sub_val m t1 Hm H1 Fm F1) as (V1 & Hv1 & Hn1).
        unfold ordered, is_number, JS.sub, JS.prec, JS.emax.
        repeat split; try assumption. rewrite V1, V2. apply rz0_mono. lia.
      * destruct (not_finite_cases t1 N1 F1) as [-> | ->].
        -- pose proof (val_finite_range t2 H2 F2). cbn [val] in Hle. lia.
        -- assert (JS.sub m (S754_infinity true) = S754_infinity false) as ->.
           { destruct m as [s|s| |s mm e]; try discriminate; reflexivity. }
           unfold ordered, is_number. repeat split; try assumption.
           cbn [val]. apply (val_range (JS.sub m t2)). exact Hv2.
    + destruct (not_finite_cases t2 N2 F2) as [-> | ->].
      * pose proof (val_finite_range m Hm Fm). cbn [val] in Hlt. lia.
      * assert (t1 = S754_infinity true) as ->.
        { apply val_neg_huge; try assumption. cbn [val] in Hle. lia. }
        assert (JS.sub m (S754_infinity true) = S754_infinity false) as ->.
        { destruct m as [s|s| |s mm e]; try discriminate; reflexivity. }
        split; [apply ordered_refl; reflexivity|cbn [val]; lia].
  - destruct (not_finite_cases m Nm Fm) as [-> | ->].
    + assert (forall t, is_number t -> is_nan t = false -> val t < huge ->
                        JS.sub (S754_infinity false) t = S754_infinity false) as Hinf.
      { intros t Ht Nt Hv. destruct t as [s|[|]| |s mm e]; try reflexivity.
        - cbn [val] in Hv. lia.
        - discriminate. }
      cbn [val] in Hlt.
      rewrite (Hinf t2 H2 N2 ltac:(lia)), (Hinf t1 H1 N1 ltac:(lia)).
      split; [apply ordered_refl; reflexivity|cbn [val]; lia].
    + cbn [val] in Hlt. lia.
Qed.

(** Multiplying by a positive finite number keeps the order. *)
Lemma mul_positive_mono (c x y : JS.number) :
  is_number c -> finite_or_zero c = true -> 0 < val c ->
  ordered x y -> ordered (JS.mul x c) (JS.mul y c).
Proof.
  intros Hc Fc Pc (Hx & Hy & Nx & Ny & Hle).
  pose proof huge_big as Hb. pose proof huge_pos as Hp.
  assert (forall s, JS.mul (S754_infinity s) c = S754_infinity s) as Hinf.
  { intros s. destruct c as [sc|sc| |[|] mc ec]; try discriminate Fc.
    - cbn [val] in Pc. lia.
    - cbn [val] in Pc.
      pose proof (mag_pos mc ec ltac:(apply (canonical_facts true mc ec Hc))). lia.
    - destruct s; reflexivity. }
  assert (forall z, is_number z -> is_nan z = false ->
                    is_number (JS.mul z c) /\ is_nan (JS.mul z c) = false) as Hok.
  { intros z Hz Nz. destruct (finite_or_zero z) eqn:Fz.
    - destruct (mul_val z c Hz Hc Fz Fc) as (_ & Hv & Hn). split; assumption.
    - destruct (not_finite_cases z Nz Fz) as [-> | ->]; rewrite Hinf; split; reflexivity. }
  destruct (Hok x Hx Nx) as (Vx & Nmx). destruct (Hok y Hy Ny) as (Vy & Nmy).
  unfold ordered. repeat split; try assumption.
  destruct (finite_or_zero x) eqn:Fx.
  - destruct (finite_or_zero y) eqn:Fy.
    + destruct (mul_val x c Hx Hc Fx Fc) as (Ex & _).
      destruct (mul_val y c Hy Hc Fy Fc) as (Ey & _).
      unfold JS.mul, JS.prec, JS.emax. rewrite Ex, Ey. apply rz0_mono. nia.
    + destruct (not_finite_cases y Ny Fy) as [-> | ->].
      * rewrite Hinf. cbn [val]. apply (val_range _ Vx).
      * pose proof (val_finite_range x Hx Fx). cbn [val] in Hle. lia.
  - destruct (not_finite_cases x Nx Fx) as [-> | ->].
    + assert (y = S754_infinity false) as ->.
      { apply val_huge; try assumption. pose proof (val_range y Hy). cbn [val] in Hle. lia. }
      lia.
    + rewrite Hinf. cbn [val]. apply (val_range _ Vy).
Qed.

Lemma lit_255_facts :
  is_number JS.lit_255 /\ finite_or_zero JS.lit_255 = true
  /\ val JS.lit_255 = 255 * 2 ^ 1074.
Proof. repeat split. Qed.

Lemma lit_2_facts :
  is_number JS.lit_2 /\ finite_or_zero JS.lit_2 = true /\ 0 < val JS.lit_2.
Proof.
  repeat split.
Qed.

(** [Math.min(255, x)] on values. *)
Lemma Math_min_255 (x : JS.number) :
  is_number x -> is_nan x = false ->
  is_number (JS.Math_min JS.lit_255 x)
  /\ is_nan (JS.Math_min JS.lit_255 x) = false
  /\ val (JS.Math_min JS.lit_255 x) = Z.min (val JS.lit_255) (val x).
Proof.
  intros Hx Nx. destruct lit_255_facts as (H255 & F255 & V255).
  unfold JS.Math_min. rewrite (compare_val JS.lit_255 x H255 Hx eq_refl Nx).
  destruct (Z.compare_spec (val JS.lit_255) (val x)) as [E|L|G].
  - change (match JS.lit_255 with S754_zero true => JS.lit_255 | _ => x end) with x.
    repeat split; try assumption. lia.
  - repeat split. lia.
  - repeat split; try assumption. lia.
Qed.

Lemma Math_min_255_mono (x y : JS.number) :
  ordered x y -> ordered (JS.Math_min JS.lit_255 x) (JS.Math_min JS.lit_255 y).
Proof.
  intros (Hx & Hy & Nx & Ny & Hle).
  destruct (Math_min_255 x Hx Nx) as (Ax & Bx & Cx).
  destruct (Math_min_255 y Hy Ny) as (Ay & By & Cy).
  unfold ordered. repeat split; try assumption. lia.
Qed.

(** A stored alpha is positive exactly when the number exceeds one half. *)
Lemma ToUint8Clamp_positive (x : JS.number) :
  is_number x -> is_nan x = false ->
  0 < JS.ToUint8Clamp x <-> 2 ^ 1073 < val x.
Proof.
  intros Hx Nx. pose proof huge_big as Hb.
  assert (0 < 2 ^ 1073) as H1073 by (apply Z.pow_pos_nonneg; lia).
  assert (2 ^ 1073 < 2 ^ 2098) as Hlt by (apply Z.pow_lt_mono_r; lia).
  destruct x as [s|[|]| |[|] m e]; try discriminate; cbn [val JS.ToUint8Clamp]; try lia.
  - pose proof (mag_pos m e ltac:(apply (canonical_facts true m e Hx))). lia.
  - destruct (canonical_facts false m e Hx) as (He & _).
    unfold mag.
    pose proof (Z.pow_pos_nonneg 2 (e + 1074) ltac:(lia) ltac:(lia)) as Hp.
    destruct (Z.leb_spec 0 e) as [L|L].
    + pose proof (Z.pow_pos_nonneg 2 e ltac:(lia) L) as Hpe.
      assert (2 ^ 1073 < 2 ^ (e + 1074)) by (apply Z.pow_lt_mono_r; lia).
      split; [intros _; nia|intros _; nia].
    + pose proof (Z.pow_pos_nonneg 2 (- e) ltac:(lia) ltac:(lia)) as Hd.
      assert (2 * 2 ^ 1073 = 2 ^ (- e) * 2 ^ (e + 1074)) as E.
      { rewrite <- pow_split by lia. rewrite <- (Z.pow_succ_r 2 1073) by lia.
        f_equal. lia. }
      assert (2 ^ 1073 < Z.pos m * 2 ^ (e + 1074) <-> 2 ^ (- e) < 2 * Z.pos m) as ->.
      { split; intros; nia. }
      pose proof (Z.div_mod (Z.pos m) (2 ^ (- e)) ltac:(lia)) as Hdm.
      pose proof (Z.mod_pos_bound (Z.pos m) (2 ^ (- e)) Hd) as Hr.
      assert (0 <= Z.pos m / 2 ^ (- e)) as Hf by (apply Z.div_pos; lia).
      revert Hdm Hr Hf.
      generalize (Z.pos m / 2 ^ (- e)). generalize (Z.pos m mod 2 ^ (- e)).
      revert Hd. generalize (2 ^ (- e)). intros d Hd r f Hdm Hr Hf.
      destruct (Z.leb_spec 255 f); [split; intros; nia|].
      destruct (Z.ltb_spec (2 * r) d); [split; intros; nia|].
      destruct (Z.ltb_spec d (2 * r)); [split; intros; nia|].
      destruct (Z.eq_dec f 0) as [->|Hf0].
      * simpl. split; intros; nia.
      * destruct (Z.even f); split; intros; nia.
Qed.

Lemma ToUint8Clamp_nan (x : JS.number) : is_nan x = true -> JS.ToUint8Clamp x = 0.
Proof. destruct x; try discriminate. reflexivity. Qed.

Lemma Math_min_nan (x : JS.number) :
  is_nan x = true -> JS.Math_min JS.lit_255 x = S754_nan.
Proof. destruct x; try discriminate. reflexivity. Qed.

(** Raising the threshold cannot turn a transparent pixel opaque. *)
Lemma alpha_of_mono (m t1 t2 i : JS.number) :
  is_number m -> is_number t1 -> is_number t2 -> is_number i ->
  JS.le t1 t2 = true ->
  0 < alpha_of m t2 i -> 0 < alpha_of m t1 i.
Proof.
  intros Hm H1 H2 Hi Hle. unfold alpha_of.
  apply le_val in Hle; [|assumption|assumption].
  destruct (JS.gt m t2) eqn:G2; [|lia].
  apply gt_val in G2 as (Nm & N2 & Hlt); [|assumption|assumption].
  assert (JS.gt m t1 = true) as ->.
  { apply gt_val; [assumption|assumption|].
    destruct Hle as (_ & _ & N1 & _ & L). repeat split; try assumption. lia. }
  destruct (sub_antitone m t1 t2 Hm Nm Hle Hlt) as (Od & Dnn).
  destruct lit_2_facts as (L2 & F2 & P2).
  pose proof (mul_positive_mono JS.lit_2 _ _ L2 F2 P2 Od) as Om.
  pose proof (Math_min_255_mono _ _ Om) as Os.
  set (s2 := JS.Math_min JS.lit_255 (JS.mul (JS.sub m t2) JS.lit_2)) in *.
  set (s1 := JS.Math_min JS.lit_255 (JS.mul (JS.sub m t1) JS.lit_2)) in *.
  (* the strengths are finite and not negative *)
  assert (0 <= val s2) as Hs2nn.
  { destruct Om as (A & _ & B & _ & _).
    destruct (Math_min_255 _ A B) as (_ & _ & V). unfold s2. rewrite V.
    destruct lit_255_facts as (_ & _ & V255). rewrite V255.
    assert (0 <= val (JS.mul (JS.sub m t2) JS.lit_2)); [|lia].
    destruct Od as (Hd & _ & Nd & _ & _).
    destruct (finite_or_zero (JS.sub m t2)) eqn:Fd.
    - destruct (mul_val _ _ Hd L2 Fd F2) as (E & _).
      unfold JS.mul, JS.prec, JS.emax. rewrite E.
      rewrite <- (rz0_zero (-2148)). apply rz0_mono. nia.
    - destruct (not_finite_cases _ Nd Fd) as [E|E]; rewrite E in *.
      + cbn. pose proof huge_pos. lia.
      + cbn [val] in Dnn. pose proof huge_pos. lia. }
  assert (forall s, is_number s -> is_nan s = false ->
            val s <= val JS.lit_255 -> 0 <= val s -> finite_or_zero s = true) as Hfin.
  { intros s Hs Ns Hle255 Hnn. destruct (finite_or_zero s) eqn:Fs; [reflexivity|].
    destruct lit_255_facts as (H255 & F255 & _).
    pose proof (val_finite_range _ H255 F255). pose proof huge_big. pose proof huge_pos.
    destruct (not_finite_cases s Ns Fs) as [-> | ->]; cbn [val] in *; lia. }
  destruct Os as (Hs2 & Hs1 & Ns2 & Ns1 & Hs).
  assert (val s2 <= val JS.lit_255 /\ val s1 <= val JS.lit_255) as (U2 & U1).
  { destruct Om as (A & B & C & D & _).
    destruct (Math_min_255 _ A C) as (_ & _ & V2).
    destruct (Math_min_255 _ B D) as (_ & _ & V1).
    unfold s1, s2. rewrite V1, V2. lia. }
  pose proof (Hfin s2 Hs2 Ns2 U2 Hs2nn) as F2s.
  pose proof (Hfin s1 Hs1 Ns1 U1 ltac:(lia)) as F1s.
  clearbody s1 s2.
  (* cases on the intensity *)
  destruct (is_nan i) eqn:Ni.
  { destruct i; try discriminate.
    assert (JS.mul s2 S754_nan = S754_nan) as -> by (destruct s2; reflexivity).
    cbn. lia. }
  destruct (finite_or_zero i) eqn:Fi.
  - destruct (Z.lt_ge_cases 0 (val i)) as [Pi|Zi].
    + pose proof (mul_positive_mono i s2 s1 Hi Fi Pi
                    (conj Hs2 (conj Hs1 (conj Ns2 (conj Ns1 Hs))))) as Ov.
      pose proof (Math_min_255_mono _ _ Ov) as (A & B & C & D & E).
      rewrite (ToUint8Clamp_positive _ A C), (ToUint8Clamp_positive _ B D). lia.
    + intros Hpos. exfalso.
      destruct (mul_val s2 i Hs2 Hi F2s Fi) as (E & Hv & Hn).
      destruct (Math_min_255 _ Hv Hn) as (A & B & V).
      apply (ToUint8Clamp_positive _ A B) in Hpos.
      rewrite V in Hpos. unfold JS.mul, JS.prec, JS.emax in Hpos. rewrite E in Hpos.
      assert (rz0 (val s2 * val i) (-2148) <= 0).
      { rewrite <- (rz0_zero (-2148)). apply rz0_mono. nia. }
      assert (0 < 2 ^ 1073) by (apply Z.pow_pos_nonneg; lia). lia.
  - destruct (not_finite_cases i Ni Fi) as [-> | ->].
    + (* +infinity *)
      intros Hpos.
      assert (0 < val s2) as P2s.
      { destruct (Z.eq_dec (val s2) 0) as [Z2|]; [|lia]. exfalso.
        destruct s2 as [s|s| |s mm ee]; try discriminate F2s.
        - cbn in Hpos. lia.
        - cbn [val] in Z2.
          pose proof (mag_pos mm ee ltac:(apply (canonical_facts s mm ee Hs2))).
          destruct s; lia. }
      assert (JS.mul s1 (S754_infinity false) = S754_infinity false) as ->.
      { destruct s1 as [s|s| |[|] mm ee]; try discriminate F1s.
        - cbn [val] in Hs. lia.
        - cbn [val] in Hs.
          pose proof (mag_pos mm ee ltac:(apply (canonical_facts true mm ee Hs1))). lia.
        - reflexivity. }
      reflexivity.
    + (* -infinity *)
      intros Hpos. exfalso.
      destruct s2 as [s|s| |[|] mm ee]; try discriminate F2s.
      * cbn in Hpos. lia.
      * cbn [val] in Hs2nn.
        pose proof (mag_pos mm ee ltac:(apply (canonical_facts true mm ee Hs2))). lia.
      * cbn in Hpos. lia.
Qed.

(** ** Integers as numbers *)

Lemma build_plus (M e : Z) : 0 < M -> plus_signed (build false (round_pair M e)) = true.
Proof.
  intros HM. unfold round_pair, build, carry.
  destruct (rnd_range M e HM) as (Hq & _). cbv zeta in Hq.
  destruct (Z.eqb_spec (rnd M (target M e - e)) (2 ^ 53)); cbn [fst snd].
  - change (2 ^ 52) with (Z.pos 4503599627370496). cbv iota beta.
    destruct (_ <=? _); reflexivity.
  - destruct (rnd M (target M e - e)) as [|q|q]; [reflexivity| |lia].
    destruct (_ <=? _); reflexivity.
Qed.

Lemma binary_normalize_plus (D e : Z) :
  0 <= D -> plus_signed (binary_normalize 53 1024 D e false) = true.
Proof.
  intros HD. destruct D as [|p|p]; [reflexivity| |lia].
  unfold binary_normalize. rewrite binary_round_value. apply build_plus. lia.
Qed.

(** A number with the sign bit clear is +0 exactly when its value is 0. *)
Lemma plus_zero (x : JS.number) :
  is_number x -> plus_signed x = true -> val x = 0 -> x = S754_zero false.
Proof.
  intros Hx Hp Hv. destruct x as [[|]|[|]| |[|] m e]; try discriminate Hp.
  - reflexivity.
  - cbn [val] in Hv. pose proof huge_pos. lia.
  - cbn [val] in Hv. pose proof (mag_pos m e ltac:(apply (canonical_facts false m e Hx))). lia.
Qed.

Lemma plus_nonneg (x : JS.number) :
  is_number x -> plus_signed x = true -> 0 <= val x /\ is_nan x = false.
Proof.
  intros Hx Hp. destruct x as [[|]|[|]| |[|] m e]; try discriminate Hp; cbn [val is_nan].
  - split; [lia|reflexivity].
  - pose proof huge_pos. split; [lia|reflexivity].
  - pose proof (mag_pos m e ltac:(apply (canonical_facts false m e Hx))).
    split; [lia|reflexivity].
Qed.

(** Two binary64 values with the same nonzero value are the same number. *)
Lemma val_inj (x y : JS.number) :
  is_number x -> is_number y -> is_nan x = false -> is_nan y = false ->
  val x = val y -> val x <> 0 -> x = y.
Proof.
  intros Hx Hy Nx Ny E NZ.
  pose proof huge_big. pose proof huge_pos.
  assert (0 < 2 ^ 2098) by (apply Z.pow_pos_nonneg; lia).
  destruct x as [sx|sx| |sx mx ex]; try discriminate Nx;
    destruct y as [sy|sy| |sy my ey]; try discriminate Ny; cbn [val] in E, NZ; try lia.
  - destruct sx, sy; try reflexivity; lia.
  - pose proof (mag_lt_huge sy my ey Hy).
    pose proof (mag_pos my ey ltac:(apply (canonical_facts sy my ey Hy))).
    destruct sx, sy; lia.
  - pose proof (mag_lt_huge sx mx ex Hx).
    pose proof (mag_pos mx ex ltac:(apply (canonical_facts sx mx ex Hx))).
    destruct sx, sy; lia.
  - pose proof (mag_pos mx ex ltac:(apply (canonical_facts sx mx ex Hx))).
    pose proof (mag_pos my ey ltac:(apply (canonical_facts sy my ey Hy))).
    assert (sx = sy) as -> by (destruct sx, sy; try reflexivity; lia).
    assert (mag mx ex = mag my ey) as Em by (destruct sy; lia).
    pose proof (mag_compare sy sy mx my ex ey Hx Hy) as Hc.
    rewrite Em, Z.compare_refl in Hc.
    destruct (Z.compare_spec ex ey) as [Ee|?|?]; try discriminate Hc.
    subst ey. rewrite Pos.compare_cont_spec in Hc.
    assert ((mx ?= my)%positive = Eq) as Hm.
    { destruct (mx ?= my)%positive; try discriminate Hc; reflexivity. }
    apply Pos.compare_eq in Hm. subst my. reflexivity.
Qed.

(** An integer below 2^53 is a number exactly. *)
Lemma raw_exact (M e : Z) :
  0 < M -> M < 2 ^ 53 -> -1074 <= e -> raw M e = M * 2 ^ (e + 1074).
Proof.
  intros HM Hlt He. unfold raw.
  assert (Zdigits2 M <= 53) as Hd by (apply Zdigits2_le; lia).
  pose proof (fexp_ge (Zdigits2 M + e)) as Hg. fold (target M e) in Hg.
  assert (target M e <= e) as Ht by (unfold target; rewrite fexp_eq; lia).
  unfold rnd. destruct (Z.leb_spec (target M e - e) 0); [|lia].
  rewrite <- Z.mul_assoc, <- pow_split by lia. f_equal. f_equal. lia.
Qed.

Lemma of_Z_facts (z : Z) :
  is_number (JS.of_Z z) /\ is_nan (JS.of_Z z) = false
  /\ val (JS.of_Z z) = rz0 (z * 2 ^ 1074) (-1074).
Proof.
  unfold JS.of_Z, JS.prec, JS.emax, is_number.
  destruct (val_binary_normalize z 0) as (V & Hv & Hn).
  repeat split; try assumption. rewrite V.
  rewrite <- (rz0_scale z 0 1074) by lia. reflexivity.
Qed.

Lemma rz0_exact (z : Z) : Z.abs z < 2 ^ 53 -> rz0 z 0 = z * 2 ^ 1074.
Proof.
  intros Hz. unfold rz0.
  assert (forall M, 0 < M -> M < 2 ^ 53 -> cap (raw M 0) = M * 2 ^ 1074) as Hc.
  { intros M H1 H2. rewrite raw_exact by lia. change (0 + 1074) with 1074.
    apply cap_small.
    assert (2 ^ 53 * 2 ^ 1074 < 2 ^ 2098).
    { rewrite <- pow_split by lia. apply Z.pow_lt_mono_r; lia. }
    assert (0 < 2 ^ 1074) by (apply Z.pow_pos_nonneg; lia). nia. }
  destruct (Z.eqb_spec z 0) as [->|NZ]; [reflexivity|].
  destruct (Z.ltb_spec 0 z).
  - apply Hc; lia.
  - rewrite Hc by lia. ring.
Qed.

Lemma of_Z_exact (z : Z) :
  Z.abs z < 2 ^ 53 ->
  val (JS.of_Z z) = z * 2 ^ 1074 /\ finite_or_zero (JS.of_Z z) = true.
Proof.
  intros Hz. destruct (of_Z_facts z) as (Hv & Hn & V).
  assert (val (JS.of_Z z) = z * 2 ^ 1074) as E.
  { rewrite V. replace (-1074) with (0 - 1074) by lia.
    rewrite rz0_scale by lia. apply rz0_exact, Hz. }
  split; [exact E|].
  destruct (finite_or_zero (JS.of_Z z)) eqn:F; [reflexivity|exfalso].
  assert (2 ^ 53 * 2 ^ 1074 < 2 ^ 2098).
  { rewrite <- pow_split by lia. apply Z.pow_lt_mono_r; lia. }
  assert (0 < 2 ^ 1074) by (apply Z.pow_pos_nonneg; lia).
  pose proof huge_big.
  destruct (not_finite_cases _ Hn F) as [E'|E']; rewrite E' in E; cbn [val] in E; nia.
Qed.

Lemma of_Z_plus (z : Z) : 0 <= z -> plus_signed (JS.of_Z z) = true.
Proof. intros Hz. apply binary_normalize_plus, Hz. Qed.

(** Equal values, equal numbers: for results whose sign bit is clear. *)
Lemma plus_val_inj (x y : JS.number) :
  is_number x -> is_number y -> plus_signed x = true -> plus_signed y = true ->
  val x = val y -> x = y.
Proof.
  intros Hx Hy Px Py E.
  destruct (plus_nonneg x Hx Px) as (_ & Nx). destruct (plus_nonneg y Hy Py) as (_ & Ny).
  destruct (Z.eq_dec (val x) 0) as [Z0|NZ].
  - rewrite (plus_zero x Hx Px Z0), (plus_zero y Hy Py ltac:(lia)). reflexivity.
  - apply val_inj; assumption.
Qed.

Lemma lt_val (x y : JS.number) :
  is_number x -> is_number y ->
  JS.lt x y = true <-> (is_nan x = false /\ is_nan y = false /\ val x < val y).
Proof.
  intros Hx Hy. unfold JS.lt, SFltb.
  destruct (is_nan x) eqn:Nx.
  { destruct x; try discriminate. simpl. split; [discriminate|intros (? & _); discriminate]. }
  destruct (is_nan y) eqn:Ny.
  { destruct y; try discriminate. destruct x; simpl; split;
      try discriminate; intros (_ & ? & _); discriminate. }
  rewrite (compare_val x y Hx Hy Nx Ny).
  destruct (Z.compare_spec (val x) (val y)); split; try discriminate; try lia;
    try (intros (_ & _ & ?); lia); auto.
Qed.

(** ** Signs of the edge strength *)

(** The difference of a number and a smaller one has the sign bit clear. *)
Lemma sub_plus (m t : JS.number) :
  is_number m -> is_number t -> JS.gt m t = true ->
  plus_signed (JS.sub m t) = true.
Proof.
  intros Hm Ht G. apply gt_val in G as (Nm & Nt & Hlt); [|assumption|assumption].
  pose proof huge_pos as Hp. pose proof huge_big as Hb.
  assert (0 < 2 ^ 2098) as H98 by (apply Z.pow_pos_nonneg; lia).
  pose proof (val_range m Hm) as Rm. pose proof (val_range t Ht) as Rt.
  destruct m as [sx|sx| |sx mx ex]; try discriminate Nm;
    destruct t as [sy|sy| |sy my ey]; try discriminate Nt; cbn [val] in Hlt.
  - lia.
  - destruct sy; [reflexivity|exfalso; lia].
  - pose proof (mag_pos my ey ltac:(apply (canonical_facts sy my ey Ht))).
    destruct sy; [reflexivity|exfalso; lia].
  - destruct sx; [exfalso; lia|reflexivity].
  - destruct sx, sy; try reflexivity; exfalso; lia.
  - pose proof (mag_lt_huge sy my ey Ht).
    pose proof (mag_pos my ey ltac:(apply (canonical_facts sy my ey Ht))).
    destruct sx; [exfalso; destruct sy; lia|reflexivity].
  - pose proof (mag_pos mx ex ltac:(apply (canonical_facts sx mx ex Hm))).
    destruct sx; [exfalso; lia|reflexivity].
  - pose proof (mag_lt_huge sx mx ex Hm).
    pose proof (mag_pos mx ex ltac:(apply (canonical_facts sx mx ex Hm))).
    destruct sy; [reflexivity|exfalso; destruct sx; lia].
  - destruct (canonical_facts sx mx ex Hm) as (Hex & _).
    destruct (canonical_facts sy my ey Ht) as (Hey & _).
    unfold JS.sub, SFsub. apply binary_normalize_plus.
    set (ez := Z.min ex ey).
    assert (0 < 2 ^ (ez + 1074)) as Hpow by (apply Z.pow_pos_nonneg; unfold ez; lia).
    assert ((cond_Zopp sx (Z.pos (fst (shl_align mx ex ez)))
             - cond_Zopp sy (Z.pos (fst (shl_align my ey ez)))) * 2 ^ (ez + 1074)
            = val (S754_finite sx mx ex) - val (S754_finite sy my ey)) as E.
    { rewrite Z.mul_sub_distr_r, !cond_Zopp_mul.
      rewrite !aligned_mantissa by (unfold ez; lia).
      destruct sx, sy; reflexivity. }
    cbn [val] in E. nia.
Qed.

(** The product of two numbers with the sign bit clear, the second one
    finite and not zero, has the sign bit clear. *)
Lemma mul_plus (x c : JS.number) :
  is_number x -> is_number c -> plus_signed x = true -> plus_signed c = true ->
  finite_or_zero c = true -> 0 < val c ->
  plus_signed (JS.mul x c) = true.
Proof.
  intros Hx Hc Px Pc Fc Vc.
  destruct c as [sc|sc| |[|] mc ec]; try discriminate Fc; try discriminate Pc.
  { cbn [val] in Vc. lia. }
  destruct x as [[|]|[|]| |[|] mx ex]; try discriminate Px; try reflexivity.
  unfold JS.mul, SFmul. cbn [xorb].
  destruct (canonical_facts false mx ex Hx) as (Hex & _).
  destruct (canonical_facts false mc ec Hc) as (Hec & _).
  change (Z.pos (mx * mc)) with (Z.pos mx * Z.pos mc).
  rewrite binary_round_aux_exact
    by (try apply (mul_aligned false false); try assumption; lia).
  apply build_plus. lia.
Qed.

Lemma Math_min_255_plus (x : JS.number) :
  is_number x -> plus_signed x = true ->
  plus_signed (JS.Math_min JS.lit_255 x) = true.
Proof.
  intros Hx Px. destruct (plus_nonneg x Hx Px) as (_ & Nx).
  destruct lit_255_facts as (H255 & _ & _).
  unfold JS.Math_min. rewrite (compare_val JS.lit_255 x H255 Hx eq_refl Nx).
  destruct (val JS.lit_255 ?= val x); [exact Px|reflexivity|exact Px].
Qed.

Lemma edgeStrength_facts (m t : JS.number) :
  is_number m -> is_number t -> JS.gt m t = true ->
  is_number (edgeStrength m t) /\ is_nan (edgeStrength m t) = false
  /\ finite_or_zero (edgeStrength m t) = true
  /\ plus_signed (edgeStrength m t) = true
  /\ 0 <= val (edgeStrength m t) <= 255 * 2 ^ 1074.
Proof.
  intros Hm Ht G.
  pose proof (sub_plus m t Hm Ht G) as Pd.
  apply gt_val in G as (Nm & Nt & Hlt); [|assumption|assumption].
  destruct (sub_antitone m t t Hm Nm (ordered_refl t Ht Nt) Hlt)
    as ((Hd & _ & Nd & _ & _) & _).
  destruct lit_2_facts as (L2 & F2 & P2).
  pose proof (mul_plus _ _ Hd L2 Pd eq_refl F2 P2) as Pm.
  pose proof (mul_positive_mono JS.lit_2 _ _ L2 F2 P2 (ordered_refl _ Hd Nd))
    as (Hmul & _ & Nmul & _ & _).
  destruct (Math_min_255 _ Hmul Nmul) as (Hs & Ns & Vs).
  pose proof (Math_min_255_plus _ Hmul Pm) as Ps.
  destruct (plus_nonneg _ Hmul Pm) as (Vnn & _).
  destruct lit_255_facts as (H255 & F255 & V255).
  fold (edgeStrength m t) in Hs, Ns, Vs, Ps.
  assert (0 <= val (edgeStrength m t) <= 255 * 2 ^ 1074) as R.
  { rewrite Vs, V255. assert (0 < 2 ^ 1074) by (apply Z.pow_pos_nonneg; lia). lia. }
  repeat split; try assumption; try apply R.
  destruct (finite_or_zero (edgeStrength m t)) eqn:Fs; [reflexivity|exfalso].
  pose proof huge_big. pose proof huge_pos.
  assert (255 * 2 ^ 1074 < 2 ^ 2098).
  { change 255 with (2 ^ 8 - 1). assert (2 ^ 8 * 2 ^ 1074 < 2 ^ 2098).
    { rewrite <- pow_split by lia. apply Z.pow_lt_mono_r; lia. }
    assert (0 < 2 ^ 1074) by (apply Z.pow_pos_nonneg; lia). lia. }
  destruct (not_finite_cases _ Ns Fs) as [E|E]; rewrite E in R; cbn [val] in R; lia.
Qed.

(** ** Clamping *)

Lemma Math_max_0_plus (u : JS.number) :
  plus_signed u = true -> JS.Math_max JS.lit_0 u = u.
Proof. destruct u as [[|]|[|]| |[|] m e]; try discriminate; reflexivity. Qed.

Lemma ToUint8Clamp_max_0 (z : JS.number) :
  JS.ToUint8Clamp (JS.Math_max JS.lit_0 z) = JS.ToUint8Clamp z.
Proof. destruct z as [[|]|[|]| |[|] m e]; reflexivity. Qed.

Lemma ToUint8Clamp_range (x : JS.number) : 0 <= JS.ToUint8Clamp x <= 255.
Proof.
  destruct x as [s|[|]| |[|] m e]; cbn [JS.ToUint8Clamp]; try lia.
  destruct (Z.leb_spec 0 e) as [L|L].
  - pose proof (Z.pow_pos_nonneg 2 e ltac:(lia) L). nia.
  - pose proof (Z.pow_pos_nonneg 2 (- e) ltac:(lia) ltac:(lia)) as Hd.
    assert (0 <= Z.pos m / 2 ^ (- e)) as Hf by (apply Z.div_pos; lia).
    cbv zeta.
    destruct (Z.leb_spec 255 (Z.pos m / 2 ^ (- e))); [lia|].
    destruct (_ <? _); [lia|]. destruct (_ <? _); [lia|].
    destruct (Z.even _); lia.
Qed.

(** The stored alpha of an edge pixel is the clamped product of the
    specification, converted to a byte. *)
Lemma alpha_clamped (m t i : JS.number) :
  is_number m -> is_number t -> JS.gt m t = true ->
  JS.ToUint8Clamp (JS.Math_min JS.lit_255 (JS.mul (edgeStrength m t) i))
  = JS.ToUint8Clamp
      (clamp JS.lit_0 JS.lit_255
         (JS.mul (clamp JS.lit_0 JS.lit_255 (JS.mul (JS.sub m t) JS.lit_2)) i)).
Proof.
  intros Hm Ht G. destruct (edgeStrength_facts m t Hm Ht G) as (_ & _ & _ & Ps & _).
  unfold clamp. rewrite ToUint8Clamp_max_0.
  fold (edgeStrength m t). rewrite (Math_max_0_plus _ Ps). reflexivity.
Qed.

(** An intensity that is not positive makes every edge transparent. *)
Lemma alpha_nonpositive (s i : JS.number) :
  is_number s -> is_nan s = false -> finite_or_zero s = true -> 0 <= val s ->
  is_number i -> val i <= 0 ->
  JS.ToUint8Clamp (JS.Math_min JS.lit_255 (JS.mul s i)) = 0.
Proof.
  intros Hs Ns Fs Vs Hi Vi.
  pose proof (ToUint8Clamp_range (JS.Math_min JS.lit_255 (JS.mul s i))) as R.
  destruct (Z.eq_dec (JS.ToUint8Clamp (JS.Math_min JS.lit_255 (JS.mul s i))) 0)
    as [E|NE]; [exact E|exfalso].
  assert (0 < JS.ToUint8Clamp (JS.Math_min JS.lit_255 (JS.mul s i))) as Hpos by lia.
  clear R NE.
  destruct (is_nan i) eqn:Ni.
  { destruct i; try discriminate Ni.
    assert (JS.mul s S754_nan = S754_nan) as E by (destruct s; reflexivity).
    rewrite E in Hpos. cbn in Hpos. lia. }
  destruct (finite_or_zero i) eqn:Fi.
  - destruct (mul_val s i Hs Hi Fs Fi) as (E & Hv & Hn).
    destruct (Math_min_255 _ Hv Hn) as (A & B & V).
    apply (ToUint8Clamp_positive _ A B) in Hpos.
    rewrite V in Hpos. unfold JS.mul, JS.prec, JS.emax in Hpos. rewrite E in Hpos.
    assert (rz0 (val s * val i) (-2148) <= 0).
    { rewrite <- (rz0_zero (-2148)). apply rz0_mono. nia. }
    assert (0 < 2 ^ 1073) by (apply Z.pow_pos_nonneg; lia). lia.
  - pose proof huge_pos.
    destruct (not_finite_cases i Ni Fi) as [E|E]; rewrite E in *.
    + cbn [val] in Vi. lia.
    + destruct s as [s'|s'| |[|] mm ee]; try discriminate Fs.
      * cbn in Hpos. lia.
      * cbn [val] in Vs.
        pose proof (mag_pos mm ee ltac:(apply (canonical_facts true mm ee Hs))). lia.
      * cbn in Hpos. lia.
Qed.

(** ** Arithmetic on small integers is exact *)

Lemma rz0_int (z : Z) : Z.abs z < 2 ^ 53 -> rz0 (z * 2 ^ 1074) (-1074) = z * 2 ^ 1074.
Proof.
  intros Hz. destruct (of_Z_facts z) as (_ & _ & V).
  destruct (of_Z_exact z Hz) as (E & _). congruence.
Qed.

(** A number with the sign bit clear and the value of a small integer is
    that integer. *)
Lemma int_number (r : JS.number) (z : Z) :
  is_number r -> plus_signed r = true -> 0 <= z < 2 ^ 53 ->
  val r = z * 2 ^ 1074 -> r = JS.of_Z z.
Proof.
  intros Hr Pr Hz V. destruct (of_Z_facts z) as (Hv & _ & _).
  destruct (of_Z_exact z ltac:(lia)) as (E & _).
  apply plus_val_inj; try assumption; [apply of_Z_plus; lia|congruence].
Qed.

Lemma abs_facts (x : JS.number) :
  is_number x -> is_nan x = false ->
  is_number (JS.Math_abs x) /\ plus_signed (JS.Math_abs x) = true
  /\ val (JS.Math_abs x) = Z.abs (val x).
Proof.
  intros Hx Nx. pose proof huge_pos.
  destruct x as [s|s| |s m e]; try discriminate Nx; cbn [JS.Math_abs SFabs val].
  - repeat split.
  - repeat split. destruct s; lia.
  - pose proof (mag_pos m e ltac:(apply (canonical_facts s m e Hx))).
    split; [exact Hx|]. split; [reflexivity|]. destruct s; lia.
Qed.

Lemma add_plus (x y : JS.number) :
  plus_signed x = true -> plus_signed y = true ->
  finite_or_zero x = true -> finite_or_zero y = true ->
  plus_signed (JS.add x y) = true.
Proof.
  intros Px Py Fx Fy.
  destruct x as [[|]|[|]| |[|] mx ex]; try discriminate Px; try discriminate Fx;
    destruct y as [[|]|[|]| |[|] my ey]; try discriminate Py; try discriminate Fy;
    try reflexivity.
  unfold JS.add, SFadd. apply binary_normalize_plus. cbn [cond_Zopp]. lia.
Qed.

(** [|a - b|] of two small non-negative integers. *)
Lemma abs_sub_of_Z (a b : Z) :
  0 <= a < 2 ^ 53 -> 0 <= b < 2 ^ 53 ->
  JS.Math_abs (JS.sub (JS.of_Z a) (JS.of_Z b)) = JS.of_Z (Z.abs (a - b)).
Proof.
  intros Ha Hb.
  destruct (of_Z_facts a) as (Va & Na & _). destruct (of_Z_exact a ltac:(lia)) as (Ea & Fa).
  destruct (of_Z_facts b) as (Vb & Nb & _). destruct (of_Z_exact b ltac:(lia)) as (Eb & Fb).
  destruct (sub_val _ _ Va Vb Fa Fb) as (V & Hv & Hn).
  change (JS.sub (JS.of_Z a) (JS.of_Z b)) with (SFsub 53 1024 (JS.of_Z a) (JS.of_Z b)).
  destruct (abs_facts _ Hv Hn) as (Habs & Pabs & Vabs).
  apply int_number; try assumption; [lia|].
  rewrite Vabs, V, Ea, Eb.
  replace (a * 2 ^ 1074 - b * 2 ^ 1074) with ((a - b) * 2 ^ 1074) by ring.
  rewrite rz0_int by lia.
  assert (0 < 2 ^ 1074) by (apply Z.pow_pos_nonneg; lia). nia.
Qed.

(** The square of a small non-negative integer. *)
Lemma mul_of_Z (a b : Z) :
  0 <= a < 2 ^ 53 -> 0 <= b < 2 ^ 53 -> a * b < 2 ^ 53 ->
  JS.mul (JS.of_Z a) (JS.of_Z b) = JS.of_Z (a * b).
Proof.
  intros (Ha & Ha') (Hb & Hb') Hab.
  destruct (Z.eq_dec a 0) as [->|Na0].
  { change (JS.of_Z 0) with (S754_zero false).
    destruct (of_Z_exact b ltac:(lia)) as (_ & Fb).
    pose proof (of_Z_plus b Hb) as Pb.
    destruct (JS.of_Z b) as [[|]|[|]| |[|] m e]; try discriminate; reflexivity. }
  destruct (Z.eq_dec b 0) as [->|Nb0].
  { rewrite Z.mul_0_r. change (JS.of_Z 0) with (S754_zero false).
    destruct (of_Z_exact a ltac:(lia)) as (_ & Fa).
    pose proof (of_Z_plus a Ha) as Pa.
    destruct (JS.of_Z a) as [[|]|[|]| |[|] m e]; try discriminate; reflexivity. }
  destruct (of_Z_facts a) as (Va & _ & _). destruct (of_Z_exact a ltac:(lia)) as (Ea & Fa).
  destruct (of_Z_facts b) as (Vb & _ & _). destruct (of_Z_exact b ltac:(lia)) as (Eb & Fb).
  assert (0 < 2 ^ 1074) as Hp by (apply Z.pow_pos_nonneg; lia).
  destruct (mul_val _ _ Va Vb Fa Fb) as (V & Hv & Hn).
  change (JS.mul (JS.of_Z a) (JS.of_Z b)) with (SFmul 53 1024 (JS.of_Z a) (JS.of_Z b)).
  apply int_number; try assumption; [|nia|].
  - apply mul_plus; try assumption; try (apply of_Z_plus; lia). nia.
  - rewrite V, Ea, Eb.
    replace (a * 2 ^ 1074 * (b * 2 ^ 1074)) with ((a * b) * 2 ^ 1074 * 2 ^ 1074) by ring.
    change (-2148) with (-1074 - 1074).
    rewrite (rz0_scale ((a * b) * 2 ^ 1074) (-1074) 1074) by lia.
    apply rz0_int. lia.
Qed.

Lemma add_of_Z (a b : Z) :
  0 <= a -> 0 <= b -> a + b < 2 ^ 53 ->
  JS.add (JS.of_Z a) (JS.of_Z b) = JS.of_Z (a + b).
Proof.
  intros Ha Hb Hab.
  destruct (of_Z_facts a) as (Va & _ & _). destruct (of_Z_exact a ltac:(lia)) as (Ea & Fa).
  destruct (of_Z_facts b) as (Vb & _ & _). destruct (of_Z_exact b ltac:(lia)) as (Eb & Fb).
  destruct (add_val _ _ Va Vb Fa Fb) as (V & Hv & Hn).
  change (JS.add (JS.of_Z a) (JS.of_Z b)) with (SFadd 53 1024 (JS.of_Z a) (JS.of_Z b)).
  apply int_number; try assumption; [|lia|].
  - apply add_plus; try assumption; apply of_Z_plus; lia.
  - rewrite V, Ea, Eb.
    replace (a * 2 ^ 1074 + b * 2 ^ 1074) with ((a + b) * 2 ^ 1074) by ring.
    apply rz0_int. lia.
Qed.

Lemma ToUint8_range (x : JS.number) : 0 <= JS.ToUint8 x < 256.
Proof.
  destruct x; cbn [JS.ToUint8]; try lia. apply Z.mod_pos_bound. lia.
Qed.

(** ** The luminance is the nearest integer *)

Lemma rz0_exact_at (M e : Z) :
  Z.abs M < 2 ^ 53 -> -1074 <= e <= 900 -> rz0 M e = M * 2 ^ (e + 1074).
Proof.
  intros HM He. unfold rz0.
  assert (forall P, 0 < P -> P < 2 ^ 53 -> cap (raw P e) = P * 2 ^ (e + 1074)) as Hc.
  { intros P H1 H2. rewrite raw_exact by lia. apply cap_small.
    assert (2 ^ (e + 1074) <= 2 ^ 1974) by (apply Z.pow_le_mono_r; lia).
    assert (2 ^ 53 * 2 ^ 1974 < 2 ^ 2098).
    { rewrite <- pow_split by lia. apply Z.pow_lt_mono_r; lia. }
    assert (0 < 2 ^ (e + 1074)) by (apply Z.pow_pos_nonneg; lia). nia. }
  destruct (Z.eqb_spec M 0) as [->|NZ]; [reflexivity|].
  destruct (Z.ltb_spec 0 M).
  - apply Hc; lia.
  - rewrite Hc by lia. ring.
Qed.

(** Values are bracketed in units of 2^-30. *)
Lemma rz0_unit (M : Z) :
  Z.abs M < 2 ^ 53 -> rz0 (M * 2 ^ 1044) (-1074) = M * 2 ^ 1044.
Proof.
  intros HM. change (-1074) with (-30 - 1044).
  rewrite rz0_scale by lia. rewrite rz0_exact_at by lia. reflexivity.
Qed.

Lemma within_finite (x : JS.number) (lo hi : Z) :
  within x lo hi -> - 2 ^ 53 < lo -> hi < 2 ^ 53 -> finite_or_zero x = true.
Proof.
  intros (Hx & Nx & R) Hlo Hhi.
  destruct (finite_or_zero x) eqn:F; [reflexivity|exfalso].
  pose proof huge_big.
  assert (2 ^ 53 * 2 ^ 1044 < 2 ^ 2098).
  { rewrite <- pow_split by lia. apply Z.pow_lt_mono_r; lia. }
  assert (0 < 2 ^ 1044) by (apply Z.pow_pos_nonneg; lia).
  destruct (not_finite_cases x Nx F) as [E|E]; rewrite E in R; cbn [val] in R; nia.
Qed.

Lemma within_add (x y : JS.number) (a b c d : Z) :
  within x a b -> within y c d ->
  - 2 ^ 52 < a -> b < 2 ^ 52 -> - 2 ^ 52 < c -> d < 2 ^ 52 ->
  within (JS.add x y) (a + c) (b + d).
Proof.
  intros Wx Wy Ha Hb Hc Hd.
  assert (2 ^ 53 = 2 * 2 ^ 52) as E53 by reflexivity.
  pose proof (within_finite x a b Wx ltac:(lia) ltac:(lia)) as Fx.
  pose proof (within_finite y c d Wy ltac:(lia) ltac:(lia)) as Fy.
  destruct Wx as (Hx & Nx & Rx). destruct Wy as (Hy & Ny & Ry).
  assert (0 < 2 ^ 1044) by (apply Z.pow_pos_nonneg; lia).
  destruct (add_val x y Hx Hy Fx Fy) as (V & Hv & Hn).
  unfold within, JS.add, JS.prec, JS.emax. split; [exact Hv|]. split; [exact Hn|].
  rewrite V.
  rewrite <- (rz0_unit (a + c)) by nia. rewrite <- (rz0_unit (b + d)) by nia.
  split; apply rz0_mono; nia.
Qed.

(** A byte times a weight. *)
Lemma within_mul_byte (R : Z) (c : JS.number) (q : Z) :
  0 <= R <= 255 -> is_number c -> finite_or_zero c = true ->
  q * 2 ^ 1044 <= val c <= (q + 1) * 2 ^ 1044 -> 0 <= q < 2 ^ 40 ->
  within (JS.mul (JS.of_Z R) c) (R * q) (R * (q + 1)).
Proof.
  intros HR Hc Fc Rc Hq.
  assert (256 < 2 ^ 53) as H256 by reflexivity.
  destruct (of_Z_facts R) as (VR & _ & _).
  destruct (of_Z_exact R ltac:(lia)) as (ER & FR).
  destruct (mul_val _ _ VR Hc FR Fc) as (V & Hv & Hn).
  unfold within, JS.mul, JS.prec, JS.emax. split; [exact Hv|]. split; [exact Hn|].
  rewrite V, ER.
  assert (0 < 2 ^ 1044) as HW by (apply Z.pow_pos_nonneg; lia).
  assert (0 < 2 ^ 1074) as HU by (apply Z.pow_pos_nonneg; lia).
  assert (2 ^ 53 = 2 ^ 13 * 2 ^ 40) as E53 by reflexivity.
  assert (2 ^ 13 = 8192) as E13 by reflexivity.
  assert (forall M, Z.abs M < 2 ^ 53 ->
            rz0 (M * 2 ^ 1044 * 2 ^ 1074) (-2148) = M * 2 ^ 1044) as Hexact.
  { intros M HM. change (-2148) with (-1074 - 1074).
    rewrite rz0_scale by lia. apply rz0_unit, HM. }
  rewrite <- (Hexact (R * q)) by nia. rewrite <- (Hexact (R * (q + 1))) by nia.
  split; apply rz0_mono.
  - replace (R * q * 2 ^ 1044 * 2 ^ 1074) with (R * 2 ^ 1074 * (q * 2 ^ 1044)) by ring.
    apply Z.mul_le_mono_nonneg_l; [nia|lia].
  - replace (R * (q + 1) * 2 ^ 1044 * 2 ^ 1074)
      with (R * 2 ^ 1074 * ((q + 1) * 2 ^ 1044)) by ring.
    apply Z.mul_le_mono_nonneg_l; [nia|lia].
Qed.

Lemma weights_bracketed :
  (is_number JS.lit_0_299 /\ finite_or_zero JS.lit_0_299 = true
   /\ q_299 * 2 ^ 1044 <= val JS.lit_0_299 <= (q_299 + 1) * 2 ^ 1044)
  /\ (is_number JS.lit_0_587 /\ finite_or_zero JS.lit_0_587 = true
      /\ q_587 * 2 ^ 1044 <= val JS.lit_0_587 <= (q_587 + 1) * 2 ^ 1044)
  /\ (is_number JS.lit_0_114 /\ finite_or_zero JS.lit_0_114 = true
      /\ q_114 * 2 ^ 1044 <= val JS.lit_0_114 <= (q_114 + 1) * 2 ^ 1044).
Proof.
  assert (forall a b c : Z, (a <=? b) && (b <=? c) = true -> a <= b <= c) as H.
  { intros a b c E. apply andb_true_iff in E as [E1 E2].
    apply Z.leb_le in E1. apply Z.leb_le in E2. lia. }
  split; [|split];
    (split; [reflexivity|split; [reflexivity|apply H; vm_compute; reflexivity]]).
Qed.

(** Storing a small integer in a [Uint8Array]. *)
Lemma ToUint8_of_Z (n : Z) : 0 <= n < 2 ^ 53 -> JS.ToUint8 (JS.of_Z n) = n mod 256.
Proof.
  intros Hn. destruct (Z.eq_dec n 0) as [->|NZ]; [reflexivity|].
  destruct (of_Z_facts n) as (Hv & _ & _).
  destruct (of_Z_exact n ltac:(lia)) as (E & F).
  pose proof (of_Z_plus n ltac:(lia)) as P.
  assert (0 < 2 ^ 1074) as HU by (apply Z.pow_pos_nonneg; lia).
  remember (JS.of_Z n) as r eqn:Hr. clear Hr.
  destruct r as [[|]|[|]| |[|] m e]; try discriminate F; try discriminate P.
  - cbn [val] in E. nia.
  - cbn [val] in E. cbn [JS.ToUint8]. unfold JS.truncate. f_equal.
    destruct (canonical_facts false m e Hv) as (He & _). unfold mag in E.
    destruct (Z.leb_spec 0 e) as [L|L].
    + rewrite (pow_split e 1074) in E by lia.
      pose proof (Z.pow_pos_nonneg 2 e ltac:(lia) L). nia.
    + assert (2 ^ 1074 = 2 ^ (- e) * 2 ^ (e + 1074)) as E2.
      { rewrite <- pow_split by lia. f_equal. lia. }
      pose proof (Z.pow_pos_nonneg 2 (- e) ltac:(lia) ltac:(lia)) as Hd.
      pose proof (Z.pow_pos_nonneg 2 (e + 1074) ltac:(lia) ltac:(lia)) as Hk.
      assert (Z.pos m = n * 2 ^ (- e)) as -> by nia.
      apply Z.div_mul. lia.
Qed.

(** The byte [Math.round] leaves in the grayscale buffer: [floor (x + 1/2)]. *)
Lemma round_byte (x : JS.number) :
  is_number x -> is_nan x = false -> 0 <= val x < 2 ^ 52 * 2 ^ 1074 ->
  JS.ToUint8 (JS.Math_round x) = ((2 * val x + 2 ^ 1074) / 2 ^ 1075) mod 256.
Proof.
  intros Hx Nx R.
  assert (0 < 2 ^ 1074) as HU by (apply Z.pow_pos_nonneg; lia).
  assert (2 ^ 1075 = 2 * 2 ^ 1074) as E75 by (apply (Z.pow_succ_r 2 1074); lia).
  destruct x as [s|s| |s m e]; try discriminate Nx.
  - cbn [val JS.Math_round JS.ToUint8]. rewrite Z.div_small by lia. reflexivity.
  - exfalso. cbn [val] in R. pose proof huge_big.
    assert (2 ^ 52 * 2 ^ 1074 < 2 ^ 2098).
    { rewrite <- pow_split by lia. apply Z.pow_lt_mono_r; lia. }
    destruct s; lia.
  - destruct (canonical_facts s m e Hx) as (He & Hm & _).
    pose proof (mag_pos m e ltac:(lia)) as Hp. cbn [val] in R.
    destruct s; [exfalso; lia|]. cbn [val JS.Math_round]. unfold mag in *.
    destruct (Z.leb_spec 0 e) as [L|L].
    + cbn [JS.ToUint8]. unfold JS.truncate.
      destruct (Z.leb_spec 0 e); [|lia]. f_equal.
      rewrite (pow_split e 1074) by lia.
      pose proof (Z.pow_pos_nonneg 2 e ltac:(lia) L) as Hpe.
      rewrite E75. apply Z.div_unique with (r := 2 ^ 1074); [lia|ring].
    + cbv zeta. unfold JS.signed.
      pose proof (Z.pow_pos_nonneg 2 (- e) ltac:(lia) ltac:(lia)) as Hd.
      pose proof (Z.pow_pos_nonneg 2 (e + 1074) ltac:(lia) ltac:(lia)) as Hk.
      assert (2 ^ 1074 = 2 ^ (- e) * 2 ^ (e + 1074)) as E2.
      { rewrite <- pow_split by lia. f_equal. lia. }
      assert (2 ^ (- e + 1) = 2 * 2 ^ (- e)) as E3.
      { replace (- e + 1) with (Z.succ (- e)) by lia. apply Z.pow_succ_r. lia. }
      assert ((2 * (Z.pos m * 2 ^ (e + 1074)) + 2 ^ 1074) / 2 ^ 1075
              = (2 * Z.pos m + 2 ^ (- e)) / 2 ^ (- e + 1)) as ->.
      { rewrite E75, E3. rewrite E2 at 1 2.
        replace (2 * (Z.pos m * 2 ^ (e + 1074)) + 2 ^ (- e) * 2 ^ (e + 1074))
          with ((2 * Z.pos m + 2 ^ (- e)) * 2 ^ (e + 1074)) by ring.
        replace (2 * (2 ^ (- e) * 2 ^ (e + 1074)))
          with (2 * 2 ^ (- e) * 2 ^ (e + 1074)) by ring.
        apply Z.div_mul_cancel_r; lia. }
      assert (0 <= (2 * Z.pos m + 2 ^ (- e)) / 2 ^ (- e + 1) < 2 ^ 53) as Hn.
      { split; [apply Z.div_pos; lia|].
        apply Z.div_lt_upper_bound; [lia|]. rewrite E3.
        assert (2 <= 2 ^ (- e)).
        { change 2 with (2 ^ 1) at 1. apply Z.pow_le_mono_r; lia. }
        nia. }
      destruct (Z.eqb_spec ((2 * Z.pos m + 2 ^ (- e)) / 2 ^ (- e + 1)) 0) as [E0|N0].
      * rewrite E0. reflexivity.
      * apply ToUint8_of_Z, Hn.
Qed.

Lemma weighted_sum_within (data : list Z) (idx : nat) (R G B : Z) :
  data !! idx = Some R -> data !! (idx + 1)%nat = Some G ->
  data !! (idx + 2)%nat = Some B ->
  0 <= R <= 255 -> 0 <= G <= 255 -> 0 <= B <= 255 ->
  within (weighted_sum data idx)
    (R * q_299 + G * q_587 + B * q_114)
    (R * (q_299 + 1) + G * (q_587 + 1) + B * (q_114 + 1)).
Proof.
  intros ER EG EB HR HG HB. unfold weighted_sum, JS.read. rewrite ER, EG, EB.
  destruct weights_bracketed as ((H1 & F1 & B1) & (H2 & F2 & B2) & (H3 & F3 & B3)).
  assert (2 ^ 52 = 4503599627370496) as E52 by reflexivity.
  assert (2 ^ 40 = 1099511627776) as E40 by reflexivity.
  unfold q_299, q_587, q_114 in *.
  pose proof (within_mul_byte R _ _ HR H1 F1 B1 ltac:(lia)) as W1.
  pose proof (within_mul_byte G _ _ HG H2 F2 B2 ltac:(lia)) as W2.
  pose proof (within_mul_byte B _ _ HB H3 F3 B3 ltac:(lia)) as W3.
  apply within_add; [apply within_add| | | | |]; try assumption; lia.
Qed.

(** The luminance byte of a pixel is an integer nearest to the weighted
    sum of its channels, taken exactly. *)
Lemma luminance_nearest (data : list Z) (idx : nat) (R G B : Z) :
  data !! idx = Some R -> data !! (idx + 1)%nat = Some G ->
  data !! (idx + 2)%nat = Some B ->
  0 <= R <= 255 -> 0 <= G <= 255 -> 0 <= B <= 255 ->
  let L := JS.ToUint8 (Outline.luminance data idx) in
  0 <= L <= 255
  /\ Z.abs (1000 * L - (299 * R + 587 * G + 114 * B)) <= 500.
Proof.
  intros ER EG EB HR HG HB L.
  pose proof (weighted_sum_within data idx R G B ER EG EB HR HG HB) as (Hs & Ns & Rs).
  assert (L = JS.ToUint8 (JS.Math_round (weighted_sum data idx))) as EL by reflexivity.
  assert (0 < 2 ^ 1044) as HW by (apply Z.pow_pos_nonneg; lia).
  assert (2 ^ 1074 = 2 ^ 30 * 2 ^ 1044) as EU by (rewrite <- pow_split by lia; reflexivity).
  assert (2 ^ 1075 = 2 * 2 ^ 1074) as E75 by (apply (Z.pow_succ_r 2 1074); lia).
  assert (2 ^ 30 = 1073741824) as E30 by reflexivity.
  assert (2 ^ 52 = 4503599627370496) as E52 by reflexivity.
  unfold q_299, q_587, q_114 in Rs.
  set (v := val (weighted_sum data idx)) in *.
  rewrite round_byte in EL; [|assumption|assumption|fold v; rewrite EU; nia].
  fold v in EL.
  set (n := (2 * v + 2 ^ 1074) / 2 ^ 1075) in *.
  assert (2 ^ 1075 * n <= 2 * v + 2 ^ 1074 < 2 ^ 1075 * (n + 1)) as Hn.
  { pose proof (Z.div_mod (2 * v + 2 ^ 1074) (2 ^ 1075) ltac:(lia)) as Hdm.
    pose proof (Z.mod_pos_bound (2 * v + 2 ^ 1074) (2 ^ 1075) ltac:(lia)) as Hr.
    fold n in Hdm. lia. }
  rewrite E75, EU in Hn.
  assert (2 * 2 ^ 30 * n <= 2 * (R * (321048805 + 1) + G * (630286450 + 1)
                                 + B * (122406567 + 1)) + 2 ^ 30) as Up by nia.
  assert (2 * (R * 321048805 + G * 630286450 + B * 122406567) + 2 ^ 30
          < 2 * 2 ^ 30 * (n + 1)) as Lo by nia.
  rewrite E30 in Up, Lo.
  assert (0 <= n <= 255) as Rn by lia.
  rewrite Z.mod_small in EL by lia. subst L. rewrite EL.
  split; [exact Rn|lia].
Qed.

(** ** The pixels of the overlay *)

Lemma interiorb_spec (w h x y : nat) : interiorb w h x y = true <-> interior w h x y.
Proof.
  unfold interiorb, interior.
  rewrite !andb_true_iff, !Nat.leb_le, !Nat.ltb_lt. lia.
Qed.

Lemma edgeResponse_number gray (w x y : nat) :
  is_number (Outline.edgeResponse gray w x y).
Proof. unfold Outline.edgeResponse. cbv zeta. apply SFsqrt_valid. Qed.

(** The four bytes the inner loop leaves for its own pixel. *)
Lemma outline_pixel_bytes gray (w h : nat) col t i (x y : nat) :
  (x < w)%nat -> (y < h)%nat ->
  let o := Outline.outline_pixel gray w col t i y x (transparent w h) in
  let idx := ((y * w + x) * 4)%nat in
  if JS.gt (Outline.edgeResponse gray w x y) t then
    o !! idx = Some (JS.ToUint8Clamp (Rgb.r col))
    /\ o !! (idx + 1)%nat = Some (JS.ToUint8Clamp (Rgb.g col))
    /\ o !! (idx + 2)%nat = Some (JS.ToUint8Clamp (Rgb.b col))
    /\ o !! (idx + 3)%nat
       = Some (JS.ToUint8Clamp
                 (JS.Math_min JS.lit_255
                    (JS.mul (edgeStrength (Outline.edgeResponse gray w x y) t) i)))
  else
    o !! idx = Some 0 /\ o !! (idx + 1)%nat = Some 0
    /\ o !! (idx + 2)%nat = Some 0 /\ o !! (idx + 3)%nat = Some 0.
Proof.
  intros Hx Hy o idx. subst o. unfold Outline.outline_pixel. cbv zeta.
  fold idx. fold (edgeStrength (Outline.edgeResponse gray w x y) t).
  pose proof (pixel_index_lt w h x y Hx Hy) as Hlt.
  assert (idx + 3 < length (transparent w h))%nat as Hlen.
  { unfold transparent. rewrite length_replicate. unfold idx. lia. }
  destruct (JS.gt (Outline.edgeResponse gray w x y) t).
  - repeat split.
    + rewrite !list_lookup_insert_ne by lia.
      apply list_lookup_insert_eq. lia.
    + rewrite !list_lookup_insert_ne by lia.
      apply list_lookup_insert_eq. rewrite !length_insert. lia.
    + rewrite !list_lookup_insert_ne by lia.
      apply list_lookup_insert_eq. rewrite !length_insert. lia.
    + apply list_lookup_insert_eq. rewrite !length_insert. lia.
  - unfold transparent in Hlen. rewrite length_replicate in Hlen.
    repeat split; apply transparent_lookup; unfold idx in *; lia.
Qed.

(** The alpha of every pixel of the outline image. *)
Lemma outline_of_alpha gray (w h : nat) col t i (x y : nat) :
  (x < w)%nat -> (y < h)%nat ->
  alpha (Outline.outline_of gray w h col t i) w x y
  = Some (if interiorb w h x y
          then alpha_of (Outline.edgeResponse gray w x y) t i
          else 0).
Proof.
  intros Hx Hy. unfold alpha, channel.
  destruct (interiorb w h x y) eqn:Hi.
  - apply interiorb_spec in Hi as (Ix & Iy).
    rewrite outline_of_interior by (try assumption; lia).
    pose proof (outline_pixel_bytes gray w h col t i x y Hx Hy) as Hb.
    cbv zeta in Hb. unfold alpha_of. fold (edgeStrength (Outline.edgeResponse gray w x y) t).
    destruct (JS.gt (Outline.edgeResponse gray w x y) t); apply Hb.
  - apply outline_of_border; try assumption; [lia|].
    intros Hin. apply interiorb_spec in Hin. congruence.
Qed.

(** ** Counting opaque pixels *)

Lemma filter_length_le {A : Type} (f g : A -> bool) (l : list A) :
  (forall a, a ∈ l -> f a = true -> g a = true) ->
  (length (List.filter f l) <= length (List.filter g l))%nat.
Proof.
  induction l as [|a l IH]; intros H; simpl; [lia|].
  assert (length (List.filter f l) <= length (List.filter g l))%nat as IH'.
  { apply IH. intros b Hb. apply H. right. exact Hb. }
  destruct (f a) eqn:Fa.
  - rewrite (H a ltac:(left) Fa). simpl. lia.
  - destruct (g a); simpl; lia.
Qed.

Lemma outline_count_mono gray (w h : nat) col (t1 t2 i : JS.number) :
  is_number t1 -> is_number t2 -> is_number i -> JS.le t1 t2 = true ->
  (count_opaque (Outline.outline_of gray w h col t2 i) w h
   <= count_opaque (Outline.outline_of gray w h col t1 i) w h)%nat.
Proof.
  intros H1 H2 Hi Hle. unfold count_opaque. apply filter_length_le.
  intros p Hp. apply elem_of_seq in Hp as (_ & Hp). simpl in Hp.
  assert (0 < w)%nat as Hw by (destruct w; [simpl in Hp|]; lia).
  set (x := (p mod w)%nat). set (y := (p / w)%nat).
  assert (p = y * w + x)%nat as Ep.
  { unfold x, y. pose proof (Nat.div_mod_eq p w). lia. }
  assert (x < w)%nat as Hx by (apply Nat.mod_upper_bound; lia).
  assert (y < h)%nat as Hy.
  { unfold y. apply Nat.Div0.div_lt_upper_bound. lia. }
  unfold opaque.
  pose proof (outline_of_alpha gray w h col t1 i x y Hx Hy) as A1.
  pose proof (outline_of_alpha gray w h col t2 i x y Hx Hy) as A2.
  unfold alpha, channel in A1, A2. rewrite <- Ep in A1, A2. rewrite A1, A2.
  destruct (interiorb w h x y); [|discriminate].
  rewrite !Z.ltb_lt. apply alpha_of_mono; try assumption.
  apply edgeResponse_number.
Qed.

(** When the page cannot draw, the bitmap does not depend on the threshold
    nor on the intensity; when it can, the bitmap is the overlay. *)
Lemma drawn_cases st document v c color mode :
  (forall t i, drawn st document v c color t i mode = overlay v color t i)
  \/ (exists bitmap, forall t i, drawn st document v c color t i mode = bitmap).
Proof.
  unfold drawn.
  assert (forall t i,
             Outline.processFrame st document v c color t true i mode
             = draw st document v (fitted v c) color t i) as E.
  { intros t i. apply processFrame_unfold. }
  destruct (fitted_size v c) as (Hw & Hh & Hc).
  unfold draw in E. rewrite Hw, Hh in E.
  destruct (canvas_context2d (fitted v c)); simpl negb in E; cbv iota in E.
  - destruct (offscreen_context2d document); simpl negb in E; cbv iota in E.
    + unfold capture in E.
      destruct ((videoWidth v =? 0) || (videoHeight v =? 0))%nat; cbv iota in E.
      * right. eexists. intros t i. rewrite E. reflexivity.
      * left. intros t i. rewrite E. reflexivity.
    + right. eexists. intros t i. rewrite E. reflexivity.
  - right. eexists. intros t i. rewrite E. reflexivity.
Qed.

Lemma drawn_overlay st document v c color t i mode :
  drawable document v c -> drawn st document v c color t i mode = overlay v color t i.
Proof.
  intros D. unfold drawn. rewrite (processFrame_enabled _ _ _ _ _ _ _ _ D). reflexivity.
Qed.

(** Storing a byte in a [Uint8ClampedArray] keeps it. *)
Lemma ToUint8Clamp_of_Z (n : Z) : 0 <= n <= 255 -> JS.ToUint8Clamp (JS.of_Z n) = n.
Proof.
  intros Hn. destruct (Z.eq_dec n 0) as [->|NZ]; [reflexivity|].
  assert (256 < 2 ^ 53) as H256 by reflexivity.
  destruct (of_Z_facts n) as (Hv & _ & _).
  destruct (of_Z_exact n ltac:(lia)) as (E & F).
  pose proof (of_Z_plus n ltac:(lia)) as P.
  assert (0 < 2 ^ 1074) as HU by (apply Z.pow_pos_nonneg; lia).
  remember (JS.of_Z n) as r eqn:Hr. clear Hr.
  destruct r as [[|]|[|]| |[|] m e]; try discriminate F; try discriminate P.
  - cbn [val] in E. nia.
  - cbn [val] in E. cbn [JS.ToUint8Clamp].
    destruct (canonical_facts false m e Hv) as (He & _). unfold mag in E.
    destruct (Z.leb_spec 0 e) as [L|L].
    + rewrite (pow_split e 1074) in E by lia.
      pose proof (Z.pow_pos_nonneg 2 e ltac:(lia) L). nia.
    + assert (2 ^ 1074 = 2 ^ (- e) * 2 ^ (e + 1074)) as E2.
      { rewrite <- pow_split by lia. f_equal. lia. }
      pose proof (Z.pow_pos_nonneg 2 (- e) ltac:(lia) ltac:(lia)) as Hd.
      pose proof (Z.pow_pos_nonneg 2 (e + 1074) ltac:(lia) ltac:(lia)) as Hk.
      assert (Z.pos m = n * 2 ^ (- e)) as -> by nia.
      cbv zeta. rewrite Z.div_mul, Z.mod_mul by lia.
      destruct (Z.leb_spec 255 n); [lia|].
      destruct (Z.ltb_spec (2 * 0) (2 ^ (- e))); [reflexivity|lia].
Qed.

Lemma hexToRgb_bytes (color : string) (r g b : Z) :
  parse_color color = Some (r, g, b) ->
  JS.ToUint8Clamp (Rgb.r (Outline.hexToRgb color)) = r
  /\ JS.ToUint8Clamp (Rgb.g (Outline.hexToRgb color)) = g
  /\ JS.ToUint8Clamp (Rgb.b (Outline.hexToRgb color)) = b.
Proof.
  intros Hp. destruct (parse_color_bytes color r g b Hp) as (Hr & Hg & Hb).
  unfold Outline.hexToRgb. rewrite hexToRgb_or_spec, Hp. cbn [rgb_of_bytes Rgb.r Rgb.g Rgb.b].
  rewrite !ToUint8Clamp_of_Z by assumption. repeat split.
Qed.

(** ** Loops with equal bodies *)

Lemma for_loop_ext {S : Type} (from to : nat) (f g : nat -> S -> S) (s : S) :
  (forall i s, f i s = g i s) -> for_loop from to f s = for_loop from to g s.
Proof.
  intros E. unfold for_loop. generalize (seq from (to - from)). intros l. revert s.
  induction l as [|a l IH]; intros s; simpl; [reflexivity|].
  rewrite E. apply IH.
Qed.

(** An intensity below zero draws what intensity 0 draws. *)
Lemma outline_of_negative gray (w h : nat) col (t i : JS.number) :
  is_number t -> is_number i -> JS.lt i JS.lit_0 = true ->
  Outline.outline_of gray w h col t i = Outline.outline_of gray w h col t JS.lit_0.
Proof.
  intros Ht Hi Hlt.
  apply lt_val in Hlt as (Ni & _ & Vi); [|assumption|reflexivity].
  change (val JS.lit_0) with 0 in Vi.
  unfold Outline.outline_of.
  apply for_loop_ext. intros y o. apply for_loop_ext. intros x o'.
  unfold Outline.outline_pixel. cbv zeta.
  destruct (JS.gt (Outline.edgeResponse gray w x y) t) eqn:G; [|reflexivity].
  fold (edgeStrength (Outline.edgeResponse gray w x y) t).
  destruct (edgeStrength_facts _ t (edgeResponse_number gray w x y) Ht G)
    as (Hs & Ns & Fs & _ & Vs & _).
  rewrite (alpha_nonpositive _ i Hs Ns Fs Vs Hi ltac:(lia)).
  rewrite (alpha_nonpositive _ JS.lit_0 Hs Ns Fs Vs eq_refl ltac:(reflexivity)).
  reflexivity.
Qed.

Lemma mul_comm (x y : JS.number) : JS.mul x y = JS.mul y x.
Proof.
  unfold JS.mul.
  destruct x as [sx|sx| |sx mx ex], y as [sy|sy| |sy my ey]; simpl;
    try reflexivity; try (rewrite xorb_comm; reflexivity).
  rewrite xorb_comm, Pos.mul_comm, Z.add_comm. reflexivity.
Qed.

Lemma getGrayscale_weighted_sum (data : list Z) (w x y : nat) :
  Worker.getGrayscale data w y x = weighted_sum data ((y * w + x) * 4).
Proof.
  unfold Worker.getGrayscale, weighted_sum. cbv zeta.
  rewrite (mul_comm JS.lit_0_299), (mul_comm JS.lit_0_587), (mul_comm JS.lit_0_114).
  reflexivity.
Qed.

(** ** Thresholding and shading *)

(** C1. With focus peaking enabled, an interior pixel whose gradient
    magnitude exceeds the threshold gets the bytes of the highlight colour
    and, as alpha, [clamp(0, 255, clamp(0, 255, (magnitude - threshold) * 2)
    * intensity)] as the 8-bit channel stores it (an integer from 0 to
    255 is stored as it is); the colour bytes are those the colour string
    denotes; every other pixel has alpha 0. *)
Theorem edge_pixels_are_shaded st document v c color
    (threshold intensity : JS.number) mode (x y : nat) :
  drawable document v c -> is_number threshold ->
  (x < videoWidth v)%nat -> (y < videoHeight v)%nat ->
  let w := videoWidth v in
  let h := videoHeight v in
  let bitmap := drawn st document v c color threshold intensity mode in
  let magnitude := magnitude_at v x y in
  let colorRgb := Outline.hexToRgb color in
  (interior w h x y -> JS.gt magnitude threshold = true ->
   channel bitmap w x y 0 = Some (JS.ToUint8Clamp (Rgb.r colorRgb))
   /\ channel bitmap w x y 1 = Some (JS.ToUint8Clamp (Rgb.g colorRgb))
   /\ channel bitmap w x y 2 = Some (JS.ToUint8Clamp (Rgb.b colorRgb))
   /\ alpha bitmap w x y
      = Some (JS.ToUint8Clamp
                (clamp JS.lit_0 JS.lit_255
                   (JS.mul
                      (clamp JS.lit_0 JS.lit_255
                         (JS.mul (JS.sub magnitude threshold) JS.lit_2))
                      intensity))))
  /\ (forall r g b : Z,
         parse_color color = Some (r, g, b) ->
         JS.ToUint8Clamp (Rgb.r colorRgb) = r
         /\ JS.ToUint8Clamp (Rgb.g colorRgb) = g
         /\ JS.ToUint8Clamp (Rgb.b colorRgb) = b)
  /\ (~ (interior w h x y /\ JS.gt magnitude threshold = true) ->
      alpha bitmap w x y = Some 0)
  /\ (forall n : Z, 0 <= n <= 255 -> JS.ToUint8Clamp (JS.of_Z n) = n).
Proof.
  intros D Ht Hx Hy w h bitmap magnitude colorRgb.
  subst bitmap. rewrite (drawn_overlay _ _ _ _ _ _ _ _ D). unfold overlay.
  fold w h colorRgb.
  set (gray := Outline.grayscale_of (video_frame v) w h).
  assert (magnitude = Outline.edgeResponse gray w x y) as Em by reflexivity.
  split; [|split; [|split; [|exact ToUint8Clamp_of_Z]]].
  - intros (Ix & Iy) G. unfold alpha, channel.
    rewrite !outline_of_interior by (try assumption; lia).
    pose proof (outline_pixel_bytes gray w h colorRgb threshold intensity x y Hx Hy) as Hb.
    cbv zeta in Hb. rewrite <- Em, G in Hb. destruct Hb as (B0 & B1 & B2 & B3).
    rewrite Nat.add_0_r.
    repeat split; try assumption.
    rewrite B3. f_equal. apply alpha_clamped; [|exact Ht|exact G].
    rewrite Em. apply edgeResponse_number.
  - intros r g b. apply hexToRgb_bytes.
  - intros Hn. rewrite outline_of_alpha by assumption. f_equal.
    destruct (interiorb w h x y) eqn:Hi; [|reflexivity].
    apply interiorb_spec in Hi. unfold alpha_of. rewrite <- Em.
    destruct (JS.gt magnitude threshold); [|reflexivity].
    exfalso. apply Hn. split; [exact Hi|reflexivity].
Qed.

(** C2. At an interior pixel the edge response is the square root of
    [gx^2 + gy^2], where [gx] and [gy] are the absolute differences of
    the luminance bytes of the horizontal and of the vertical neighbours;
    the differences, squares and sum are computed without rounding. *)
Theorem four_neighbour_magnitude (data : list Z) (w h x y : nat) :
  interior w h x y ->
  let lum := luminance_byte data w in
  let gx := Z.abs (lum (x + 1)%nat y - lum (x - 1)%nat y) in
  let gy := Z.abs (lum x (y + 1)%nat - lum x (y - 1)%nat) in
  Outline.edgeResponse (Outline.grayscale_of data w h) w x y
  = JS.Math_sqrt (JS.of_Z (gx * gx + gy * gy)).
Proof.
  intros (Hx & Hy) lum gx gy. unfold Outline.edgeResponse. cbv zeta.
  unfold JS.read.
  rewrite !grayscale_of_lookup by lia.
  fold (luminance_byte data w x (y - 1)). fold (luminance_byte data w x (y + 1)).
  fold (luminance_byte data w (x - 1) y). fold (luminance_byte data w (x + 1) y).
  fold lum.
  pose proof (ToUint8_range (Outline.luminance data (((y - 1) * w + x) * 4))) as R1.
  pose proof (ToUint8_range (Outline.luminance data (((y + 1) * w + x) * 4))) as R2.
  pose proof (ToUint8_range (Outline.luminance data ((y * w + (x - 1)) * 4))) as R3.
  pose proof (ToUint8_range (Outline.luminance data ((y * w + (x + 1)) * 4))) as R4.
  fold (luminance_byte data w x (y - 1)) in R1. fold (luminance_byte data w x (y + 1)) in R2.
  fold (luminance_byte data w (x - 1) y) in R3. fold (luminance_byte data w (x + 1) y) in R4.
  fold lum in R1, R2, R3, R4.
  assert (256 < 2 ^ 53) as H256 by reflexivity.
  rewrite !abs_sub_of_Z by lia. fold gx gy.
  assert (0 <= gx < 256 /\ 0 <= gy < 256) as (Gx & Gy) by (unfold gx, gy; lia).
  assert (256 * 256 + 256 * 256 < 2 ^ 53) as Hsq by reflexivity.
  rewrite !mul_of_Z by (try split; nia). rewrite add_of_Z by nia. reflexivity.
Qed.

(** C3, as stated, fails on [getGrayscale] of the worker revision: for the
    pixel (1, 0, 0) it returns 0.299, and [round(0.299)] is 0. *)
Lemma getGrayscale_is_not_rounded :
  Worker.getGrayscale [1; 0; 0; 255] 1 0 0 = JS.lit_0_299
  /\ JS.Math_round JS.lit_0_299 = JS.lit_0
  /\ Worker.getGrayscale [1; 0; 0; 255] 1 0 0
     <> JS.Math_round (Worker.getGrayscale [1; 0; 0; 255] 1 0 0).
Proof.
  split; [reflexivity|]. split; [reflexivity|].
  intros E. vm_compute in E. discriminate E.
Qed.

(** C3, amended. The luminance byte [processFrame] keeps in its grayscale
    buffer for a pixel, and the one the worker keeps, is
    [Math.round(R * 0.299 + G * 0.587 + B * 0.114)]: an integer from 0 to
    255, nearest to the weighted sum of the channels taken exactly.
    [getGrayscale] returns the weighted sum itself, not rounded. *)
Theorem luminance_is_rounded (data : list Z) (w h x y : nat) (R G B : Z) :
  (x < w)%nat -> (y < h)%nat ->
  data !! ((y * w + x) * 4)%nat = Some R ->
  data !! ((y * w + x) * 4 + 1)%nat = Some G ->
  data !! ((y * w + x) * 4 + 2)%nat = Some B ->
  0 <= R <= 255 -> 0 <= G <= 255 -> 0 <= B <= 255 ->
  let L := luminance_byte data w x y in
  Outline.grayscale_of data w h !! (y * w + x)%nat = Some L
  /\ Worker.grayscale_of data w h !! (y * w + x)%nat = Some L
  /\ L = JS.ToUint8 (JS.Math_round (weighted_sum data ((y * w + x) * 4)))
  /\ 0 <= L <= 255
  /\ Z.abs (1000 * L - (299 * R + 587 * G + 114 * B)) <= 500
  /\ Worker.getGrayscale data w y x = weighted_sum data ((y * w + x) * 4).
Proof.
  intros Hx Hy ER EG EB HR HG HB L.
  pose proof (luminance_nearest data _ R G B ER EG EB HR HG HB) as (Rl & Nl).
  split; [apply grayscale_of_lookup; assumption|].
  split; [apply (grayscale_of_lookup data w h x y); assumption|].
  split; [reflexivity|]. split; [exact Rl|]. split; [exact Nl|].
  apply getGrayscale_weighted_sum.
Qed.

(** C6. For a fixed frame and a fixed intensity, raising the threshold
    never raises the number of pixels of the output with alpha > 0. *)
Theorem threshold_monotone st document v c color
    (t1 t2 intensity : JS.number) mode :
  is_number t1 -> is_number t2 -> is_number intensity ->
  JS.le t1 t2 = true ->
  (count_opaque (drawn st document v c color t2 intensity mode)
     (videoWidth v) (videoHeight v)
   <= count_opaque (drawn st document v c color t1 intensity mode)
        (videoWidth v) (videoHeight v))%nat.
Proof.
  intros H1 H2 Hi Hle.
  destruct (drawn_cases st document v c color mode) as [E|(bitmap & E)].
  - rewrite !E. unfold overlay. apply outline_count_mono; assumption.
  - rewrite !E. lia.
Qed.

(** C9, as stated, fails: the intensity is not clamped to 1. On the sample
    frame, intensity 2 gives the alpha 160 where intensity 1 gives 80. *)
Lemma intensity_is_not_clamped :
  alpha
    (drawn sample_state sample_document sample_video sample_canvas "#00ff00"
       (JS.of_Z 30) (JS.of_Z 2) "outline") 3 1 1 = Some 160
  /\ alpha
       (drawn sample_state sample_document sample_video sample_canvas "#00ff00"
          (JS.of_Z 30) (JS.of_Z 1) "outline") 3 1 1 = Some 80
  /\ JS.gt (JS.of_Z 2) (JS.of_Z 1) = true
  /\ Outline.processFrame sample_state sample_document sample_video
       sample_canvas "#00ff00" (JS.of_Z 30) true (JS.of_Z 2) "outline"
     <> Outline.processFrame sample_state sample_document sample_video
          sample_canvas "#00ff00" (JS.of_Z 30) true (JS.of_Z 1) "outline".
Proof.
  split; [vm_compute; reflexivity|]. split; [vm_compute; reflexivity|].
  split; [reflexivity|].
  intros E.
  apply (f_equal (fun r => canvas_bitmap (outcome_canvas (snd r)) !! 19%nat)) in E.
  vm_compute in E. discriminate E.
Qed.

(** C9, amended. Whatever the intensity, the call returns; an intensity
    below 0 draws what intensity 0 draws; an intensity above 1 is not
    brought back to 1: the alpha of an edge pixel is the edge strength
    times the intensity as given, limited to 255. *)
Theorem intensity_is_used_as_given st document v c color
    (threshold intensity : JS.number) mode :
  drawable document v c -> is_number threshold -> is_number intensity ->
  (exists canvas console,
      snd (Outline.processFrame st document v c color threshold true
             intensity mode) = Returned canvas console)
  /\ (JS.lt intensity JS.lit_0 = true ->
      Outline.processFrame st document v c color threshold true intensity mode
      = Outline.processFrame st document v c color threshold true JS.lit_0 mode)
  /\ (forall x y : nat,
         interior (videoWidth v) (videoHeight v) x y ->
         JS.gt (magnitude_at v x y) threshold = true ->
         alpha (drawn st document v c color threshold intensity mode)
           (videoWidth v) x y
         = Some (JS.ToUint8Clamp
                   (JS.Math_min JS.lit_255
                      (JS.mul (edgeStrength (magnitude_at v x y) threshold)
                         intensity)))).
Proof.
  intros D Ht Hi. split; [|split].
  - rewrite (processFrame_enabled _ _ _ _ _ _ _ _ D). eexists. eexists. reflexivity.
  - intros Hlt. rewrite !(processFrame_enabled _ _ _ _ _ _ _ _ D).
    unfold overlay. rewrite (outline_of_negative _ _ _ _ _ _ Ht Hi Hlt). reflexivity.
  - intros x y (Ix & Iy) G. rewrite (drawn_overlay _ _ _ _ _ _ _ _ D). unfold overlay.
    unfold alpha, channel. rewrite outline_of_interior by (try assumption; lia).
    pose proof (outline_pixel_bytes
                  (Outline.grayscale_of (video_frame v) (videoWidth v) (videoHeight v))
                  (videoWidth v) (videoHeight v) (Outline.hexToRgb color)
                  threshold intensity x y ltac:(lia) ltac:(lia)) as Hb.
    cbv zeta in Hb. fold (magnitude_at v x y) in Hb. rewrite G in Hb.
    apply Hb.
Qed.

(** *** The theorems on the sample frame *)

Lemma edge_pixels_are_shaded_witness :
  channel
    (drawn sample_state sample_document sample_video sample_canvas "#00ff00"
       (JS.of_Z 30) (JS.of_Z 1) "outline") 3 1 1 0
  = Some (JS.ToUint8Clamp (Rgb.r (Outline.hexToRgb "#00ff00")))
  /\ channel
       (drawn sample_state sample_document sample_video sample_canvas "#00ff00"
          (JS.of_Z 30) (JS.of_Z 1) "outline") 3 1 1 1
     = Some (JS.ToUint8Clamp (Rgb.g (Outline.hexToRgb "#00ff00")))
  /\ channel
       (drawn sample_state sample_document sample_video sample_canvas "#00ff00"
          (JS.of_Z 30) (JS.of_Z 1) "outline") 3 1 1 2
     = Some (JS.ToUint8Clamp (Rgb.b (Outline.hexToRgb "#00ff00")))
  /\ alpha
       (drawn sample_state sample_document sample_video sample_canvas "#00ff00"
          (JS.of_Z 30) (JS.of_Z 1) "outline") 3 1 1
     = Some (JS.ToUint8Clamp
               (clamp JS.lit_0 JS.lit_255
                  (JS.mul
                     (clamp JS.lit_0 JS.lit_255
                        (JS.mul
                           (JS.sub (magnitude_at sample_video 1 1) (JS.of_Z 30))
                           JS.lit_2))
                     (JS.of_Z 1)))).
Proof.
  apply (proj1 (edge_pixels_are_shaded sample_state sample_document sample_video
                  sample_canvas "#00ff00" (JS.of_Z 30) (JS.of_Z 1) "outline"
                  1%nat 1%nat sample_drawable eq_refl
                  ltac:(simpl; lia) ltac:(simpl; lia))).
  - split; simpl; lia.
  - vm_compute. reflexivity.
Defined.

Lemma four_neighbour_magnitude_witness :
  Outline.edgeResponse (Outline.grayscale_of (video_frame sample_video) 3 3) 3 1 1
  = JS.Math_sqrt (JS.of_Z (70 * 70 + 0 * 0)).
Proof.
  apply (four_neighbour_magnitude (video_frame sample_video) 3 3 1 1).
  split; lia.
Defined.

Lemma luminance_is_rounded_witness :
  Outline.grayscale_of (video_frame sample_video) 3 3 !! (1 * 3 + 2)%nat = Some 70.
Proof.
  apply (proj1 (luminance_is_rounded (video_frame sample_video) 3 3 2 1 70 70 70
                  ltac:(lia) ltac:(lia) eq_refl eq_refl eq_refl
                  ltac:(lia) ltac:(lia) ltac:(lia))).
Defined.

Lemma threshold_monotone_witness :
  (count_opaque
     (drawn sample_state sample_document sample_video sample_canvas "#00ff00"
        (JS.of_Z 80) (JS.of_Z 1) "outline") 3 3
   <= count_opaque
        (drawn sample_state sample_document sample_video sample_canvas "#00ff00"
           (JS.of_Z 30) (JS.of_Z 1) "outline") 3 3)%nat.
Proof.
  apply (threshold_monotone sample_state sample_document sample_video
           sample_canvas "#00ff00" (JS.of_Z 30) (JS.of_Z 80) (JS.of_Z 1) "outline"
           eq_refl eq_refl eq_refl eq_refl).
Defined.

Lemma intensity_is_used_as_given_witness :
  Outline.processFrame sample_state sample_document sample_video sample_canvas
    "#00ff00" (JS.of_Z 30) true (JS.of_Z (-1)) "outline"
  = Outline.processFrame sample_state sample_document sample_video sample_canvas
      "#00ff00" (JS.of_Z 30) true JS.lit_0 "outline".
Proof.
  apply (proj1 (proj2 (intensity_is_used_as_given sample_state sample_document
                         sample_video sample_canvas "#00ff00" (JS.of_Z 30)
                         (JS.of_Z (-1)) "outline" sample_drawable eq_refl eq_refl))).
  reflexivity.
Defined.

(** * The other revisions of the file *)

(** ** Integers in binary64, whatever the sign of zero *)

Lemma finite_of_val (x : JS.number) (z : Z) :
  is_nan x = false -> val x = z * 2 ^ 1074 -> Z.abs z < 2 ^ 53 ->
  finite_or_zero x = true.
Proof.
  intros Nx V Hz.
  destruct (finite_or_zero x) eqn:F; [reflexivity|exfalso].
  assert (2 ^ 53 * 2 ^ 1074 < 2 ^ 2098).
  { rewrite <- pow_split by lia. apply Z.pow_lt_mono_r; lia. }
  assert (0 < 2 ^ 1074) by (apply Z.pow_pos_nonneg; lia).
  pose proof huge_big.
  destruct (not_finite_cases _ Nx F) as [E|E]; rewrite E in V; cbn [val] in V; nia.
Qed.

Lemma integer_of_Z (z : Z) : Z.abs z < 2 ^ 53 -> integer (JS.of_Z z) z.
Proof.
  intros Hz. destruct (of_Z_facts z) as (Hv & Hn & _).
  destruct (of_Z_exact z Hz) as (E & F). repeat split; assumption.
Qed.

Lemma integer_add (x y : JS.number) (a b : Z) :
  integer x a -> integer y b -> Z.abs (a + b) < 2 ^ 53 ->
  integer (JS.add x y) (a + b).
Proof.
  intros (Hx & Nx & Fx & Vx) (Hy & Ny & Fy & Vy) Hab.
  destruct (add_val x y Hx Hy Fx Fy) as (V & Hv & Hn).
  assert (val (JS.add x y) = (a + b) * 2 ^ 1074) as E.
  { unfold JS.add, JS.prec, JS.emax. rewrite V, Vx, Vy.
    replace (a * 2 ^ 1074 + b * 2 ^ 1074) with ((a + b) * 2 ^ 1074) by ring.
    apply rz0_int, Hab. }
  split; [exact Hv|]. split; [exact Hn|]. split; [|exact E].
  apply (finite_of_val _ (a + b)); assumption.
Qed.

Lemma integer_sub (x y : JS.number) (a b : Z) :
  integer x a -> integer y b -> Z.abs (a - b) < 2 ^ 53 ->
  integer (JS.sub x y) (a - b).
Proof.
  intros (Hx & Nx & Fx & Vx) (Hy & Ny & Fy & Vy) Hab.
  destruct (sub_val x y Hx Hy Fx Fy) as (V & Hv & Hn).
  assert (val (JS.sub x y) = (a - b) * 2 ^ 1074) as E.
  { unfold JS.sub, JS.prec, JS.emax. rewrite V, Vx, Vy.
    replace (a * 2 ^ 1074 - b * 2 ^ 1074) with ((a - b) * 2 ^ 1074) by ring.
    apply rz0_int, Hab. }
  split; [exact Hv|]. split; [exact Hn|]. split; [|exact E].
  apply (finite_of_val _ (a - b)); assumption.
Qed.

Lemma integer_mul (x y : JS.number) (a b : Z) :
  integer x a -> integer y b -> Z.abs (a * b) < 2 ^ 53 ->
  integer (JS.mul x y) (a * b).
Proof.
  intros (Hx & Nx & Fx & Vx) (Hy & Ny & Fy & Vy) Hab.
  destruct (mul_val x y Hx Hy Fx Fy) as (V & Hv & Hn).
  assert (val (JS.mul x y) = (a * b) * 2 ^ 1074) as E.
  { unfold JS.mul, JS.prec, JS.emax. rewrite V, Vx, Vy.
    replace (a * 2 ^ 1074 * (b * 2 ^ 1074)) with ((a * b) * 2 ^ 1074 * 2 ^ 1074) by ring.
    change (-2148) with (-1074 - 1074).
    rewrite (rz0_scale ((a * b) * 2 ^ 1074) (-1074) 1074) by lia.
    apply rz0_int, Hab. }
  split; [exact Hv|]. split; [exact Hn|]. split; [|exact E].
  apply (finite_of_val _ (a * b)); assumption.
Qed.

Lemma integer_opp (x : JS.number) (a : Z) :
  integer x a -> integer (SFopp x) (- a).
Proof.
  intros (Hx & Nx & Fx & Vx).
  assert (val (SFopp x) = - a * 2 ^ 1074) as E by (rewrite val_opp, Vx; ring).
  destruct x as [s|s| |s m e]; try discriminate Nx; try discriminate Fx;
    (split; [exact Hx|split; [reflexivity|split; [reflexivity|exact E]]]).
Qed.

(** A non-negative integer with the sign bit clear is [of_Z]. *)
Lemma integer_plus (x : JS.number) (z : Z) :
  integer x z -> plus_signed x = true -> 0 <= z < 2 ^ 53 -> x = JS.of_Z z.
Proof.
  intros (Hx & _ & _ & Vx) Px Hz. apply int_number; assumption.
Qed.

Lemma integer_abs (x : JS.number) (z : Z) :
  integer x z -> Z.abs z < 2 ^ 53 -> JS.Math_abs x = JS.of_Z (Z.abs z).
Proof.
  intros (Hx & Nx & Fx & Vx) Hz.
  destruct (abs_facts x Hx Nx) as (Ha & Pa & Va).
  apply int_number; try assumption; [lia|].
  rewrite Va, Vx. assert (0 < 2 ^ 1074) by (apply Z.pow_pos_nonneg; lia). nia.
Qed.

Lemma mul_self_plus (x : JS.number) :
  is_number x -> finite_or_zero x = true -> plus_signed (JS.mul x x) = true.
Proof.
  intros Hx Fx. destruct x as [s|s| |s m e]; try discriminate Fx.
  - destruct s; reflexivity.
  - unfold JS.mul, SFmul. rewrite xorb_nilpotent.
    destruct (canonical_facts s m e Hx) as (He & _).
    change (Z.pos (m * m)) with (Z.pos m * Z.pos m).
    rewrite binary_round_aux_exact
      by (try apply (mul_aligned s s); try assumption; lia).
    apply build_plus. lia.
Qed.

(** The square of an integer. *)
Lemma integer_square (x : JS.number) (z : Z) :
  integer x z -> z * z < 2 ^ 53 -> JS.mul x x = JS.of_Z (z * z).
Proof.
  intros Ix Hz. pose proof Ix as (Hx & _ & Fx & _).
  apply integer_plus; [|apply mul_self_plus; assumption|nia].
  apply integer_mul; try assumption. nia.
Qed.

Lemma read_integer (a : list Z) (i : nat) (b : Z) :
  a !! i = Some b -> 0 <= b <= 255 -> integer (JS.read a i) b.
Proof.
  intros E Hb. unfold JS.read. rewrite E. apply integer_of_Z.
  assert (256 < 2 ^ 53) by reflexivity. lia.
Qed.

(** ** The Sobel magnitude of the worker *)

Lemma grayscale_read (data : list Z) (w h x y : nat) :
  (x < w)%nat -> (y < h)%nat ->
  integer (JS.read (Outline.grayscale_of data w h) (y * w + x))
    (luminance_byte data w x y).
Proof.
  intros Hx Hy. apply read_integer.
  - apply grayscale_of_lookup; assumption.
  - pose proof (ToUint8_range (Outline.luminance data ((y * w + x) * 4))).
    unfold luminance_byte. lia.
Qed.

Lemma luminance_byte_range (data : list Z) (w x y : nat) :
  0 <= luminance_byte data w x y <= 255.
Proof.
  pose proof (ToUint8_range (Outline.luminance data ((y * w + x) * 4))).
  unfold luminance_byte. lia.
Qed.

Lemma lit_2_integer : integer JS.lit_2 2.
Proof. apply (integer_of_Z 2). reflexivity. Qed.

Lemma sobel_sum (tl a b tr c br : JS.number) (ztl za zb ztr zc zbr : Z) :
  integer tl ztl -> integer a za -> integer b zb -> integer tr ztr ->
  integer c zc -> integer br zbr ->
  0 <= ztl <= 255 -> 0 <= za <= 255 -> 0 <= zb <= 255 ->
  0 <= ztr <= 255 -> 0 <= zc <= 255 -> 0 <= zbr <= 255 ->
  integer
    (JS.add (JS.add (JS.add (JS.sub (JS.sub (SFopp tl) (JS.mul JS.lit_2 a)) b) tr)
               (JS.mul JS.lit_2 c)) br)
    (- ztl - 2 * za - zb + ztr + 2 * zc + zbr).
Proof.
  intros I1 I2 I3 I4 I5 I6 R1 R2 R3 R4 R5 R6.
  assert (2 ^ 53 = 9007199254740992) as E53 by reflexivity.
  apply integer_add; [|exact I6|lia].
  apply integer_add; [|apply integer_mul; [exact lit_2_integer|exact I5|lia]|lia].
  apply integer_add; [|exact I4|lia].
  apply integer_sub; [|exact I3|lia].
  apply integer_sub; [|apply integer_mul; [exact lit_2_integer|exact I2|lia]|lia].
  apply integer_opp, I1.
Qed.

Lemma sobel_exact (data : list Z) (w h x y : nat) :
  interior w h x y ->
  Worker.sobel (Worker.grayscale_of data w h) w x y
  = JS.Math_sqrt
      (JS.of_Z (sobel_gx (luminance_byte data w) x y * sobel_gx (luminance_byte data w) x y
                + sobel_gy (luminance_byte data w) x y * sobel_gy (luminance_byte data w) x y)).
Proof.
  intros (Hx & Hy).
  change (Worker.grayscale_of data w h) with (Outline.grayscale_of data w h).
  unfold Worker.sobel. cbv zeta.
  set (lum := luminance_byte data w).
  assert (forall x' y', (x' < w)%nat -> (y' < h)%nat ->
            integer (JS.read (Outline.grayscale_of data w h) (y' * w + x')) (lum x' y'))
    as Hr by (intros; apply grayscale_read; assumption).
  assert (forall x' y', 0 <= lum x' y' <= 255) as Hl
    by (intros; apply luminance_byte_range).
  pose proof (sobel_sum _ _ _ _ _ _ _ _ _ _ _ _
                (Hr (x - 1)%nat (y - 1)%nat ltac:(lia) ltac:(lia))
                (Hr (x - 1)%nat y ltac:(lia) ltac:(lia))
                (Hr (x - 1)%nat (y + 1)%nat ltac:(lia) ltac:(lia))
                (Hr (x + 1)%nat (y - 1)%nat ltac:(lia) ltac:(lia))
                (Hr (x + 1)%nat y ltac:(lia) ltac:(lia))
                (Hr (x + 1)%nat (y + 1)%nat ltac:(lia) ltac:(lia))
                (Hl _ _) (Hl _ _) (Hl _ _) (Hl _ _) (Hl _ _) (Hl _ _)) as Gx.
  pose proof (sobel_sum _ _ _ _ _ _ _ _ _ _ _ _
                (Hr (x - 1)%nat (y - 1)%nat ltac:(lia) ltac:(lia))
                (Hr x (y - 1)%nat ltac:(lia) ltac:(lia))
                (Hr (x + 1)%nat (y - 1)%nat ltac:(lia) ltac:(lia))
                (Hr (x - 1)%nat (y + 1)%nat ltac:(lia) ltac:(lia))
                (Hr x (y + 1)%nat ltac:(lia) ltac:(lia))
                (Hr (x + 1)%nat (y + 1)%nat ltac:(lia) ltac:(lia))
                (Hl _ _) (Hl _ _) (Hl _ _) (Hl _ _) (Hl _ _) (Hl _ _)) as Gy.
  fold (sobel_gx lum x y) in Gx. fold (sobel_gy lum x y) in Gy.
  assert (Z.abs (sobel_gx lum x y) <= 1020 /\ Z.abs (sobel_gy lum x y) <= 1020)
    as (Bx & By).
  { unfold sobel_gx, sobel_gy.
    pose proof (Hl (x - 1)%nat (y - 1)%nat). pose proof (Hl (x - 1)%nat y).
    pose proof (Hl (x - 1)%nat (y + 1)%nat). pose proof (Hl (x + 1)%nat (y - 1)%nat).
    pose proof (Hl (x + 1)%nat y). pose proof (Hl (x + 1)%nat (y + 1)%nat).
    pose proof (Hl x (y - 1)%nat). pose proof (Hl x (y + 1)%nat). lia. }
  assert (2 ^ 53 = 9007199254740992) as E53 by reflexivity.
  rewrite (integer_square _ _ Gx) by nia.
  rewrite (integer_square _ _ Gy) by nia.
  rewrite add_of_Z by nia. reflexivity.
Qed.

(** ** The image of the worker, pixel by pixel *)

Lemma peak_pixel_local data gray w col t y x (j : nat) :
  local j (Worker.peak_pixel data gray w col t y x).
Proof.
  unfold Worker.peak_pixel. cbv zeta.
  destruct (JS.gt _ t); intros o o' E.
  - do 8 apply insert_local. exact E.
  - do 5 apply insert_local. exact E.
Qed.

Lemma peak_pixel_keeps data gray w col t y x (j : nat) :
  (j `div` 4 ≠ y * w + x)%nat ->
  keeps j (Worker.peak_pixel data gray w col t y x).
Proof.
  intros Hne o. unfold Worker.peak_pixel. cbv zeta.
  assert (forall c, (c < 4)%nat -> ((y * w + x) * 4 + c)%nat ≠ j) as Hc.
  { intros c Hc <-. apply Hne, channel_div, Hc. }
  pose proof (Hc 0%nat ltac:(lia)) as H0. rewrite Nat.add_0_r in H0.
  pose proof (Hc 1%nat ltac:(lia)) as H1.
  pose proof (Hc 2%nat ltac:(lia)) as H2.
  pose proof (Hc 3%nat ltac:(lia)) as H3.
  destruct (JS.gt _ t); rewrite !list_lookup_insert_ne by assumption; reflexivity.
Qed.

Lemma interior_test (w h x y : nat) :
  interior w h x y ->
  ((y =? 0) || (y =? h - 1) || (x =? 0) || (x =? w - 1))%nat = false.
Proof.
  intros (Hx & Hy).
  rewrite !orb_false_iff, !Nat.eqb_neq. lia.
Qed.

(** The loop over the border leaves the interior pixels as they are. *)
Lemma border_pixel_keeps_interior (w h x y c y' x' : nat) :
  interior w h x y -> (c < 4)%nat -> (x' < w)%nat ->
  keeps ((y * w + x) * 4 + c) (Worker.border_pixel w h y' x').
Proof.
  intros Hi Hc Hx'.
  destruct (decide ((y', x') = (y, x))) as [[= -> ->]|Hne].
  - intros o. unfold Worker.border_pixel. rewrite (interior_test _ _ _ _ Hi). reflexivity.
  - apply border_pixel_keeps. rewrite channel_div by exact Hc. intros E.
    destruct Hi as (Hx & Hy).
    apply pixel_index_inj in E as [-> ->]; [congruence|lia|lia].
Qed.

(** The loop over the border writes alpha bytes only. *)
Lemma border_pixel_keeps_rgb (w h p c y' x' : nat) :
  (c < 3)%nat -> keeps (p * 4 + c) (Worker.border_pixel w h y' x').
Proof.
  intros Hc o. unfold Worker.border_pixel.
  destruct (_ || _)%bool; [|reflexivity].
  apply list_lookup_insert_ne. lia.
Qed.

(** The four bytes the loop over the interior leaves for its own pixel. *)
Lemma peak_pixel_bytes data gray (w h : nat) col t (x y : nat) :
  (x < w)%nat -> (y < h)%nat ->
  let o := Worker.peak_pixel data gray w col t y x (transparent w h) in
  let idx := ((y * w + x) * 4)%nat in
  if JS.gt (Worker.sobel gray w x y) t then
    o !! idx = Some (JS.ToUint8Clamp (Rgb.r col))
    /\ o !! (idx + 1)%nat = Some (JS.ToUint8Clamp (Rgb.g col))
    /\ o !! (idx + 2)%nat = Some (JS.ToUint8Clamp (Rgb.b col))
    /\ o !! (idx + 3)%nat = Some 255
  else
    o !! idx = Some (JS.ToUint8Clamp (JS.read data idx))
    /\ o !! (idx + 1)%nat = Some (JS.ToUint8Clamp (JS.read data (idx + 1)))
    /\ o !! (idx + 2)%nat = Some (JS.ToUint8Clamp (JS.read data (idx + 2)))
    /\ o !! (idx + 3)%nat = Some 0.
Proof.
  intros Hx Hy o idx. subst o. unfold Worker.peak_pixel. cbv zeta. fold idx.
  pose proof (pixel_index_lt w h x y Hx Hy) as Hlt.
  assert (idx + 3 < length (transparent w h))%nat as Hlen.
  { unfold transparent. rewrite length_replicate. unfold idx. lia. }
  destruct (JS.gt (Worker.sobel gray w x y) t).
  - repeat split.
    + rewrite !list_lookup_insert_ne by lia.
      apply list_lookup_insert_eq. rewrite !length_insert. lia.
    + rewrite !list_lookup_insert_ne by lia.
      apply list_lookup_insert_eq. rewrite !length_insert. lia.
    + rewrite !list_lookup_insert_ne by lia.
      apply list_lookup_insert_eq. rewrite !length_insert. lia.
    + apply list_lookup_insert_eq. rewrite !length_insert. lia.
  - repeat split.
    + rewrite !list_lookup_insert_ne by lia.
      apply list_lookup_insert_eq. lia.
    + rewrite !list_lookup_insert_ne by lia.
      apply list_lookup_insert_eq. rewrite !length_insert. lia.
    + rewrite !list_lookup_insert_ne by lia.
      apply list_lookup_insert_eq. rewrite !length_insert. lia.
    + apply list_lookup_insert_eq. rewrite !length_insert. lia.
Qed.

(** An interior pixel of the worker's image holds what the loop over the
    interior wrote there. *)
Lemma applyFocusPeaking_interior (imageData : ImageData) threshold colorHex
    (x y c : nat) :
  interior (image_width imageData) (image_height imageData) x y -> (c < 4)%nat ->
  image_data (Worker.applyFocusPeaking imageData threshold colorHex)
    !! ((y * image_width imageData + x) * 4 + c)%nat
  = Worker.peak_pixel (image_data imageData)
      (Worker.grayscale_of (image_data imageData) (image_width imageData)
         (image_height imageData))
      (image_width imageData) (Worker.worker_hexToRgb colorHex) threshold y x
      (transparent (image_width imageData) (image_height imageData))
      !! ((y * image_width imageData + x) * 4 + c)%nat.
Proof.
  intros Hi Hc. unfold Worker.applyFocusPeaking. simpl.
  set (w := image_width imageData) in *. set (h := image_height imageData) in *.
  set (data := image_data imageData). set (gray := Worker.grayscale_of data w h).
  set (col := Worker.worker_hexToRgb colorHex).
  match goal with |- for_loop 0 h _ ?o !! _ = _ => set (interior_done := o) end.
  change (for_loop 0 h _ interior_done) with
    (loop2 0 h 0 w (fun y x out => Worker.border_pixel w h y x out) interior_done).
  rewrite (loop2_keeps _ 0 h 0 w).
  2:{ intros y' x' Hy' Hx'. apply border_pixel_keeps_interior; [exact Hi|exact Hc|lia]. }
  unfold interior_done.
  change (for_loop 1 (h - 1) _ ?o) with
    (loop2 1 (h - 1) 1 (w - 1)
       (fun y x out => Worker.peak_pixel data gray w col threshold y x out) o).
  destruct Hi as (Hx & Hy).
  apply (loop2_hit _ 1 (h - 1) 1 (w - 1) _ y x); [exact Hy|exact Hx| |].
  - intros y' x' Hy' Hx' Hne. apply peak_pixel_keeps.
    rewrite channel_div by exact Hc. intros E.
    apply pixel_index_inj in E as [-> ->]; [congruence|lia|lia].
  - apply peak_pixel_local.
Qed.

(** A border pixel of the worker's image is transparent black. *)
Lemma applyFocusPeaking_border_rgb (imageData : ImageData) threshold colorHex
    (x y c : nat) :
  (x < image_width imageData)%nat -> (y < image_height imageData)%nat ->
  border (image_width imageData) (image_height imageData) x y -> (c < 3)%nat ->
  image_data (Worker.applyFocusPeaking imageData threshold colorHex)
    !! ((y * image_width imageData + x) * 4 + c)%nat = Some 0.
Proof.
  intros Hx Hy Hb Hc. unfold Worker.applyFocusPeaking. simpl.
  set (w := image_width imageData) in *. set (h := image_height imageData) in *.
  set (data := image_data imageData). set (gray := Worker.grayscale_of data w h).
  set (col := Worker.worker_hexToRgb colorHex).
  match goal with |- for_loop 0 h _ ?o !! _ = _ => set (interior_done := o) end.
  change (for_loop 0 h _ interior_done) with
    (loop2 0 h 0 w (fun y x out => Worker.border_pixel w h y x out) interior_done).
  rewrite (loop2_keeps _ 0 h 0 w).
  2:{ intros y' x' Hy' Hx'. apply border_pixel_keeps_rgb, Hc. }
  unfold interior_done.
  change (for_loop 1 (h - 1) _ ?o) with
    (loop2 1 (h - 1) 1 (w - 1)
       (fun y x out => Worker.peak_pixel data gray w col threshold y x out) o).
  rewrite (loop2_keeps _ 1 (h - 1) 1 (w - 1)).
  - apply transparent_lookup. pose proof (pixel_index_lt w h x y Hx Hy). lia.
  - intros y' x' Hy' Hx'. apply peak_pixel_keeps.
    rewrite channel_div by lia. intros E.
    apply pixel_index_inj in E as [-> ->]; [|lia|lia].
    apply (border_not_interior w h x' y' Hb). split; lia.
Qed.

Lemma applyFocusPeaking_length (imageData : ImageData) threshold colorHex :
  length (image_data (Worker.applyFocusPeaking imageData threshold colorHex))
  = (image_width imageData * image_height imageData * 4)%nat.
Proof.
  unfold Worker.applyFocusPeaking. simpl.
  rewrite for_loop_length.
  - rewrite for_loop_length.
    + unfold transparent. apply length_replicate.
    + intros i o. apply for_loop_length. intros i' o'. apply peak_pixel_length.
  - intros i o. apply for_loop_length. intros i' o'.
    unfold Worker.border_pixel. destruct (_ || _)%bool; [|reflexivity].
    apply length_insert.
Qed.

Lemma frame_byte (data : list Z) (j : nat) (b : Z) :
  Forall (fun b => 0 <= b <= 255) data -> data !! j = Some b ->
  JS.ToUint8Clamp (JS.read data j) = b.
Proof.
  intros Hall E. unfold JS.read. rewrite E. apply ToUint8Clamp_of_Z.
  rewrite Forall_lookup in Hall. apply (Hall j b E).
Qed.

Lemma frame_byte_lookup (data : list Z) (j : nat) :
  Forall (fun b => 0 <= b <= 255) data -> (j < length data)%nat ->
  Some (JS.ToUint8Clamp (JS.read data j)) = data !! j.
Proof.
  intros Hall Hj. destruct (lookup_lt_is_Some_2 data j Hj) as [b E].
  rewrite E. f_equal. apply (frame_byte data j b Hall E).
Qed.

(** ** A loop that reads what it writes *)

Section LoopState.
Context {A : Type}.
Variable J : nat -> Prop.

(** The state when the loop reaches step [i] agrees with the initial one
    on the indices no other step writes. *)
Lemma fold_at (body : nat -> list A -> list A) (l : list nat) (i : nat) (o : list A) :
  NoDup l -> i ∈ l ->
  (forall i' j, i' ∈ l -> i' ≠ i -> J j -> keeps j (body i')) ->
  exists s, (forall j, J j -> s !! j = o !! j)
            /\ forall j, J j ->
                 fold_left (fun s i => body i s) l o !! j = body i s !! j.
Proof.
  intros ND. revert o.
  induction ND as [|i0 l Hnotin ND IH]; intros o Hin K.
  - inversion Hin.
  - simpl. apply elem_of_cons in Hin as [->|Hin].
    + exists o. split; [reflexivity|]. intros j Hj.
      apply (fold_keeps j body l).
      intros i' Hi'. apply K; [right; exact Hi'| |exact Hj].
      intros ->. exact (Hnotin Hi').
    + destruct (IH (body i0 o) Hin) as (s & Hs & Hf).
      { intros i' j Hi' Hne Hj. apply K; [right; exact Hi'|exact Hne|exact Hj]. }
      exists s. split; [|exact Hf].
      intros j Hj. rewrite (Hs j Hj). apply K; [left| |exact Hj].
      intros ->. exact (Hnotin Hin).
Qed.

Lemma for_loop_at (body : nat -> list A -> list A) (from to i : nat) (o : list A) :
  (from <= i < to)%nat ->
  (forall i' j, (from <= i' < to)%nat -> i' ≠ i -> J j -> keeps j (body i')) ->
  exists s, (forall j, J j -> s !! j = o !! j)
            /\ forall j, J j -> for_loop from to body o !! j = body i s !! j.
Proof.
  intros Hi K. apply fold_at; [apply NoDup_seq|apply elem_of_range, Hi|].
  intros i' j Hi'. apply K, elem_of_range, Hi'.
Qed.

Lemma loop2_at ylo yhi xlo xhi (body : nat -> nat -> list A -> list A)
    (y x : nat) (o : list A) :
  (ylo <= y < yhi)%nat -> (xlo <= x < xhi)%nat ->
  (forall y' x' j, (ylo <= y' < yhi)%nat -> (xlo <= x' < xhi)%nat ->
                   (y', x') ≠ (y, x) -> J j -> keeps j (body y' x')) ->
  exists s, (forall j, J j -> s !! j = o !! j)
            /\ forall j, J j -> loop2 ylo yhi xlo xhi body o !! j = body y x s !! j.
Proof.
  intros Hy Hx K. unfold loop2.
  destruct (for_loop_at
              (fun y o => for_loop xlo xhi (fun x o => body y x o) o)
              ylo yhi y o Hy) as (s1 & Hs1 & Hf1).
  { intros y' j Hy' Hne Hj.
    apply (for_loop_keeps j (fun x o => body y' x o)). intros x' Hx'.
    apply K; [exact Hy'|exact Hx'|congruence|exact Hj]. }
  destruct (for_loop_at (fun x o => body y x o) xlo xhi x s1 Hx) as (s2 & Hs2 & Hf2).
  { intros x' j Hx' Hne Hj. apply K; [exact Hy|exact Hx'|congruence|exact Hj]. }
  exists s2. split.
  - intros j Hj. rewrite (Hs2 j Hj). apply Hs1, Hj.
  - intros j Hj. rewrite (Hf1 j Hj). apply Hf2, Hj.
Qed.
End LoopState.

(** ** Drawing the frame on a canvas of its size *)

Lemma drawImage_length (c : Canvas) (v : Video) :
  length (canvas_bitmap (drawImage c v))
  = (canvas_width c * canvas_height c * 4)%nat.
Proof. unfold drawImage, blit. simpl. rewrite length_map, length_seq. reflexivity. Qed.

(** An image copied on a canvas of its size replaces the bitmap. *)
Lemma blit_same_size (c : Canvas) (w h : nat) (data : list Z) :
  canvas_width c = w -> canvas_height c = h -> length data = (w * h * 4)%nat ->
  canvas_bitmap (blit c w h data) = data.
Proof.
  intros Hw Hh Hlen.
  apply list_eq. intros j. unfold blit. cbn [canvas_bitmap].
  rewrite Hw, Hh. rewrite list_lookup_fmap.
  destruct (decide (j < w * h * 4)%nat) as [Hj|Hj].
  - rewrite lookup_seq_lt by exact Hj. cbn [fmap option_fmap option_map Nat.add]. cbv zeta.
    assert (0 < w)%nat as Hw0 by (destruct w; [simpl in Hj|]; lia).
    assert (j `div` 4 < w * h)%nat as Hp by (apply Nat.Div0.div_lt_upper_bound; lia).
    assert ((j `div` 4) `mod` w < w)%nat as Hx by (apply Nat.mod_upper_bound; lia).
    assert ((j `div` 4) `div` w < h)%nat as Hy
      by (apply Nat.Div0.div_lt_upper_bound; lia).
    apply Nat.ltb_lt in Hx as Hxb. apply Nat.ltb_lt in Hy as Hyb.
    rewrite Hxb, Hyb. cbn [andb].
    assert (((j `div` 4) `div` w * w + (j `div` 4) `mod` w) * 4 + j `mod` 4 = j)%nat as ->.
    { pose proof (Nat.div_mod_eq (j `div` 4) w). pose proof (Nat.div_mod_eq j 4). lia. }
    destruct (lookup_lt_is_Some_2 data j ltac:(lia)) as [b ->]. reflexivity.
  - rewrite lookup_seq_ge by lia. simpl. symmetry. apply lookup_ge_None. lia.
Qed.

Lemma drawImage_frame (c : Canvas) (v : Video) :
  canvas_width c = videoWidth v -> canvas_height c = videoHeight v ->
  well_formed (frame_of v) ->
  canvas_bitmap (drawImage c v) = video_frame v.
Proof.
  intros Hw Hh (Hlen & _). apply blit_same_size; assumption.
Qed.

(** ** The synchronous fallback, pixel by pixel *)

Lemma sync_pixel_keeps col t w y x (j : nat) :
  (j `div` 4 ≠ y * w + x)%nat -> keeps j (Fallback.sync_pixel col t w y x).
Proof.
  intros Hne o. unfold Fallback.sync_pixel. cbv zeta.
  assert (forall c, (c < 4)%nat -> ((y * w + x) * 4 + c)%nat ≠ j) as Hc.
  { intros c Hc <-. apply Hne, channel_div, Hc. }
  pose proof (Hc 0%nat ltac:(lia)) as H0. rewrite Nat.add_0_r in H0.
  pose proof (Hc 1%nat ltac:(lia)) as H1.
  pose proof (Hc 2%nat ltac:(lia)) as H2.
  pose proof (Hc 3%nat ltac:(lia)) as H3.
  destruct (JS.gt _ t); rewrite !list_lookup_insert_ne by assumption; reflexivity.
Qed.

Lemma sync_pixel_length col t w y x o :
  length (Fallback.sync_pixel col t w y x o) = length o.
Proof.
  unfold Fallback.sync_pixel. cbv zeta.
  destruct (JS.gt _ t); rewrite !length_insert; reflexivity.
Qed.

Lemma sync_of_length col t w h data :
  length (Fallback.sync_of col t w h data) = length data.
Proof.
  unfold Fallback.sync_of. apply for_loop_length. intros i o.
  apply for_loop_length. intros i' o'. apply sync_pixel_length.
Qed.

(** A pixel outside the interior is never written. *)
Lemma sync_of_border col t (w h : nat) data (x y c : nat) :
  (x < w)%nat -> (y < h)%nat -> ~ interior w h x y -> (c < 4)%nat ->
  Fallback.sync_of col t w h data !! ((y * w + x) * 4 + c)%nat
  = data !! ((y * w + x) * 4 + c)%nat.
Proof.
  intros Hx Hy Hb Hc. unfold Fallback.sync_of.
  change (for_loop 1 (h - 1) _ ?o) with
    (loop2 1 (h - 1) 1 (w - 1)
       (fun y x out => Fallback.sync_pixel col t w y x out) o).
  apply (loop2_keeps _ 1 (h - 1) 1 (w - 1)).
  intros y' x' Hy' Hx'. apply sync_pixel_keeps.
  rewrite channel_div by exact Hc. intros E.
  apply pixel_index_inj in E as [-> ->]; [|lia|lia].
  apply Hb. split; lia.
Qed.

(** An interior pixel is decided once, on the data as they stand when the
    loop reaches it: it is recoloured and keeps its alpha, or it keeps its
    colour and becomes transparent. *)
Lemma sync_of_interior col t (w h : nat) data (x y : nat) :
  interior w h x y -> length data = (w * h * 4)%nat ->
  let idx := ((y * w + x) * 4)%nat in
  let out := Fallback.sync_of col t w h data in
  exists s,
    (forall c, (c < 4)%nat -> s !! (idx + c)%nat = data !! (idx + c)%nat)
    /\ if JS.gt (Fallback.sobel s w x y) t then
         out !! idx = Some (JS.ToUint8Clamp (Rgb.r col))
         /\ out !! (idx + 1)%nat = Some (JS.ToUint8Clamp (Rgb.g col))
         /\ out !! (idx + 2)%nat = Some (JS.ToUint8Clamp (Rgb.b col))
         /\ out !! (idx + 3)%nat = data !! (idx + 3)%nat
       else
         out !! idx = data !! idx
         /\ out !! (idx + 1)%nat = data !! (idx + 1)%nat
         /\ out !! (idx + 2)%nat = data !! (idx + 2)%nat
         /\ out !! (idx + 3)%nat = Some 0.
Proof.
  intros (Hx & Hy) Hlen idx out. subst out. unfold Fallback.sync_of.
  change (for_loop 1 (h - 1) _ ?o) with
    (loop2 1 (h - 1) 1 (w - 1)
       (fun y x out => Fallback.sync_pixel col t w y x out) o).
  destruct (loop2_at (fun j => (j `div` 4 = y * w + x)%nat) 1 (h - 1) 1 (w - 1)
              (fun y x out => Fallback.sync_pixel col t w y x out) y x data Hy Hx)
    as (s & Hs & Hf).
  { intros y' x' j Hy' Hx' Hne Hj. apply sync_pixel_keeps. rewrite Hj. intros E.
    apply pixel_index_inj in E as [-> ->]; [congruence|lia|lia]. }
  assert (forall c, (c < 4)%nat -> s !! (idx + c)%nat = data !! (idx + c)%nat) as Hs'.
  { intros c Hc. apply Hs. apply channel_div, Hc. }
  exists s. split; [exact Hs'|].
  assert (forall c, (c < 4)%nat -> (idx + c < length s)%nat) as Hin.
  { intros c Hc. apply lookup_lt_is_Some. rewrite (Hs' c Hc).
    apply lookup_lt_is_Some. rewrite Hlen.
    pose proof (pixel_index_lt w h x y ltac:(lia) ltac:(lia)). unfold idx. lia. }
  pose proof (Hin 0%nat ltac:(lia)) as L0. rewrite Nat.add_0_r in L0.
  pose proof (Hin 1%nat ltac:(lia)) as L1.
  pose proof (Hin 2%nat ltac:(lia)) as L2.
  pose proof (Hin 3%nat ltac:(lia)) as L3.
  pose proof (Hs' 0%nat ltac:(lia)) as S0. rewrite Nat.add_0_r in S0.
  pose proof (Hs' 1%nat ltac:(lia)) as S1.
  pose proof (Hs' 2%nat ltac:(lia)) as S2.
  pose proof (Hs' 3%nat ltac:(lia)) as S3.
  pose proof (Hf (idx + 0)%nat ltac:(apply channel_div; lia)) as F0.
  rewrite Nat.add_0_r in F0.
  pose proof (Hf (idx + 1)%nat ltac:(apply channel_div; lia)) as F1.
  pose proof (Hf (idx + 2)%nat ltac:(apply channel_div; lia)) as F2.
  pose proof (Hf (idx + 3)%nat ltac:(apply channel_div; lia)) as F3.
  rewrite F0, F1, F2, F3. clear F0 F1 F2 F3.
  unfold Fallback.sync_pixel. cbv zeta. fold idx.
  destruct (JS.gt (Fallback.sobel s w x y) t).
  - repeat split.
    + rewrite !list_lookup_insert_ne by lia. apply list_lookup_insert_eq. lia.
    + rewrite !list_lookup_insert_ne by lia.
      apply list_lookup_insert_eq. rewrite !length_insert. lia.
    + apply list_lookup_insert_eq. rewrite !length_insert. lia.
    + rewrite !list_lookup_insert_ne by lia. exact S3.
  - repeat split.
    + rewrite !list_lookup_insert_ne by lia. exact S0.
    + rewrite !list_lookup_insert_ne by lia. exact S1.
    + rewrite !list_lookup_insert_ne by lia. exact S2.
    + apply list_lookup_insert_eq. lia.
Qed.

(** ** The dotted revision, pixel by pixel *)








(** The Laplacian on the luminance bytes, without rounding. *)
Lemma laplacian_exact (data : list Z) (w h x y : nat) :
  interior w h x y ->
  let lum := luminance_byte data w in
  Dotted.edgeResponse (Outline.grayscale_of data w h) w x y
  = JS.of_Z (Z.abs (lum x y * 4 - lum x (y - 1)%nat - lum x (y + 1)%nat
                    - lum (x - 1)%nat y - lum (x + 1)%nat y)).
Proof.
  intros (Hx & Hy) lum. unfold Dotted.edgeResponse. cbv zeta.
  assert (forall x' y', (x' < w)%nat -> (y' < h)%nat ->
            integer (JS.read (Outline.grayscale_of data w h) (y' * w + x')) (lum x' y'))
    as Hr by (intros; apply grayscale_read; assumption).
  assert (forall x' y', 0 <= lum x' y' <= 255) as Hl
    by (intros; apply luminance_byte_range).
  pose proof (Hl x y). pose proof (Hl x (y - 1)%nat). pose proof (Hl x (y + 1)%nat).
  pose proof (Hl (x - 1)%nat y). pose proof (Hl (x + 1)%nat y).
  assert (2 ^ 53 = 9007199254740992) as E53 by reflexivity.
  assert (integer Dotted.lit_4 4) as I4 by (apply (integer_of_Z 4); reflexivity).
  apply integer_abs; [|lia].
  apply integer_sub; [|apply Hr; lia|lia].
  apply integer_sub; [|apply Hr; lia|lia].
  apply integer_sub; [|apply Hr; lia|lia].
  apply integer_sub; [|apply Hr; lia|lia].
  apply integer_mul; [apply Hr; lia|exact I4|lia].
Qed.


(** ** Thresholds *)

Lemma gt_mono (g t1 t2 : JS.number) :
  is_number g -> is_number t1 -> is_number t2 -> JS.le t1 t2 = true ->
  JS.gt g t2 = true -> JS.gt g t1 = true.
Proof.
  intros Hg H1 H2 Hle G.
  apply le_val in Hle as (_ & _ & N1 & N2 & L); [|assumption|assumption].
  apply gt_val in G as (Ng & _ & Hlt); [|assumption|assumption].
  apply gt_val; [assumption|assumption|]. repeat split; try assumption. lia.
Qed.

(** Zero exceeds no threshold that is not negative. *)
Lemma zero_below (t : JS.number) :
  is_number t -> JS.le JS.lit_0 t = true -> JS.gt (JS.of_Z 0) t = false.
Proof.
  intros Ht Hle.
  apply le_val in Hle as (_ & _ & _ & Nt & L); [|reflexivity|assumption].
  destruct (JS.gt (JS.of_Z 0) t) eqn:G; [|reflexivity].
  apply gt_val in G as (_ & _ & Hlt); [|reflexivity|assumption].
  change (val (JS.of_Z 0)) with 0 in Hlt. change (val JS.lit_0) with 0 in L. lia.
Qed.

(** ** Frames of one colour *)

Lemma uniform_luminance (data : list Z) (w h : nat) (R G B : Z) (x y x' y' : nat) :
  uniform data w h R G B ->
  (x < w)%nat -> (y < h)%nat -> (x' < w)%nat -> (y' < h)%nat ->
  luminance_byte data w x y = luminance_byte data w x' y'.
Proof.
  intros U Hx Hy Hx' Hy'.
  destruct (U x y Hx Hy) as (E0 & E1 & E2).
  destruct (U x' y' Hx' Hy') as (E0' & E1' & E2').
  unfold luminance_byte, Outline.luminance, JS.read.
  rewrite E0, E1, E2, E0', E1', E2'. reflexivity.
Qed.

(** The edge response of the outline revision on the luminance bytes. *)
Lemma edgeResponse_integer (data : list Z) (w h x y : nat) :
  interior w h x y ->
  Outline.edgeResponse (Outline.grayscale_of data w h) w x y
  = JS.Math_sqrt
      (JS.of_Z
         ((luminance_byte data w (x + 1) y - luminance_byte data w (x - 1) y)
          * (luminance_byte data w (x + 1) y - luminance_byte data w (x - 1) y)
          + (luminance_byte data w x (y + 1) - luminance_byte data w x (y - 1))
            * (luminance_byte data w x (y + 1) - luminance_byte data w x (y - 1)))).
Proof.
  intros (Hx & Hy). unfold Outline.edgeResponse. cbv zeta.
  set (lum := luminance_byte data w).
  assert (forall x' y', (x' < w)%nat -> (y' < h)%nat ->
            integer (JS.read (Outline.grayscale_of data w h) (y' * w + x')) (lum x' y'))
    as Hr by (intros; apply grayscale_read; assumption).
  assert (forall x' y', 0 <= lum x' y' <= 255) as Hl
    by (intros; apply luminance_byte_range).
  pose proof (Hl (x + 1)%nat y). pose proof (Hl (x - 1)%nat y).
  pose proof (Hl x (y + 1)%nat). pose proof (Hl x (y - 1)%nat).
  assert (2 ^ 53 = 9007199254740992) as E53 by reflexivity.
  assert (integer (JS.Math_abs (JS.sub (JS.read (Outline.grayscale_of data w h) (y * w + (x + 1)))
                                  (JS.read (Outline.grayscale_of data w h) (y * w + (x - 1)))))
            (Z.abs (lum (x + 1)%nat y - lum (x - 1)%nat y))) as Gx.
  { rewrite (integer_abs _ (lum (x + 1)%nat y - lum (x - 1)%nat y)); [|apply integer_sub; [apply Hr; lia|apply Hr; lia|lia]|lia].
    apply integer_of_Z. lia. }
  assert (integer (JS.Math_abs (JS.sub (JS.read (Outline.grayscale_of data w h) ((y + 1) * w + x))
                                  (JS.read (Outline.grayscale_of data w h) ((y - 1) * w + x))))
            (Z.abs (lum x (y + 1)%nat - lum x (y - 1)%nat))) as Gy.
  { rewrite (integer_abs _ (lum x (y + 1)%nat - lum x (y - 1)%nat)); [|apply integer_sub; [apply Hr; lia|apply Hr; lia|lia]|lia].
    apply integer_of_Z. lia. }
  rewrite (integer_square _ _ Gx) by nia.
  rewrite (integer_square _ _ Gy) by nia.
  rewrite add_of_Z by nia. f_equal. f_equal. nia.
Qed.

Lemma uniform_edgeResponse (data : list Z) (w h : nat) (R G B : Z) (x y : nat) :
  uniform data w h R G B -> interior w h x y ->
  Outline.edgeResponse (Outline.grayscale_of data w h) w x y = JS.of_Z 0.
Proof.
  intros U (Hx & Hy). rewrite edgeResponse_integer by (split; assumption).
  rewrite (uniform_luminance data w h R G B (x + 1) y (x - 1) y U) by lia.
  rewrite (uniform_luminance data w h R G B x (y + 1) x (y - 1) U) by lia.
  rewrite !Z.sub_diag. reflexivity.
Qed.

Lemma uniform_sobel (data : list Z) (w h : nat) (R G B : Z) (x y : nat) :
  uniform data w h R G B -> interior w h x y ->
  Worker.sobel (Worker.grayscale_of data w h) w x y = JS.of_Z 0.
Proof.
  intros U (Hx & Hy). rewrite sobel_exact by (split; assumption).
  assert (forall x' y', (x' < w)%nat -> (y' < h)%nat ->
            luminance_byte data w x' y' = luminance_byte data w x y) as E.
  { intros x' y' Hx' Hy'. apply (uniform_luminance data w h R G B); try assumption; lia. }
  unfold sobel_gx, sobel_gy.
  rewrite !(E (x - 1)%nat), !(E (x + 1)%nat), !(E x (y - 1)%nat), !(E x (y + 1)%nat) by lia.
  match goal with |- JS.Math_sqrt (JS.of_Z ?z) = _ => replace z with 0 by ring end.
  reflexivity.
Qed.


(** ** The byte of a number *)

(** The byte a [Uint8ClampedArray] stores for a number that is not
    negative: its value rounded to the nearest integer, a tie going to the
    even one, and 255 at most. *)
Lemma ToUint8Clamp_val (x : JS.number) :
  is_number x -> is_nan x = false -> 0 <= val x ->
  JS.ToUint8Clamp x = Z.min 255 (rne (val x) 1074).
Proof.
  intros Hx Nx Vx. pose proof huge_pos as Hp.
  destruct x as [s|[|]| |[|] m e]; try discriminate Nx; cbn [val] in Vx |- *.
  - pose proof (rne_exact 0 1074 ltac:(lia)) as E. rewrite Z.mul_0_l in E.
    rewrite E. reflexivity.
  - lia.
  - pose proof (rne_exact (2 ^ 1026) 1074 ltac:(lia)) as E.
    rewrite <- (pow_split 1026 1074) in E by lia. change (2 ^ (1026 + 1074)) with huge in E.
    rewrite E. reflexivity.
  - pose proof (mag_pos m e ltac:(apply (canonical_facts true m e Hx))). lia.
  - destruct (canonical_facts false m e Hx) as (He & _). unfold mag.
    cbn [JS.ToUint8Clamp].
    destruct (Z.leb_spec 0 e) as [L|L].
    + rewrite (pow_split e 1074) by lia. rewrite Z.mul_assoc.
      rewrite rne_exact by lia. reflexivity.
    + replace 1074 with (- e + (e + 1074)) at 2 by lia.
      rewrite rne_scale by lia. rewrite rne_pos by lia. cbv zeta.
      pose proof (Z.pow_pos_nonneg 2 (- e) ltac:(lia) ltac:(lia)) as Hd.
      assert (0 <= Z.pos m / 2 ^ (- e)) as Hf by (apply Z.div_pos; lia).
      destruct (Z.leb_spec 255 (Z.pos m / 2 ^ (- e))).
      * destruct (_ <? _); [lia|]. destruct (_ <? _); [lia|].
        destruct (Z.even _); lia.
      * destruct (_ <? _); [lia|]. destruct (_ <? _); [lia|].
        destruct (Z.even _); lia.
Qed.

Lemma ToUint8Clamp_nonpositive (x : JS.number) :
  is_number x -> val x <= 0 -> JS.ToUint8Clamp x = 0.
Proof.
  intros Hx Vx. pose proof huge_pos.
  destruct x as [s|[|]| |[|] m e]; try reflexivity; cbn [val] in Vx; [lia|].
  pose proof (mag_pos m e ltac:(apply (canonical_facts false m e Hx))). lia.
Qed.

(** A larger number is stored as a larger byte. *)
Lemma ToUint8Clamp_mono (x y : JS.number) :
  ordered x y -> JS.ToUint8Clamp x <= JS.ToUint8Clamp y.
Proof.
  intros (Hx & Hy & Nx & Ny & Hle).
  destruct (Z.le_gt_cases (val x) 0) as [Neg|Pos].
  - rewrite (ToUint8Clamp_nonpositive x Hx Neg).
    apply (ToUint8Clamp_range y).
  - rewrite (ToUint8Clamp_val x), (ToUint8Clamp_val y) by (try assumption; lia).
    apply Z.min_le_compat_l. apply rne_mono; lia.
Qed.

(** ** The alpha of a pixel is monotone *)

Lemma alpha_of_range (m t i : JS.number) : 0 <= alpha_of m t i <= 255.
Proof.
  unfold alpha_of. destruct (JS.gt m t); [apply ToUint8Clamp_range|lia].
Qed.

Lemma edgeStrength_antitone (m t1 t2 : JS.number) :
  is_number m -> is_number t1 -> is_number t2 -> JS.le t1 t2 = true ->
  JS.gt m t2 = true ->
  ordered (edgeStrength m t2) (edgeStrength m t1).
Proof.
  intros Hm H1 H2 Hle G2.
  apply le_val in Hle; [|assumption|assumption].
  apply gt_val in G2 as (Nm & N2 & Hlt); [|assumption|assumption].
  destruct (sub_antitone m t1 t2 Hm Nm Hle Hlt) as (Od & _).
  destruct lit_2_facts as (L2 & F2 & P2).
  pose proof (mul_positive_mono JS.lit_2 _ _ L2 F2 P2 Od) as Om.
  apply (Math_min_255_mono _ _ Om).
Qed.

(** The alpha for an intensity that is not a number is 0. *)
Lemma alpha_byte_mono (s1 s2 i : JS.number) :
  is_number i -> ordered s1 s2 ->
  finite_or_zero s1 = true -> finite_or_zero s2 = true -> 0 <= val s1 ->
  JS.ToUint8Clamp (JS.Math_min JS.lit_255 (JS.mul s1 i))
  <= JS.ToUint8Clamp (JS.Math_min JS.lit_255 (JS.mul s2 i)).
Proof.
  intros Hi Os F1 F2 V1. pose proof Os as (H1 & H2 & N1 & N2 & Hle).
  destruct (Z.le_gt_cases (val i) 0) as [Neg|Pos].
  { rewrite (alpha_nonpositive s1 i) by assumption.
    apply ToUint8Clamp_range. }
  destruct (is_nan i) eqn:Ni.
  { destruct i; discriminate Ni || (cbn [val] in Pos; lia). }
  destruct (finite_or_zero i) eqn:Fi.
  - apply ToUint8Clamp_mono, Math_min_255_mono.
    apply mul_positive_mono; assumption.
  - pose proof huge_pos.
    destruct (not_finite_cases i Ni Fi) as [-> | ->]; [|cbn [val] in Pos; lia].
    destruct (Z.eq_dec (val s1) 0) as [Z1|NZ1].
    + assert (JS.ToUint8Clamp (JS.Math_min JS.lit_255 (JS.mul s1 (S754_infinity false))) = 0) as ->.
      { destruct s1 as [s|s| |s mm ee]; try discriminate F1; [reflexivity|].
        cbn [val] in Z1.
        pose proof (mag_pos mm ee ltac:(apply (canonical_facts s mm ee H1))).
        destruct s; lia. }
      apply ToUint8Clamp_range.
    + assert (forall s, is_number s -> finite_or_zero s = true -> 0 < val s ->
                JS.mul s (S754_infinity false) = S754_infinity false) as Hinf.
      { intros s Hs Fs Vs. destruct s as [s'|s'| |[|] mm ee]; try discriminate Fs.
        - cbn [val] in Vs. lia.
        - cbn [val] in Vs.
          pose proof (mag_pos mm ee ltac:(apply (canonical_facts true mm ee Hs))). lia.
        - reflexivity. }
      rewrite (Hinf s1), (Hinf s2) by (try assumption; lia). lia.
Qed.

(** Raising the threshold never raises the alpha of a pixel. *)
Lemma alpha_of_antitone (m t1 t2 i : JS.number) :
  is_number m -> is_number t1 -> is_number t2 -> is_number i ->
  JS.le t1 t2 = true -> alpha_of m t2 i <= alpha_of m t1 i.
Proof.
  intros Hm H1 H2 Hi Hle.
  destruct (JS.gt m t2) eqn:G2.
  - pose proof (gt_mono m t1 t2 Hm H1 H2 Hle G2) as G1.
    pose proof (edgeStrength_antitone m t1 t2 Hm H1 H2 Hle G2) as Os.
    destruct (edgeStrength_facts m t2 Hm H2 G2) as (_ & _ & F2 & _ & V2 & _).
    destruct (edgeStrength_facts m t1 Hm H1 G1) as (_ & _ & F1 & _ & _).
    unfold alpha_of. rewrite G1, G2.
    apply (alpha_byte_mono _ _ i Hi Os F2 F1 V2).
  - unfold alpha_of at 1. rewrite G2. apply alpha_of_range.
Qed.

(** Raising the intensity never lowers the alpha of a pixel. *)
Lemma alpha_of_intensity_mono (m t i1 i2 : JS.number) :
  is_number m -> is_number t -> is_number i1 -> is_number i2 ->
  JS.le i1 i2 = true -> alpha_of m t i1 <= alpha_of m t i2.
Proof.
  intros Hm Ht H1 H2 Hle. unfold alpha_of.
  destruct (JS.gt m t) eqn:G; [|lia].
  fold (edgeStrength m t).
  destruct (edgeStrength_facts m t Hm Ht G) as (Hs & Ns & Fs & Ps & Vs & _).
  apply le_val in Hle; [|assumption|assumption].
  destruct (Z.eq_dec (val (edgeStrength m t)) 0) as [Z0|NZ].
  - rewrite (plus_zero _ Hs Ps Z0).
    assert (forall i, JS.ToUint8Clamp
                        (JS.Math_min JS.lit_255 (JS.mul (S754_zero false) i)) = 0) as E.
    { intros [s|s| |s mm ee]; try reflexivity; destruct s; reflexivity. }
    rewrite !E. lia.
  - rewrite (mul_comm _ i1), (mul_comm _ i2).
    apply ToUint8Clamp_mono, Math_min_255_mono.
    apply mul_positive_mono; try assumption. lia.
Qed.

(** ** The worker's [applyFocusPeaking] *)

(** X1. The image [applyFocusPeaking] returns for a well-formed image has
    the size of its argument and is a mask: an interior pixel whose Sobel
    magnitude exceeds the threshold has the bytes of the colour and alpha
    255; any other interior pixel keeps the colour bytes of the frame with
    alpha 0; a border pixel is transparent black. *)
Theorem applyFocusPeaking_pixels (imageData : ImageData) (threshold : JS.number)
    (colorHex : string) (x y : nat) :
  well_formed imageData ->
  (x < image_width imageData)%nat -> (y < image_height imageData)%nat ->
  let w := image_width imageData in
  let h := image_height imageData in
  let data := image_data imageData in
  let result := Worker.applyFocusPeaking imageData threshold colorHex in
  let g := Worker.sobel (Worker.grayscale_of data w h) w x y in
  let highlightColor := Worker.worker_hexToRgb colorHex in
  (image_width result = w /\ image_height result = h
   /\ length (image_data result) = (w * h * 4)%nat)
  /\ (interior w h x y -> JS.gt g threshold = true ->
      channel (image_data result) w x y 0
      = Some (JS.ToUint8Clamp (Rgb.r highlightColor))
      /\ channel (image_data result) w x y 1
         = Some (JS.ToUint8Clamp (Rgb.g highlightColor))
      /\ channel (image_data result) w x y 2
         = Some (JS.ToUint8Clamp (Rgb.b highlightColor))
      /\ alpha (image_data result) w x y = Some 255)
  /\ (interior w h x y -> JS.gt g threshold = false ->
      channel (image_data result) w x y 0 = channel data w x y 0
      /\ channel (image_data result) w x y 1 = channel data w x y 1
      /\ channel (image_data result) w x y 2 = channel data w x y 2
      /\ alpha (image_data result) w x y = Some 0)
  /\ (border w h x y ->
      forall c : nat, (c < 4)%nat -> channel (image_data result) w x y c = Some 0).
Proof.
  intros (Hlen & Hbytes) Hx Hy. cbv zeta.
  pose proof (peak_pixel_bytes (image_data imageData)
                (Worker.grayscale_of (image_data imageData)
                   (image_width imageData) (image_height imageData))
                (image_width imageData) (image_height imageData)
                (Worker.worker_hexToRgb colorHex) threshold x y Hx Hy) as Hb.
  cbv zeta in Hb.
  pose proof (pixel_index_lt _ _ x y Hx Hy) as Hp.
  split; [|split; [|split]].
  - split; [reflexivity|]. split; [reflexivity|]. apply applyFocusPeaking_length.
  - intros Hi G. unfold alpha, channel.
    rewrite !(applyFocusPeaking_interior imageData threshold colorHex x y)
      by (try exact Hi; lia).
    rewrite G in Hb. rewrite Nat.add_0_r. exact Hb.
  - intros Hi G. unfold alpha, channel.
    rewrite !(applyFocusPeaking_interior imageData threshold colorHex x y)
      by (try exact Hi; lia).
    rewrite G in Hb. destruct Hb as (B0 & B1 & B2 & B3).
    rewrite Nat.add_0_r, B0, B1, B2, B3.
    rewrite !frame_byte_lookup by (try assumption; lia). repeat split.
  - intros Hbd c Hc. unfold channel.
    destruct (decide (c = 3%nat)) as [->|Hne].
    + apply (applyFocusPeaking_border imageData threshold colorHex x y Hx Hy Hbd).
    + apply applyFocusPeaking_border_rgb; try assumption. lia.
Qed.

(** X2. The magnitude the worker compares with the threshold is the
    square root of [gx^2 + gy^2], where [gx] and [gy] are the Sobel sums of
    the eight neighbouring luminance bytes, each between -1020 and 1020;
    the sums and the squares are computed without rounding. *)
Theorem worker_sobel_magnitude (data : list Z) (w h x y : nat) :
  interior w h x y ->
  let gx := sobel_gx (luminance_byte data w) x y in
  let gy := sobel_gy (luminance_byte data w) x y in
  Worker.sobel (Worker.grayscale_of data w h) w x y
  = JS.Math_sqrt (JS.of_Z (gx * gx + gy * gy))
  /\ -1020 <= gx <= 1020 /\ -1020 <= gy <= 1020.
Proof.
  intros Hi gx gy. split; [apply sobel_exact, Hi|].
  unfold gx, gy, sobel_gx, sobel_gy.
  pose proof (luminance_byte_range data w (x - 1) (y - 1)).
  pose proof (luminance_byte_range data w (x - 1) y).
  pose proof (luminance_byte_range data w (x - 1) (y + 1)).
  pose proof (luminance_byte_range data w (x + 1) (y - 1)).
  pose proof (luminance_byte_range data w (x + 1) y).
  pose proof (luminance_byte_range data w (x + 1) (y + 1)).
  pose proof (luminance_byte_range data w x (y - 1)).
  pose proof (luminance_byte_range data w x (y + 1)). lia.
Qed.

Lemma worker_alpha (imageData : ImageData) threshold colorHex (x y : nat) :
  (x < image_width imageData)%nat -> (y < image_height imageData)%nat ->
  alpha (image_data (Worker.applyFocusPeaking imageData threshold colorHex))
    (image_width imageData) x y
  = Some (if interiorb (image_width imageData) (image_height imageData) x y
             && JS.gt (Worker.sobel
                         (Worker.grayscale_of (image_data imageData)
                            (image_width imageData) (image_height imageData))
                         (image_width imageData) x y) threshold
          then 255 else 0).
Proof.
  intros Hx Hy.
  destruct (interiorb (image_width imageData) (image_height imageData) x y) eqn:Hi.
  - apply interiorb_spec in Hi. unfold alpha, channel.
    rewrite (applyFocusPeaking_interior imageData threshold colorHex x y) by (try exact Hi; lia).
    pose proof (peak_pixel_bytes (image_data imageData)
                  (Worker.grayscale_of (image_data imageData)
                     (image_width imageData) (image_height imageData))
                  (image_width imageData) (image_height imageData)
                  (Worker.worker_hexToRgb colorHex) threshold x y Hx Hy) as Hb.
    cbv zeta in Hb. cbn [andb].
    destruct (JS.gt _ threshold); apply Hb.
  - cbn [andb]. apply applyFocusPeaking_border; try assumption.
    assert (~ interior (image_width imageData) (image_height imageData) x y) as Hn.
    { intros Hin. apply interiorb_spec in Hin. congruence. }
    unfold border, interior in *. lia.
Qed.

(** X3. Raising the threshold never makes a pixel of the worker's image
    opaque: pixel by pixel the alpha does not rise, and so the number of
    opaque pixels does not rise either. *)
Theorem worker_threshold_monotone (imageData : ImageData) (t1 t2 : JS.number)
    (colorHex : string) :
  is_number t1 -> is_number t2 -> JS.le t1 t2 = true ->
  let w := image_width imageData in
  let h := image_height imageData in
  let at_ t := image_data (Worker.applyFocusPeaking imageData t colorHex) in
  (forall x y : nat, (x < w)%nat -> (y < h)%nat ->
     exists a1 a2 : Z,
       alpha (at_ t1) w x y = Some a1 /\ alpha (at_ t2) w x y = Some a2 /\ a2 <= a1)
  /\ (count_opaque (at_ t2) w h <= count_opaque (at_ t1) w h)%nat.
Proof.
  intros H1 H2 Hle w h at_.
  assert (forall x y, (x < w)%nat -> (y < h)%nat ->
            forall b1 b2,
              b1 = (interiorb w h x y
                    && JS.gt (Worker.sobel (Worker.grayscale_of (image_data imageData) w h) w x y) t1) ->
              b2 = (interiorb w h x y
                    && JS.gt (Worker.sobel (Worker.grayscale_of (image_data imageData) w h) w x y) t2) ->
              b2 = true -> b1 = true) as Hmono.
  { intros x y Hx Hy b1 b2 -> -> Hb.
    apply andb_true_iff in Hb as (Hi & G). rewrite Hi. cbn [andb].
    apply (gt_mono _ t1 t2); try assumption.
    unfold Worker.sobel. cbv zeta. apply SFsqrt_valid. }
  split.
  - intros x y Hx Hy. unfold at_.
    rewrite !worker_alpha by assumption. fold w h.
    eexists. eexists. split; [reflexivity|]. split; [reflexivity|].
    pose proof (Hmono x y Hx Hy _ _ eq_refl eq_refl) as Hm.
    destruct (interiorb w h x y && JS.gt _ t2);
      [rewrite Hm by reflexivity; lia|].
    destruct (interiorb w h x y && JS.gt _ t1); lia.
  - unfold count_opaque. apply filter_length_le.
    intros p Hp. apply elem_of_seq in Hp as (_ & Hp). simpl in Hp.
    assert (0 < w)%nat as Hw by (destruct w; [simpl in Hp|]; lia).
    set (x := (p mod w)%nat). set (y := (p / w)%nat).
    assert (p = y * w + x)%nat as Ep.
    { unfold x, y. pose proof (Nat.div_mod_eq p w). lia. }
    assert (x < w)%nat as Hx by (apply Nat.mod_upper_bound; lia).
    assert (y < h)%nat as Hy by (unfold y; apply Nat.Div0.div_lt_upper_bound; lia).
    unfold opaque.
    pose proof (worker_alpha imageData t1 colorHex x y Hx Hy) as A1.
    pose proof (worker_alpha imageData t2 colorHex x y Hx Hy) as A2.
    unfold alpha, channel in A1, A2. fold w h in A1, A2. rewrite <- Ep in A1, A2.
    unfold at_. rewrite A1, A2.
    pose proof (Hmono x y Hx Hy _ _ eq_refl eq_refl) as Hm.
    destruct (interiorb w h x y && JS.gt _ t2); [|discriminate].
    rewrite Hm by reflexivity. reflexivity.
Qed.

(** X4. For a frame of one colour and a threshold that is not negative,
    the worker's image is transparent everywhere. *)
Theorem worker_uniform_frame (imageData : ImageData) (threshold : JS.number)
    (colorHex : string) (R G B : Z) (x y : nat) :
  is_number threshold -> JS.le JS.lit_0 threshold = true ->
  uniform (image_data imageData) (image_width imageData) (image_height imageData)
    R G B ->
  (x < image_width imageData)%nat -> (y < image_height imageData)%nat ->
  alpha (image_data (Worker.applyFocusPeaking imageData threshold colorHex))
    (image_width imageData) x y = Some 0.
Proof.
  intros Ht Hle U Hx Hy. rewrite worker_alpha by assumption.
  destruct (interiorb _ _ x y) eqn:Hi; [|reflexivity].
  apply interiorb_spec in Hi.
  rewrite (uniform_sobel _ _ _ R G B x y U Hi).
  rewrite (zero_below threshold Ht Hle). reflexivity.
Qed.

(** ** The synchronous fallback *)

Lemma processSynchronously_returns (ctx : Canvas) (v : Video) color threshold :
  canvas_width ctx = videoWidth v -> canvas_height ctx = videoHeight v ->
  (0 < videoWidth v)%nat -> (0 < videoHeight v)%nat ->
  well_formed (frame_of v) ->
  Fallback.processSynchronously ctx v color threshold
  = Returned
      (MkCanvas (videoWidth v) (videoHeight v)
         (Fallback.sync_of (Worker.hexToRgb color) threshold (videoWidth v)
            (videoHeight v) (video_frame v))
         (canvas_context2d ctx)) [].
Proof.
  intros Hw Hh Pw Ph Hwf. unfold Fallback.processSynchronously, getImageData.
  assert (canvas_width (drawImage ctx v) = videoWidth v) as Dw by exact Hw.
  assert (canvas_height (drawImage ctx v) = videoHeight v) as Dh by exact Hh.
  rewrite Dw, Dh.
  destruct (videoWidth v) as [|w'] eqn:Ew; [lia|].
  destruct (videoHeight v) as [|h'] eqn:Eh; [lia|].
  cbn [Nat.eqb orb]. cbv iota. cbv zeta. cbn [image_data].
  rewrite (drawImage_frame ctx v) by (rewrite ?Ew, ?Eh; assumption).
  unfold putImageData. cbn [image_data]. rewrite Dw, Dh. reflexivity.
Qed.

(** X5. [processSynchronously], on a canvas of the size of the frame,
    returns a canvas of that size on which a pixel outside the interior is
    the pixel of the frame, alpha included, and an interior pixel is either
    recoloured, with the alpha of the frame, or left with the colour of the
    frame and made transparent. *)
Theorem processSynchronously_pixels (ctx : Canvas) (v : Video)
    (color : string) (threshold : JS.number) :
  canvas_width ctx = videoWidth v -> canvas_height ctx = videoHeight v ->
  (0 < videoWidth v)%nat -> (0 < videoHeight v)%nat ->
  well_formed (frame_of v) ->
  let w := videoWidth v in
  let h := videoHeight v in
  let frame := video_frame v in
  let colorRgb := Worker.hexToRgb color in
  exists out : list Z,
    Fallback.processSynchronously ctx v color threshold
    = Returned (MkCanvas w h out (canvas_context2d ctx)) []
    /\ length out = (w * h * 4)%nat
    /\ forall x y : nat, (x < w)%nat -> (y < h)%nat ->
         (~ interior w h x y ->
          forall c : nat, (c < 4)%nat -> channel out w x y c = channel frame w x y c)
         /\ (interior w h x y ->
             (channel out w x y 0 = Some (JS.ToUint8Clamp (Rgb.r colorRgb))
              /\ channel out w x y 1 = Some (JS.ToUint8Clamp (Rgb.g colorRgb))
              /\ channel out w x y 2 = Some (JS.ToUint8Clamp (Rgb.b colorRgb))
              /\ alpha out w x y = alpha frame w x y)
             \/ (channel out w x y 0 = channel frame w x y 0
                 /\ channel out w x y 1 = channel frame w x y 1
                 /\ channel out w x y 2 = channel frame w x y 2
                 /\ alpha out w x y = Some 0)).
Proof.
  intros Hw Hh Pw Ph Hwf. cbv zeta.
  eexists. split; [apply processSynchronously_returns; assumption|].
  destruct Hwf as (Hlen & _). cbn [frame_of image_data image_width image_height] in Hlen.
  split; [rewrite sync_of_length; exact Hlen|].
  intros x y Hx Hy. split.
  - intros Hn c Hc. unfold channel. apply sync_of_border; assumption.
  - intros Hi. unfold alpha, channel.
    destruct (sync_of_interior (Worker.hexToRgb color) threshold (videoWidth v)
                (videoHeight v) (video_frame v) x y Hi Hlen) as (s & _ & Hs).
    cbv zeta in Hs. rewrite !Nat.add_0_r.
    destruct (JS.gt _ threshold); [left|right]; exact Hs.
Qed.

(** ** The dotted revision *)


(** X7. The edge response of the dotted revision at an interior pixel is
    the absolute Laplacian of the luminance bytes, four times the centre
    minus the four neighbours: an integer from 0 to 1020, computed without
    rounding. *)
Theorem dotted_laplacian (data : list Z) (w h x y : nat) :
  interior w h x y ->
  let lum := luminance_byte data w in
  let response :=
    Z.abs (lum x y * 4 - lum x (y - 1)%nat - lum x (y + 1)%nat
           - lum (x - 1)%nat y - lum (x + 1)%nat y) in
  Dotted.edgeResponse (Outline.grayscale_of data w h) w x y = JS.of_Z response
  /\ 0 <= response <= 1020.
Proof.
  intros Hi lum response. split; [apply laplacian_exact, Hi|].
  unfold response, lum.
  pose proof (luminance_byte_range data w x y).
  pose proof (luminance_byte_range data w x (y - 1)).
  pose proof (luminance_byte_range data w x (y + 1)).
  pose proof (luminance_byte_range data w (x - 1) y).
  pose proof (luminance_byte_range data w (x + 1) y). lia.
Qed.


(** ** More on the outline revision *)

(** X9. For a frame of one colour and a threshold that is not negative,
    the overlay of the outline revision is transparent everywhere. *)
Theorem uniform_frame_is_transparent st document (v : Video) (c : Canvas)
    (color : string) (threshold intensity : JS.number) (mode : string)
    (R G B : Z) (x y : nat) :
  drawable document v c ->
  is_number threshold -> JS.le JS.lit_0 threshold = true ->
  uniform (video_frame v) (videoWidth v) (videoHeight v) R G B ->
  (x < videoWidth v)%nat -> (y < videoHeight v)%nat ->
  alpha (drawn st document v c color threshold intensity mode) (videoWidth v) x y
  = Some 0.
Proof.
  intros D Ht Hle U Hx Hy.
  rewrite (drawn_overlay _ _ _ _ _ _ _ _ D). unfold overlay.
  rewrite outline_of_alpha by assumption. f_equal.
  destruct (interiorb _ _ x y) eqn:Hi; [|reflexivity].
  apply interiorb_spec in Hi. unfold alpha_of.
  rewrite (uniform_edgeResponse _ _ _ R G B x y U Hi).
  rewrite (zero_below threshold Ht Hle). reflexivity.
Qed.

(** X10. Pixel by pixel, the alpha of the overlay does not rise when the
    threshold is raised, does not fall when the intensity is raised, and
    is 0 everywhere at an intensity that is not positive. *)
Theorem alpha_is_monotone st document (v : Video) (c : Canvas) (color : string)
    (mode : string) (x y : nat) :
  drawable document v c ->
  (x < videoWidth v)%nat -> (y < videoHeight v)%nat ->
  let alpha_at t i := alpha (drawn st document v c color t i mode) (videoWidth v) x y in
  (forall t1 t2 i : JS.number,
      is_number t1 -> is_number t2 -> is_number i -> JS.le t1 t2 = true ->
      exists a1 a2 : Z,
        alpha_at t1 i = Some a1 /\ alpha_at t2 i = Some a2 /\ a2 <= a1)
  /\ (forall t i1 i2 : JS.number,
         is_number t -> is_number i1 -> is_number i2 -> JS.le i1 i2 = true ->
         exists a1 a2 : Z,
           alpha_at t i1 = Some a1 /\ alpha_at t i2 = Some a2 /\ a1 <= a2)
  /\ (forall t i : JS.number,
         is_number t -> is_number i -> JS.le i JS.lit_0 = true ->
         alpha_at t i = Some 0).
Proof.
  intros D Hx Hy. cbv zeta.
  assert (forall t i,
             alpha (drawn st document v c color t i mode) (videoWidth v) x y
             = Some (if interiorb (videoWidth v) (videoHeight v) x y
                     then alpha_of (magnitude_at v x y) t i else 0)) as E.
  { intros t i. rewrite (drawn_overlay _ _ _ _ _ _ _ _ D). unfold overlay.
    apply outline_of_alpha; assumption. }
  assert (is_number (magnitude_at v x y)) as Hm by apply edgeResponse_number.
  split; [|split].
  - intros t1 t2 i H1 H2 Hi Hle. rewrite !E.
    eexists. eexists. split; [reflexivity|]. split; [reflexivity|].
    destruct (interiorb _ _ x y); [|lia].
    apply alpha_of_antitone; assumption.
  - intros t i1 i2 Ht H1 H2 Hle. rewrite !E.
    eexists. eexists. split; [reflexivity|]. split; [reflexivity|].
    destruct (interiorb _ _ x y); [|lia].
    apply alpha_of_intensity_mono; assumption.
  - intros t i Ht Hi Hle. rewrite E. f_equal.
    destruct (interiorb _ _ x y); [|reflexivity].
    apply le_val in Hle as (_ & _ & Ni & _ & Vi); [|assumption|reflexivity].
    change (val JS.lit_0) with 0 in Vi.
    unfold alpha_of. destruct (JS.gt (magnitude_at v x y) t) eqn:G; [|reflexivity].
    fold (edgeStrength (magnitude_at v x y) t).
    destruct (edgeStrength_facts _ t Hm Ht G) as (Hs & Ns & Fs & _ & Vs & _).
    apply alpha_nonpositive; assumption.
Qed.

(** X11. The colour has no part in the detection: two calls that differ
    in the colour only give every pixel the same alpha. *)
Theorem alpha_ignores_the_colour st document (v : Video) (c : Canvas)
    (color color' : string) (threshold intensity : JS.number) (mode : string)
    (x y : nat) :
  drawable document v c ->
  (x < videoWidth v)%nat -> (y < videoHeight v)%nat ->
  alpha (drawn st document v c color threshold intensity mode) (videoWidth v) x y
  = alpha (drawn st document v c color' threshold intensity mode) (videoWidth v) x y.
Proof.
  intros D Hx Hy. rewrite !(drawn_overlay _ _ _ _ _ _ _ _ D). unfold overlay.
  rewrite !outline_of_alpha by assumption. reflexivity.
Qed.

(** ** When a call throws *)


(** ** How [hexToRgb] reads a string *)

Lemma upper_hash (c : ascii) : Ascii.eqb (upper c) "#" = Ascii.eqb c "#".
Proof.
  apply Bool.eqb_prop. revert c. apply all_chars_spec. vm_compute. reflexivity.
Qed.

Lemma upper_hex_digit (c : ascii) : is_hex_digit (upper c) = is_hex_digit c.
Proof.
  apply Bool.eqb_prop. revert c. apply all_chars_spec. vm_compute. reflexivity.
Qed.

Lemma upper_digit_value (c : ascii) :
  is_hex_digit c = true -> hex_digit_value (upper c) = hex_digit_value c.
Proof.
  intros H. apply Z.eqb_eq. revert H.
  assert (implb (is_hex_digit c) (hex_digit_value (upper c) =? hex_digit_value c) = true) as E.
  { revert c. apply all_chars_spec. vm_compute. reflexivity. }
  intros H. rewrite H in E. exact E.
Qed.

Lemma six_hex_digits_upper (l : list ascii) :
  six_hex_digits (map upper l) = six_hex_digits l.
Proof.
  destruct l as [|a0 [|a1 [|a2 [|a3 [|a4 [|a5 [|a6 rest]]]]]]]; try reflexivity.
  unfold six_hex_digits. cbn [map forallb].
  rewrite !upper_hex_digit.
  destruct (is_hex_digit a0) eqn:H0; [|reflexivity].
  destruct (is_hex_digit a1) eqn:H1; [|reflexivity].
  destruct (is_hex_digit a2) eqn:H2; [|reflexivity].
  destruct (is_hex_digit a3) eqn:H3; [|reflexivity].
  destruct (is_hex_digit a4) eqn:H4; [|reflexivity].
  destruct (is_hex_digit a5) eqn:H5; [|reflexivity].
  cbn [andb]. unfold hex_byte. rewrite !upper_digit_value by assumption. reflexivity.
Qed.

Lemma parse_chars_upper (l : list ascii) : parse_chars (map upper l) = parse_chars l.
Proof.
  destruct l as [|c t]; [reflexivity|]. cbn [map parse_chars].
  rewrite upper_hash. destruct (Ascii.eqb c "#"); [apply six_hex_digits_upper|].
  apply (six_hex_digits_upper (c :: t)).
Qed.

Lemma parse_color_same_letters (s s' : string) :
  same_letters s s' -> parse_color s = parse_color s'.
Proof.
  intros E. change (parse_color s) with (parse_chars (String.list_ascii_of_string s)).
  change (parse_color s') with (parse_chars (String.list_ascii_of_string s')).
  rewrite <- (parse_chars_upper (String.list_ascii_of_string s)).
  rewrite <- (parse_chars_upper (String.list_ascii_of_string s')).
  unfold same_letters in E. rewrite E. reflexivity.
Qed.

Lemma six_hex_digits_length (l : list ascii) (c : Z * Z * Z) :
  six_hex_digits l = Some c -> length l = 6%nat /\ forallb is_hex_digit l = true.
Proof.
  destruct l as [|a0 [|a1 [|a2 [|a3 [|a4 [|a5 [|a6 rest]]]]]]]; try discriminate.
  unfold six_hex_digits. destruct (forallb _ _) eqn:E; [|discriminate].
  intros _. split; reflexivity.
Qed.

Lemma string_length_chars (s : string) :
  String.length s = length (String.list_ascii_of_string s).
Proof. induction s as [|c s IH]; simpl; [reflexivity|]. rewrite IH. reflexivity. Qed.

(** X13. Every [hexToRgb] of the file reads a colour without regard to
    the case of its letters: two strings that differ in the case of ASCII
    letters only give the same colour, whatever the fallback. *)
Theorem hexToRgb_ignores_case (fallback : Rgb.t) (hex hex' : string) :
  same_letters hex hex' ->
  hexToRgb_or fallback hex = hexToRgb_or fallback hex'.
Proof.
  intros E. rewrite !hexToRgb_or_spec.
  rewrite (parse_color_same_letters hex hex' E). reflexivity.
Qed.

(** X14. The leading [#] is optional and nothing else is: a string that
    does not start with [#] gives the same colour with a [#] put before
    it, and a string that is parsed has 6 characters, or 7 of which the
    first is [#]; so the short form [#F00] and the form with an alpha
    component are not parsed, and fall back. *)
Theorem hexToRgb_hash_is_optional (fallback : Rgb.t) :
  (forall hex : string,
      (forall t, hex <> String "#" t) ->
      hexToRgb_or fallback (String "#" hex) = hexToRgb_or fallback hex)
  /\ (forall (hex : string) (c : Z * Z * Z),
         parse_color hex = Some c ->
         String.length hex = 6%nat
         \/ (String.length hex = 7%nat /\ exists t, hex = String "#" t))
  /\ (forall hex : string,
         String.length hex <> 6%nat -> String.length hex <> 7%nat ->
         hexToRgb_or fallback hex = fallback)
  /\ hexToRgb_or fallback "#F00" = fallback
  /\ hexToRgb_or fallback "#FF4A4A80" = fallback.
Proof.
  assert (forall (hex : string) (c : Z * Z * Z),
             parse_color hex = Some c ->
             String.length hex = 6%nat
             \/ (String.length hex = 7%nat /\ exists t, hex = String "#" t)) as Hlen.
  { intros hex c. unfold parse_color. rewrite string_length_chars.
    destruct hex as [|a t]; [discriminate|]. cbn [String.list_ascii_of_string].
    destruct (Ascii.eqb a "#") eqn:Ea.
    - apply Ascii.eqb_eq in Ea. subst a. intros H.
      apply six_hex_digits_length in H as (H & _). right. split.
      + cbn [length]. rewrite H. reflexivity.
      + eexists. reflexivity.
    - intros H. apply six_hex_digits_length in H as (H & _). left. exact H. }
  split; [|split; [exact Hlen|split; [|split]]].
  - intros hex Hno. rewrite !hexToRgb_or_spec. unfold parse_color.
    cbn [String.list_ascii_of_string]. rewrite Ascii.eqb_refl.
    destruct hex as [|a t]; [reflexivity|]. cbn [String.list_ascii_of_string].
    destruct (Ascii.eqb a "#") eqn:Ea; [|reflexivity].
    apply Ascii.eqb_eq in Ea. subst a. exfalso. apply (Hno t). reflexivity.
  - intros hex H6 H7. rewrite hexToRgb_or_spec.
    destruct (parse_color hex) as [c|] eqn:E; [|reflexivity].
    destruct (Hlen hex c E) as [H|(H & _)]; congruence.
  - rewrite hexToRgb_or_spec. reflexivity.
  - rewrite hexToRgb_or_spec. reflexivity.
Qed.

Lemma hexToRgb_ignores_case_witness :
  hexToRgb_or (Rgb.Mk JS.lit_255 JS.lit_0 JS.lit_0) "#ff4a4a"
  = hexToRgb_or (Rgb.Mk JS.lit_255 JS.lit_0 JS.lit_0) "#FF4A4A".
Proof.
  apply (hexToRgb_ignores_case (Rgb.Mk JS.lit_255 JS.lit_0 JS.lit_0)
           "#ff4a4a" "#FF4A4A").
  reflexivity.
Defined.

(** ** The worker revision *)

Lemma set_canvas_same (page : Async.Canvases) (id : nat) (c : Canvas) :
  Async.set_canvas page id c id = c.
Proof. unfold Async.set_canvas. rewrite Nat.eqb_refl. reflexivity. Qed.

Lemma set_canvas_other (page : Async.Canvases) (id id' : nat) (c : Canvas) :
  id' ≠ id -> Async.set_canvas page id c id' = page id'.
Proof.
  intros H. unfold Async.set_canvas.
  destruct (Nat.eqb_spec id' id); [contradiction|reflexivity].
Qed.

Lemma sized_dims (c : Canvas) (v : Video) :
  canvas_width (sized c v) = videoWidth v
  /\ canvas_height (sized c v) = videoHeight v
  /\ canvas_context2d (sized c v) = canvas_context2d c.
Proof.
  unfold sized.
  destruct (Nat.eqb_spec (canvas_width c) (videoWidth v)) as [Ew|Ew];
    destruct (Nat.eqb_spec (canvas_height c) (videoHeight v)) as [Eh|Eh];
    cbn [negb orb resize canvas_width canvas_height canvas_context2d];
    repeat split; assumption.
Qed.

Lemma drawImage_sized (c : Canvas) (v : Video) :
  well_formed (frame_of v) ->
  drawImage (sized c v) v
  = MkCanvas (videoWidth v) (videoHeight v) (video_frame v) (canvas_context2d c).
Proof.
  intros Hw. destruct (sized_dims c v) as (Ew & Eh & Ec).
  pose proof (drawImage_frame (sized c v) v Ew Eh Hw) as Eb.
  unfold drawImage, blit in *. cbn [canvas_bitmap] in Eb.
  rewrite Eb, Ew, Eh, Ec. reflexivity.
Qed.

Lemma getImageData_frame (v : Video) (ctx : bool) :
  (0 < videoWidth v)%nat -> (0 < videoHeight v)%nat ->
  getImageData (MkCanvas (videoWidth v) (videoHeight v) (video_frame v) ctx)
  = Some (frame_of v).
Proof.
  intros Hw Hh. unfold getImageData. cbn [canvas_width canvas_height canvas_bitmap].
  destruct (Nat.eqb_spec (videoWidth v) 0); [lia|].
  destruct (Nat.eqb_spec (videoHeight v) 0); [lia|]. reflexivity.
Qed.

Lemma processFrame_posts (workers : bool) (st : Async.State)
    (page : Async.Canvases) (v : Video) (id : nat) (color : string)
    (threshold : JS.number) :
  canvas_context2d (page id) = true ->
  (0 < videoWidth v)%nat -> (0 < videoHeight v)%nat ->
  well_formed (frame_of v) ->
  (Async.worker st = None -> workers = true) ->
  Async.processFrame workers st page v id color threshold true
  = Async.MkResult (posted_state st v id color threshold)
      (Async.set_canvas
         (Async.set_canvas page id (sized (page id) v)) id
         (MkCanvas (videoWidth v) (videoHeight v) (video_frame v) true))
      [] (Some (Async.MkRequest (frame_of v) threshold color)) None.
Proof.
  intros Hc Hw Hh Hf Hk. unfold Async.processFrame. cbn [negb].
  fold (sized (page id) v).
  destruct (sized_dims (page id) v) as (_ & _ & Ec). rewrite Ec, Hc. cbn [negb].
  rewrite (drawImage_sized (page id) v Hf), Hc.
  rewrite (getImageData_frame v true Hw Hh).
  unfold posted_state.
  destruct (Async.worker st) as [h|] eqn:E.
  - reflexivity.
  - rewrite (Hk eq_refl). reflexivity.
Qed.

Lemma worker_is_kept (workers : bool) (st : Async.State) (page : Async.Canvases)
    (v : Video) (id : nat) (color : string) (threshold : JS.number)
    (enabled : bool) (h : Async.Handle) :
  Async.worker st = Some h ->
  Async.worker
    (Async.result_state
       (Async.processFrame workers st page v id color threshold enabled))
  = Some h.
Proof.
  intros E. unfold Async.processFrame.
  destruct enabled; cbn [negb]; [|exact E].
  match goal with |- context [if negb ?b then _ else _] => destruct b end;
    cbn [negb]; [|exact E].
  rewrite E.
  match goal with |- context [getImageData ?c] => destruct (getImageData c) end.
  - cbn [Async.result_state].
    match goal with |- context [if ?b then _ else _] => destruct b end;
      cbn [Async.worker]; exact E.
  - unfold Async.fall_back.
    match goal with |- context [Fallback.processSynchronously ?a ?b ?c ?d] =>
      destruct (Fallback.processSynchronously a b c d) end;
      cbn [Async.result_state];
      match goal with |- context [if ?b then _ else _] => destruct b end;
      cbn [Async.worker]; exact E.
Qed.



(** X15. Through the worker: an enabled call on a canvas with a context,
    whose worker exists for this canvas or can be created, posts the frame
    with its threshold and colour and returns with the bare frame on the
    canvas; once the reply of the worker is handled the canvas holds what
    [applyFocusPeaking] made of the frame, and no other canvas changed. *)
Theorem worker_round_trip (workers : bool) (st : Async.State)
    (page : Async.Canvases) (v : Video) (id : nat) (color : string)
    (threshold : JS.number) :
  canvas_context2d (page id) = true ->
  (0 < videoWidth v)%nat -> (0 < videoHeight v)%nat ->
  well_formed (frame_of v) ->
  match Async.worker st with
  | Some handle => Async.handle_ctx handle = id
  | None => workers = true
  end ->
  let r := Async.processFrame workers st page v id color threshold true in
  Async.result_thrown r = None /\ Async.result_console r = []
  /\ Async.result_page r id
     = MkCanvas (videoWidth v) (videoHeight v) (video_frame v) true
  /\ exists request : Async.Request,
       Async.result_posted r = Some request
       /\ let reply := Async.worker_onmessage request in
          let page' := Async.onmessage (Async.result_state r) (Async.result_page r)
                         reply in
          reply = Worker.applyFocusPeaking (frame_of v) threshold color
          /\ page' id
             = MkCanvas (videoWidth v) (videoHeight v) (image_data reply) true
          /\ forall id' : nat, id' ≠ id -> page' id' = page id'.
Proof.
  intros Hc Hw Hh Hf Hk. cbv zeta.
  rewrite (processFrame_posts workers st page v id color threshold Hc Hw Hh Hf)
    by (intros E; rewrite E in Hk; exact Hk).
  cbn [Async.result_thrown Async.result_console Async.result_page
       Async.result_posted Async.result_state].
  split; [reflexivity|]. split; [reflexivity|].
  split; [apply set_canvas_same|].
  eexists. split; [reflexivity|].
  unfold Async.worker_onmessage.
  cbn [Async.request_imageData Async.request_threshold Async.request_color].
  split; [reflexivity|].
  assert (Async.worker (posted_state st v id color threshold)
          = Some (match Async.worker st with
                  | Some handle => handle
                  | None => Async.MkHandle id color threshold
                  end)) as Ek.
  { unfold posted_state. destruct (Async.worker st) as [h|] eqn:E.
    - destruct (_ || _); exact E.
    - cbn [Async.lastVideoWidth Async.lastVideoHeight Async.worker].
      destruct (_ || _); reflexivity. }
  assert (Async.handle_ctx (match Async.worker st with
                            | Some handle => handle
                            | None => Async.MkHandle id color threshold
                            end) = id) as Ei.
  { destruct (Async.worker st); [exact Hk|reflexivity]. }
  unfold Async.onmessage. rewrite Ek, Ei. rewrite !set_canvas_same.
  split.
  - unfold putImageData_clipped.
    pose proof (blit_same_size
                  (MkCanvas (videoWidth v) (videoHeight v) (video_frame v) true)
                  (videoWidth v) (videoHeight v)
                  (image_data (Worker.applyFocusPeaking (frame_of v) threshold color))
                  eq_refl eq_refl
                  (applyFocusPeaking_length (frame_of v) threshold color)) as Eb.
    change (image_width (Worker.applyFocusPeaking (frame_of v) threshold color))
      with (videoWidth v).
    change (image_height (Worker.applyFocusPeaking (frame_of v) threshold color))
      with (videoHeight v).
    unfold blit in *. cbn [canvas_bitmap canvas_width canvas_height canvas_context2d] in *.
    rewrite Eb. reflexivity.
  - intros id' Hn. rewrite !set_canvas_other by exact Hn. reflexivity.
Qed.

(** X16. The reply is drawn on the canvas of the call that created the
    worker. When a later call passes another canvas, that canvas is left
    with the bare frame, opaque over the video, and the result of the
    worker is drawn, clipped, on the first canvas. *)
Theorem reply_is_drawn_on_the_first_canvas (workers : bool) (st : Async.State)
    (page : Async.Canvases) (v : Video) (id : nat) (color : string)
    (threshold : JS.number) (handle : Async.Handle) :
  Async.worker st = Some handle -> Async.handle_ctx handle ≠ id ->
  canvas_context2d (page id) = true ->
  (0 < videoWidth v)%nat -> (0 < videoHeight v)%nat ->
  well_formed (frame_of v) ->
  let r := Async.processFrame workers st page v id color threshold true in
  exists request : Async.Request,
    Async.result_posted r = Some request
    /\ let reply := Async.worker_onmessage request in
       let page' := Async.onmessage (Async.result_state r) (Async.result_page r)
                      reply in
       reply = Worker.applyFocusPeaking (frame_of v) threshold color
       /\ page' id = MkCanvas (videoWidth v) (videoHeight v) (video_frame v) true
       /\ page' (Async.handle_ctx handle)
          = putImageData_clipped (page (Async.handle_ctx handle)) reply.
Proof.
  intros Ek Hn Hc Hw Hh Hf. cbv zeta.
  rewrite (processFrame_posts workers st page v id color threshold Hc Hw Hh Hf)
    by (intros E; rewrite E in Ek; discriminate Ek).
  cbn [Async.result_posted Async.result_state Async.result_page].
  eexists. split; [reflexivity|].
  unfold Async.worker_onmessage.
  cbn [Async.request_imageData Async.request_threshold Async.request_color].
  split; [reflexivity|].
  assert (Async.worker (posted_state st v id color threshold) = Some handle) as Ek'.
  { unfold posted_state. rewrite Ek. destruct (_ || _); exact Ek. }
  unfold Async.onmessage. rewrite Ek'. split.
  - rewrite set_canvas_other by (intros E; apply Hn; symmetry; exact E).
    apply set_canvas_same.
  - rewrite set_canvas_same. rewrite !set_canvas_other by exact Hn. reflexivity.
Qed.

Lemma calls_keep_the_worker (workers : bool) (l : list Call)
    (st : Async.State) (page : Async.Canvases) (handle : Async.Handle) :
  Async.worker st = Some handle ->
  Async.worker (fst (calls workers st page l)) = Some handle.
Proof.
  unfold calls. revert st page. induction l as [|k l IH]; intros st page E.
  - exact E.
  - cbn [fold_left fst snd].
    match goal with
    | |- context [fold_left ?f l (?s, ?p)] => apply (IH s p)
    end.
    apply worker_is_kept. exact E.
Qed.

(** X17. The worker is created once. The first enabled call on a canvas
    with a context creates it, with the canvas, colour and threshold of
    that call; no later call replaces it, whatever it passes; and an error
    of the worker is handled by [processSynchronously] on that first
    canvas with that first colour and threshold. *)
Theorem worker_is_created_once (st : Async.State) (page : Async.Canvases)
    (v : Video) (id : nat) (color : string) (threshold : JS.number)
    (workers : bool) (later : list Call) (video : Video) :
  Async.worker st = None -> canvas_context2d (page id) = true ->
  let first := MkCall v id color threshold true in
  let after := calls workers (fst (calls true st page [first]))
                 (snd (calls true st page [first])) later in
  Async.worker (fst after) = Some (Async.MkHandle id color threshold)
  /\ Async.onerror (fst after) (snd after) video
     = Async.fall_back (fst after) (snd after) id video color threshold
         ["Web Worker error:"%string].
Proof.
  intros E Hc. cbv zeta.
  assert (Async.worker (fst (calls true st page [MkCall v id color threshold true]))
          = Some (Async.MkHandle id color threshold)) as E1.
  { unfold calls. cbn [fold_left fst snd call_video call_canvas call_color
                         call_threshold call_enabled].
    unfold Async.processFrame. cbn [negb]. fold (sized (page id) v).
    destruct (sized_dims (page id) v) as (_ & _ & Ec). rewrite Ec, Hc, E.
    cbn [negb Async.lastVideoWidth Async.lastVideoHeight Async.worker].
    match goal with |- context [getImageData ?c] => destruct (getImageData c) end.
    - cbn [Async.result_state].
      match goal with |- context [if ?b then _ else _] => destruct b end;
        reflexivity.
    - unfold Async.fall_back.
      match goal with |- context [Fallback.processSynchronously ?a ?b ?c ?d] =>
        destruct (Fallback.processSynchronously a b c d) end;
        cbn [Async.result_state];
        match goal with |- context [if ?b then _ else _] => destruct b end;
        reflexivity. }
  pose proof (calls_keep_the_worker workers later _
                (snd (calls true st page [MkCall v id color threshold true])) _ E1)
    as E2.
  split; [exact E2|].
  unfold Async.onerror. rewrite E2. reflexivity.
Qed.

(** X18. Where no worker can be created, an enabled call logs the failure
    and draws synchronously: it returns with the result of
    [processSynchronously] on the canvas, posts nothing, and leaves the
    variables of the module as they were, so that the next call tries to
    create the worker again. *)
Theorem fallback_without_workers (st : Async.State) (page : Async.Canvases)
    (v : Video) (id : nat) (color : string) (threshold : JS.number) :
  Async.worker st = None ->
  canvas_context2d (page id) = true ->
  (0 < videoWidth v)%nat -> (0 < videoHeight v)%nat ->
  well_formed (frame_of v) ->
  let r := Async.processFrame false st page v id color threshold true in
  Async.result_state r = st
  /\ Async.result_posted r = None /\ Async.result_thrown r = None
  /\ Async.result_console r = ["Error creating web worker:"%string]
  /\ Async.result_page r id
     = MkCanvas (videoWidth v) (videoHeight v)
         (Fallback.sync_of (Worker.hexToRgb color) threshold (videoWidth v)
            (videoHeight v) (video_frame v)) true
  /\ forall id' : nat, id' ≠ id -> Async.result_page r id' = page id'.
Proof.
  intros E Hc Hw Hh Hf. cbv zeta.
  unfold Async.processFrame. cbn [negb]. fold (sized (page id) v).
  destruct (sized_dims (page id) v) as (Ew & Eh & Ec). rewrite Ec, Hc, E.
  cbn [negb]. unfold Async.fall_back. rewrite set_canvas_same.
  rewrite (processSynchronously_returns (sized (page id) v) v color threshold
             Ew Eh Hw Hh Hf).
  rewrite Ec, Hc.
  cbn [Async.result_state Async.result_posted Async.result_thrown
       Async.result_console Async.result_page app].
  repeat (split; [reflexivity|]).
  split; [apply set_canvas_same|].
  intros id' Hn. rewrite !set_canvas_other by exact Hn. reflexivity.
Qed.


(** ** The sample page again *)

Lemma sample_well_formed : well_formed (frame_of sample_video).
Proof. split; [reflexivity|]. repeat constructor; lia. Qed.


Lemma flat_uniform : uniform (video_frame flat_video) 3 3 70 70 70.
Proof.
  intros x y Hx Hy.
  destruct x as [|[|[|x]]]; [| | |lia];
    (destruct y as [|[|[|y]]]; [| | |lia]); repeat split; reflexivity.
Qed.

Lemma flat_drawable : drawable sample_document flat_video sample_canvas.
Proof. repeat split; simpl; lia. Qed.

Lemma sample_interior : interior 3 3 1 1.
Proof. split; lia. Qed.

Lemma applyFocusPeaking_pixels_witness :
  alpha
    (image_data
       (Worker.applyFocusPeaking (frame_of sample_video) (JS.of_Z 30) "#00ff00"))
    3 1 1 = Some 255.
Proof.
  apply (proj1 (proj2 (applyFocusPeaking_pixels (frame_of sample_video)
                         (JS.of_Z 30) "#00ff00" 1%nat 1%nat sample_well_formed
                         ltac:(simpl; lia) ltac:(simpl; lia)))).
  - exact sample_interior.
  - vm_compute. reflexivity.
Defined.

Lemma worker_sobel_magnitude_witness :
  Worker.sobel (Worker.grayscale_of (video_frame sample_video) 3 3) 3 1 1
  = JS.Math_sqrt (JS.of_Z (280 * 280 + 0 * 0)).
Proof.
  apply (proj1 (worker_sobel_magnitude (video_frame sample_video) 3 3 1 1
                  sample_interior)).
Defined.

Lemma worker_threshold_monotone_witness :
  (count_opaque
     (image_data
        (Worker.applyFocusPeaking (frame_of sample_video) (JS.of_Z 300) "#00ff00"))
     3 3
   <= count_opaque
        (image_data
           (Worker.applyFocusPeaking (frame_of sample_video) (JS.of_Z 30) "#00ff00"))
        3 3)%nat.
Proof.
  apply (proj2 (worker_threshold_monotone (frame_of sample_video) (JS.of_Z 30)
                  (JS.of_Z 300) "#00ff00" eq_refl eq_refl eq_refl)).
Defined.

Lemma worker_uniform_frame_witness :
  alpha
    (image_data
       (Worker.applyFocusPeaking (frame_of flat_video) (JS.of_Z 30) "#00ff00"))
    3 1 1 = Some 0.
Proof.
  apply (worker_uniform_frame (frame_of flat_video) (JS.of_Z 30) "#00ff00"
           70 70 70 1%nat 1%nat eq_refl eq_refl flat_uniform).
  - simpl. lia.
  - simpl. lia.
Defined.

Lemma processSynchronously_pixels_witness :
  exists out : list Z,
    Fallback.processSynchronously (resize sample_canvas 3 3) sample_video
      "#00ff00" (JS.of_Z 30)
    = Returned (MkCanvas 3 3 out true) []
    /\ length out = 36%nat.
Proof.
  destruct (processSynchronously_pixels (resize sample_canvas 3 3) sample_video
              "#00ff00" (JS.of_Z 30) eq_refl eq_refl ltac:(simpl; lia)
              ltac:(simpl; lia) sample_well_formed) as (out & E & L & _).
  exists out. split; [exact E|exact L].
Defined.


Lemma dotted_laplacian_witness :
  Dotted.edgeResponse (Outline.grayscale_of (video_frame sample_video) 3 3) 3 1 1
  = JS.of_Z 70.
Proof.
  apply (proj1 (dotted_laplacian (video_frame sample_video) 3 3 1 1
                  sample_interior)).
Defined.


Lemma uniform_frame_is_transparent_witness :
  alpha
    (drawn sample_state sample_document flat_video sample_canvas "#00ff00"
       (JS.of_Z 30) (JS.of_Z 1) "outline") 3 1 1
  = Some 0.
Proof.
  apply (uniform_frame_is_transparent sample_state sample_document flat_video
           sample_canvas "#00ff00" (JS.of_Z 30) (JS.of_Z 1) "outline" 70 70 70
           1%nat 1%nat flat_drawable eq_refl eq_refl flat_uniform).
  - simpl. lia.
  - simpl. lia.
Defined.

Lemma alpha_is_monotone_witness :
  alpha
    (drawn sample_state sample_document sample_video sample_canvas "#00ff00"
       (JS.of_Z 30) JS.lit_0 "outline") 3 1 1
  = Some 0.
Proof.
  apply (proj2 (proj2 (alpha_is_monotone sample_state sample_document
                         sample_video sample_canvas "#00ff00" "outline" 1%nat
                         1%nat sample_drawable
                         ltac:(simpl; lia) ltac:(simpl; lia)))).
  - reflexivity.
  - reflexivity.
  - reflexivity.
Defined.

Lemma alpha_ignores_the_colour_witness :
  alpha
    (drawn sample_state sample_document sample_video sample_canvas "#00ff00"
       (JS.of_Z 30) (JS.of_Z 1) "outline") 3 1 1
  = alpha
      (drawn sample_state sample_document sample_video sample_canvas "blue"
         (JS.of_Z 30) (JS.of_Z 1) "outline") 3 1 1.
Proof.
  apply (alpha_ignores_the_colour sample_state sample_document sample_video
           sample_canvas "#00ff00" "blue" (JS.of_Z 30) (JS.of_Z 1) "outline"
           1%nat 1%nat sample_drawable).
  - simpl. lia.
  - simpl. lia.
Defined.

Lemma worker_round_trip_witness :
  Async.result_page
    (Async.processFrame true sample_worker_state sample_page sample_video 0
       "#00ff00" (JS.of_Z 30) true) 0%nat
  = MkCanvas 3 3 (video_frame sample_video) true.
Proof.
  apply (proj1 (proj2 (proj2 (worker_round_trip true sample_worker_state
                                sample_page sample_video 0 "#00ff00"
                                (JS.of_Z 30) eq_refl ltac:(simpl; lia)
                                ltac:(simpl; lia) sample_well_formed eq_refl)))).
Defined.

Lemma reply_is_drawn_on_the_first_canvas_witness :
  exists request : Async.Request,
    Async.result_posted
      (Async.processFrame true
         (Async.MkState (Some (Async.MkHandle 0 "#00ff00" (JS.of_Z 30))) 3 3)
         sample_page sample_video 1 "#00ff00" (JS.of_Z 30) true)
    = Some request.
Proof.
  destruct (reply_is_drawn_on_the_first_canvas true
              (Async.MkState (Some (Async.MkHandle 0 "#00ff00" (JS.of_Z 30))) 3 3)
              sample_page sample_video 1 "#00ff00" (JS.of_Z 30)
              (Async.MkHandle 0 "#00ff00" (JS.of_Z 30)) eq_refl
              ltac:(simpl; lia) eq_refl ltac:(simpl; lia) ltac:(simpl; lia)
              sample_well_formed) as (request & E & _).
  exists request. exact E.
Defined.

Lemma worker_is_created_once_witness :
  Async.worker
    (fst (calls false
            (fst (calls true sample_worker_state sample_page
                    [MkCall sample_video 0 "#00ff00" (JS.of_Z 30) true]))
            (snd (calls true sample_worker_state sample_page
                    [MkCall sample_video 0 "#00ff00" (JS.of_Z 30) true]))
            [MkCall flat_video 1 "blue" (JS.of_Z 80) true]))
  = Some (Async.MkHandle 0 "#00ff00" (JS.of_Z 30)).
Proof.
  apply (proj1 (worker_is_created_once sample_worker_state sample_page
                  sample_video 0 "#00ff00" (JS.of_Z 30) false
                  [MkCall flat_video 1 "blue" (JS.of_Z 80) true] sample_video
                  eq_refl eq_refl)).
Defined.

Lemma fallback_without_workers_witness :
  Async.result_console
    (Async.processFrame false sample_worker_state sample_page sample_video 0
       "#00ff00" (JS.of_Z 30) true)
  = ["Error creating web worker:"%string].
Proof.
  apply (proj1 (proj2 (proj2 (proj2
           (fallback_without_workers sample_worker_state sample_page
              sample_video 0 "#00ff00" (JS.of_Z 30) eq_refl eq_refl
              ltac:(simpl; lia) ltac:(simpl; lia) sample_well_formed))))).
Defined.
